(** * Graph-structured stochastic IHT (tune_params.py): model and properties

    A shallow embedding of the optimisation core of [tune_params.py]:
    the projection-oracle wrapper, the gradient evaluator, the batch
    sampler, the observation counter and the three optimiser loops
    (Sto-IHT, SVRG-IHT, SCSG-IHT).

    Conventions of the embedding.
    - The file is Python 2 code ([range(B / b)], [range(num_blocks)] with
      [num_blocks = int(n) / int(B)]): [/] on two ints is floor division
      and raises [ZeroDivisionError] on a zero divisor.
    - Python ints are [Z].  numpy float arrays are lists over a scalar
      type [R] whose operations are left abstract (class [Scalar]): no
      algebraic law is assumed, so every statement holds for whatever the
      floating-point operations compute.
    - A 2-D array is a [matrix]: its rows together with the column count
      (the shape survives when there are no rows).  Arrays handed to the
      optimisers are assumed shape-compatible, as numpy would otherwise
      reject them; the shape checks of [np.dot] and of broadcasting are
      not modelled, index checks are.  Neither are the limits of the
      machine numbers: [randint] refuses a bound beyond 64 bits, and
      [int(k * (1. + gamma))] fails on a product that is a nan or
      infinite.  Statements that say that a call returns, or raises one
      exception and no other, name these conditions as hypotheses.
    - Exceptions are values of [exn]; an uncaught exception ends the run.
    - The process-wide state is a [world]: numpy's global generator and
      the lines printed so far.  Wall-clock readings ([time.time()]) are
      left out, so the optimisers return [(loss_list, x_err, num_epochs)]. *)

From Stdlib Require Import String DecimalString.
From Stdlib Require Import ZArith List ListSet Permutation Bool Lia FinFun.
Import ListNotations.
Open Scope Z_scope.

(** ** Exceptions and the two monads *)

Inductive exn : Type :=
| ZeroDivisionError
| ValueError
| IndexError.

Inductive result (A : Type) : Type :=
| Ok (a : A)
| Raise (e : exn).
Arguments Ok {A} a.
Arguments Raise {A} e.

Definition rbind {A B} (c : result A) (k : A -> result B) : result B :=
  match c with
  | Ok a => k a
  | Raise e => Raise e
  end.

(** The global generator is a stream of raw draws per seeding, read at a
    cursor.  [np.random.seed()] with no argument takes fresh operating
    system entropy: it moves to the next stream. *)
Record world (R : Type) : Type := mkWorld {
  entropy : nat -> nat -> Z;
  reseeds : nat;
  rng_pos : nat;
  stdout : list (Z * R * R * R)
}.
Arguments mkWorld {R}.
Arguments entropy {R}.
Arguments reseeds {R}.
Arguments rng_pos {R}.
Arguments stdout {R}.

Definition M (R A : Type) : Type := world R -> result (A * world R).

Definition ret {R A} (a : A) : M R A := fun w => Ok (a, w).

Definition bind {R A B} (c : M R A) (k : A -> M R B) : M R B :=
  fun w =>
    match c w with
    | Ok (a, w') => k a w'
    | Raise e => Raise e
    end.

Definition lift {R A} (c : result A) : M R A :=
  fun w =>
    match c with
    | Ok a => Ok (a, w)
    | Raise e => Raise e
    end.

Declare Scope py_scope.
Delimit Scope py_scope with py.
Notation "x <- c ;; k" := (bind c (fun x => k))
  (at level 100, c at next level, right associativity) : py_scope.
Notation "' p <- c ;; k" := (bind c (fun x => let 'p := x in k))
  (at level 100, p pattern, c at next level, right associativity) : py_scope.
Notation "x <-? c ;; k" := (rbind c (fun x => k))
  (at level 100, c at next level, right associativity) : py_scope.
Open Scope py_scope.

(** ** Python and numpy primitives *)

(** [a / b] on Python 2 ints. *)
Definition py_div (a b : Z) : result Z :=
  if b =? 0 then Raise ZeroDivisionError else Ok (a / b).

(** [range(lo, hi)], a list in Python 2. *)
Definition range (lo hi : Z) : list Z :=
  map (fun i => lo + Z.of_nat i) (seq 0 (Z.to_nat (hi - lo))).

(** numpy's index rule on an axis of length [len]: negative indices count
    from the end, anything outside [-len, len) raises. *)
Definition norm_index (len : nat) (i : Z) : result nat :=
  if (0 <=? i) && (i <? Z.of_nat len) then Ok (Z.to_nat i)
  else if (- Z.of_nat len <=? i) && (i <? 0) then Ok (Z.to_nat (i + Z.of_nat len))
  else Raise IndexError.

Fixpoint mapM {A B} (f : A -> result B) (l : list A) : result (list B) :=
  match l with
  | [] => Ok []
  | a :: l' =>
      b <-? f a ;;
      bs <-? mapM f l' ;;
      Ok (b :: bs)
  end.

(** [v[idx]] with a list of integer indices (fancy indexing, a copy). *)
Definition take {A} (d : A) (v : list A) (idx : list Z) : result (list A) :=
  js <-? mapM (norm_index (length v)) idx ;;
  Ok (map (fun j => nth j v d) js).

(** [v[i] = a] on a list; out of range leaves the list as it is (the
    callers check the index first). *)
Fixpoint set_nth {A} (i : nat) (a : A) (v : list A) {struct v} : list A :=
  match v with
  | [] => []
  | b :: v' =>
      match i with
      | O => a :: v'
      | S i' => b :: set_nth i' a v'
      end
  end.

(** The raw draw under the cursor, and the generator one draw later. *)
Definition raw_draw {R} (w : world R) : Z := entropy w (reseeds w) (rng_pos w).

Definition advance {R} (w : world R) : world R :=
  mkWorld (entropy w) (reseeds w) (S (rng_pos w)) (stdout w).

(** [np.random.randint(low, high)]: uniform on [low, high), [ValueError]
    when the interval is empty.  The raw draw is reduced into the interval
    and the cursor advances. *)
Definition randint {R} (low high : Z) : M R Z :=
  fun w =>
    if high <=? low then Raise ValueError
    else Ok (low + raw_draw w mod (high - low), advance w).

(** [np.random.seed()]. *)
Definition np_random_seed {R} : M R unit :=
  fun w => Ok (tt, mkWorld (entropy w) (S (reseeds w)) O (stdout w)).

(** [print(fmt % (epoch, residual_norm, x_hat_norm, x_err))]. *)
Definition print {R} (line : Z * R * R * R) : M R unit :=
  fun w => Ok (tt, mkWorld (entropy w) (reseeds w) (rng_pos w) (stdout w ++ [line])).

(** [for _ in range(k): s = body(s)]. *)
Fixpoint for_range {R S} (k : nat) (body : S -> M R S) (s : S) : M R S :=
  match k with
  | O => ret s
  | S k' => s' <- body s ;; for_range k' body s'
  end.

(** [for i in items: ...] whose body may [break]. *)
Inductive flow : Type := Next | Break.

Fixpoint for_each {R S} (items : list Z) (body : Z -> S -> M R (flow * S)) (s : S)
  : M R S :=
  match items with
  | [] => ret s
  | i :: rest =>
      fs <- body i s ;;
      match fst fs with
      | Break => ret (snd fs)
      | Next => for_each rest body (snd fs)
      end
  end.

(** ** Scalars and arrays *)

Class Scalar (R : Type) : Type := {
  zero : R;
  add : R -> R -> R;
  sub : R -> R -> R;
  mul : R -> R -> R;
  (** the literal [-2.] *)
  neg_two : R;
  (** the literal [1e5] *)
  c1e5 : R;
  (** [a <= b]; [a >= b] is read as [leb b a] *)
  leb : R -> R -> bool;
  (** [np.linalg.norm] of a 1-D array *)
  norm : list R -> R;
  (** [int(k * (1. + gamma))] *)
  int_scaled : Z -> R -> Z
}.

Record matrix (R : Type) : Type := mkMatrix {
  ncols : nat;
  rows : list (list R)
}.
Arguments mkMatrix {R}.
Arguments ncols {R}.
Arguments rows {R}.

Section Arrays.
Context {R : Type} {SC : Scalar R}.

Local Abbreviation vec := (list R).

Definition nrows (m : matrix R) : nat := length (rows m).

(** Elementwise [a + b], [a - b], [a * b], and [c * a] for a scalar [c]. *)
Definition vadd (a b : vec) : vec := map (fun ab => add (fst ab) (snd ab)) (combine a b).
Definition vsub (a b : vec) : vec := map (fun ab => sub (fst ab) (snd ab)) (combine a b).
Definition vmul (a b : vec) : vec := map (fun ab => mul (fst ab) (snd ab)) (combine a b).
Definition scal (c : R) (a : vec) : vec := map (mul c) a.

(** [np.zeros_like(x)]. *)
Definition zeros_like (x : vec) : vec := map (fun _ => zero) x.

(** [np.transpose(m)]. *)
Definition transpose (m : matrix R) : matrix R :=
  mkMatrix (nrows m)
    (map (fun j => map (fun r => nth j r zero) (rows m)) (seq 0 (ncols m))).

(** [m[idx]]: the rows picked by [idx]. *)
Definition take_rows (m : matrix R) (idx : list Z) : result (matrix R) :=
  js <-? mapM (norm_index (nrows m)) idx ;;
  Ok (mkMatrix (ncols m) (map (fun j => nth j (rows m) []) js)).

(** [m[:, idx]]: the columns picked by [idx]. *)
Definition take_cols (m : matrix R) (idx : list Z) : result (matrix R) :=
  js <-? mapM (norm_index (ncols m)) idx ;;
  Ok (mkMatrix (length js) (map (fun r => map (fun j => nth j r zero) js) (rows m))).

(** [np.dot] on two 1-D arrays, on a matrix and a 1-D array, and on two
    matrices. *)
Definition dot_vv (a b : vec) : R :=
  fold_left (fun acc ab => add acc (mul (fst ab) (snd ab))) (combine a b) zero.

Definition dot_mv (m : matrix R) (v : vec) : vec :=
  map (fun r => dot_vv r v) (rows m).

Definition dot_mm (a b : matrix R) : matrix R :=
  mkMatrix (ncols b)
    (map (fun r => map (fun c => dot_vv r c) (rows (transpose b))) (rows a)).
End Arrays.

(** ** The external projection oracle

    [sparse_module.wrap_head_tail_bisearch] is a compiled extension that
    is not part of the source file.  It is taken as a parameter; its value
    here stands for component [0] of the tuple it returns, the array of
    selected vertex indices, which is all the wrapper reads. *)
Class ProjectionOracle (R : Type) : Type := {
  wrap_head_tail_bisearch :
    list (Z * Z) -> list R -> list R -> Z -> Z -> Z -> Z -> Z -> Z -> list nat
}.

(** ** The program *)

Section Program.
Context {R : Type} {SC : Scalar R} {PO : ProjectionOracle R}.
Local Abbreviation vec := (list R).

(** [proj_w[nodes] = vals]: one assignment per selected index, in order. *)
Definition assign (proj_w : vec) (nodes : list nat) (vals : vec) : vec :=
  fold_left (fun w iv => set_nth (fst iv) (snd iv) w) (combine nodes vals) proj_w.

(** The upper sparsity bound handed to the oracle (lines 50-51). *)
Definition clamp_s_high (prizes : vec) (s_high : Z) : Z :=
  if Z.of_nat (length prizes) - 1 <=? s_high
  then Z.of_nat (length prizes) - 1
  else s_high.

(** [algo_head_tail_bisearch] (lines 33-56). *)
Definition algo_head_tail_bisearch (edges : list (Z * Z)) (x costs : vec)
    (g root s_low s_high max_num_iter verbose : Z) : result (list nat * vec) :=
  let prizes := vmul x x in
  let s_high := clamp_s_high prizes s_high in
  let re_nodes :=
    wrap_head_tail_bisearch edges prizes costs g root s_low s_high max_num_iter verbose in
  let proj_w := zeros_like x in
  vals <-? take zero x (map Z.of_nat re_nodes) ;;
  let proj_w := assign proj_w re_nodes vals in
  Ok (re_nodes, proj_w).

(** [calc_num_observations] (lines 404-412). *)
Definition calc_num_observations (B b t K : Z) : result Z :=
  q <-? py_div B K ;;
  Ok (q + b * t).

(** [calc_grad] (lines 415-426). *)
Definition calc_grad (x_mat : matrix R) (y_tr x_hat : vec) (block : list Z)
  : result vec :=
  let x_tr_t := transpose x_mat in
  cols <-? take_cols x_tr_t block ;;
  sel <-? take_rows x_mat block ;;
  let xtx := dot_mm cols sel in
  cols' <-? take_cols x_tr_t block ;;
  y_sel <-? take zero y_tr block ;;
  let xty := dot_mv cols' y_sel in
  Ok (scal neg_two (vsub xty (dot_mv xtx x_hat))).

(** [get_batch] (lines 429-437). *)
Definition get_batch (batch_size n : Z) : M R (list Z) :=
  num_batches <- lift (py_div n batch_size) ;;
  batch_idx <- randint 0 num_batches ;;
  ret (range (batch_size * batch_idx) (batch_size * (batch_idx + 1))).

(** The variables the optimiser loops update. *)
Record loop_state : Type := mkState {
  x_hat : vec;
  num_epochs : Z;
  num_iter : Z;
  loss_list : list (Z * R)
}.

(** The parameters shared by the three optimisers:
    [(x_mat, y_tr, max_epochs, lr, x_star, x0, tol_algo, edges, costs, s,
      g, root, gamma, proj_max_num_iter, verbose)]; [B] and [b] are passed
    separately. *)
Record params : Type := mkParams {
  x_mat : matrix R;
  y_tr : vec;
  max_epochs : Z;
  lr : R;
  x_star : vec;
  x0 : vec;
  tol_algo : R;
  edges : list (Z * Z);
  costs : vec;
  s : Z;
  g : Z;
  root : Z;
  gamma : R;
  proj_max_num_iter : Z;
  verbose : Z
}.

Section Optimisers.
Variable P : params.

(** The graph projection parameters (lines 196-199, 270-273, 351-354). *)
Definition h_low : Z := Z.of_nat (length (x0 P)) / 2.
Definition h_high : Z := int_scaled h_low (gamma P).
Definition t_low : Z := s P.
Definition t_high : Z := int_scaled (s P) (gamma P).

(** [(n, p) = x_mat.shape]; [p] is not used afterwards. *)
Definition n_samples : Z := Z.of_nat (nrows (x_mat P)).

Definition init_state : loop_state := mkState (x0 P) 0 0 [].

Definition residual_norm_of (x : vec) : R :=
  norm (vsub (y_tr P) (dot_mv (x_mat P) x)).

(** *** Sto-IHT (lines 169-239) *)

(** One inner iteration (lines 214-224). *)
Definition sto_iht_inner (B n : Z) (st : loop_state) : M R loop_state :=
  let num_iter := num_iter st + 1 in
  block <- get_batch B n ;;
  gradient <- lift (calc_grad (x_mat P) (y_tr P) (x_hat st) block) ;;
  hp <- lift (algo_head_tail_bisearch (edges P) gradient (costs P) (g P) (root P)
                h_low h_high (proj_max_num_iter P) (verbose P)) ;;
  let proj_grad := snd hp in
  let bt := vsub (x_hat st) (scal (lr P) proj_grad) in
  tp <- lift (algo_head_tail_bisearch (edges P) bt (costs P) (g P) (root P)
                t_low t_high (proj_max_num_iter P) (verbose P)) ;;
  let proj_bt := snd tp in
  ret (mkState proj_bt (num_epochs st) num_iter (loss_list st)).

(** The inner loop of one epoch (lines 212-224). *)
Definition sto_iht_work (B n num_blocks : Z) (st : loop_state) : M R loop_state :=
  let st := mkState (x_hat st) (num_epochs st + 1) (num_iter st) (loss_list st) in
  for_range (Z.to_nat num_blocks) (sto_iht_inner B n) st.

(** The end of an epoch (lines 225-236). *)
Definition sto_iht_end (B num_blocks epoch_i : Z) (st : loop_state)
  : M R (flow * loop_state) :=
  let residual_norm := residual_norm_of (x_hat st) in
  let x_err := norm (vsub (x_hat st) (x_star P)) in
  let x_hat_norm := norm (x_hat st) in
  if leb c1e5 (norm (x_hat st)) then ret (Break, st)
  else if leb residual_norm (tol_algo P) then ret (Break, st)
  else
    num_obs <- lift (calc_num_observations 0 B (num_iter st) num_blocks) ;;
    let st := mkState (x_hat st) (num_epochs st) (num_iter st)
                (loss_list st ++ [(num_obs, residual_norm)]) in
    _ <- print (epoch_i + 1, residual_norm, x_hat_norm, x_err) ;;
    ret (Next, st).

Definition sto_iht_epoch (B n num_blocks epoch_i : Z) (st : loop_state)
  : M R (flow * loop_state) :=
  st <- sto_iht_work B n num_blocks st ;;
  sto_iht_end B num_blocks epoch_i st.

(** Lines 193-236: the state when the epoch loop is left. *)
Definition sto_iht_loop (B b : Z) : M R loop_state :=
  let n := n_samples in
  let B := if n <? B then n else B in
  num_blocks <- lift (py_div n B) ;;
  for_each (range 0 (max_epochs P)) (sto_iht_epoch B n num_blocks) init_state.

(** What every optimiser returns (lines 237-239 and their siblings). *)
Definition finish (st : loop_state) : list (Z * R) * R * Z :=
  (loss_list st, norm (vsub (x_hat st) (x_star P)), num_epochs st).

Definition algo_graph_sto_iht (B b : Z) : M R (list (Z * R) * R * Z) :=
  _ <- np_random_seed ;;
  st <- sto_iht_loop B b ;;
  ret (finish st).

(** *** SVRG-IHT (lines 242-320) *)

(** One inner iteration (lines 290-305); the pair carries [x_nil]. *)
Definition svrg_iht_inner (b n epoch_i : Z) (outer_grad : vec)
    (sx : loop_state * vec) : M R (loop_state * vec) :=
  let st := fst sx in
  let x_nil := snd sx in
  let num_iter := num_iter st + 1 in
  block <- get_batch b n ;;
  inner_grad_1 <- lift (calc_grad (x_mat P) (y_tr P) x_nil block) ;;
  gradient <-
    (if epoch_i <? 1 then ret inner_grad_1
     else
       inner_grad_2 <- lift (calc_grad (x_mat P) (y_tr P) (x_hat st) block) ;;
       ret (vadd (vsub inner_grad_1 inner_grad_2) outer_grad)) ;;
  hp <- lift (algo_head_tail_bisearch (edges P) gradient (costs P) (g P) (root P)
                h_low h_high (proj_max_num_iter P) (verbose P)) ;;
  let proj_grad := snd hp in
  let bt := vsub x_nil (scal (lr P) proj_grad) in
  tp <- lift (algo_head_tail_bisearch (edges P) bt (costs P) (g P) (root P)
                t_low t_high (proj_max_num_iter P) (verbose P)) ;;
  let proj_bt := snd tp in
  ret (mkState (x_hat st) (num_epochs st) num_iter (loss_list st), proj_bt).

(** Lines 286-306. *)
Definition svrg_iht_work (b n num_batches epoch_i : Z) (st : loop_state)
  : M R loop_state :=
  let st := mkState (x_hat st) (num_epochs st + 1) (num_iter st) (loss_list st) in
  outer_grad <- lift (calc_grad (x_mat P) (y_tr P) (x_hat st) (range 0 n)) ;;
  let x_nil := x_hat st in
  sx <- for_range (Z.to_nat num_batches) (svrg_iht_inner b n epoch_i outer_grad)
          (st, x_nil) ;;
  ret (mkState (snd sx) (num_epochs (fst sx)) (num_iter (fst sx)) (loss_list (fst sx))).

(** Lines 307-317. *)
Definition svrg_iht_end (b n num_batches epoch_i : Z) (st : loop_state)
  : M R (flow * loop_state) :=
  let x_hat_norm := norm (x_hat st) in
  let residual_norm := residual_norm_of (x_hat st) in
  let x_err := norm (vsub (x_hat st) (x_star P)) in
  _ <- print (epoch_i + 1, residual_norm, x_hat_norm, x_err) ;;
  if leb c1e5 x_hat_norm then ret (Break, st)
  else if leb residual_norm (tol_algo P) then ret (Break, st)
  else
    num_obs <- lift (calc_num_observations n b (num_iter st) num_batches) ;;
    ret (Next, mkState (x_hat st) (num_epochs st) (num_iter st)
                 (loss_list st ++ [(num_obs, residual_norm)])).

Definition svrg_iht_epoch (b n num_batches epoch_i : Z) (st : loop_state)
  : M R (flow * loop_state) :=
  st <- svrg_iht_work b n num_batches epoch_i st ;;
  svrg_iht_end b n num_batches epoch_i st.

(** Lines 267-317. *)
Definition svrg_iht_loop (B b : Z) : M R loop_state :=
  let n := n_samples in
  let b := 1 in
  num_batches <- lift (py_div n b) ;;
  for_each (range 0 (max_epochs P)) (svrg_iht_epoch b n num_batches) init_state.

Definition algo_graph_svrg_iht (B b : Z) : M R (list (Z * R) * R * Z) :=
  _ <- np_random_seed ;;
  st <- svrg_iht_loop B b ;;
  ret (finish st).

(** *** SCSG-IHT (lines 323-401) *)

(** One inner iteration (lines 371-386). *)
Definition scsg_iht_inner (b n epoch_i : Z) (outer_grad : vec)
    (sx : loop_state * vec) : M R (loop_state * vec) :=
  let st := fst sx in
  let x_nil := snd sx in
  let num_iter := num_iter st + 1 in
  mini_block <- get_batch b n ;;
  inner_grad_1 <- lift (calc_grad (x_mat P) (y_tr P) x_nil mini_block) ;;
  gradient <-
    (if epoch_i <? 1 then ret inner_grad_1
     else
       inner_grad_2 <- lift (calc_grad (x_mat P) (y_tr P) (x_hat st) mini_block) ;;
       ret (vadd (vsub inner_grad_1 inner_grad_2) outer_grad)) ;;
  hp <- lift (algo_head_tail_bisearch (edges P) gradient (costs P) (g P) (root P)
                h_low h_high (proj_max_num_iter P) (verbose P)) ;;
  let proj_grad := snd hp in
  let bt := vsub x_nil (scal (lr P) proj_grad) in
  tp <- lift (algo_head_tail_bisearch (edges P) bt (costs P) (g P) (root P)
                t_low t_high (proj_max_num_iter P) (verbose P)) ;;
  let proj_bt := snd tp in
  ret (mkState (x_hat st) (num_epochs st) num_iter (loss_list st), proj_bt).

(** Lines 366-387. *)
Definition scsg_iht_work (B b n epoch_i : Z) (st : loop_state) : M R loop_state :=
  let st := mkState (x_hat st) (num_epochs st + 1) (num_iter st) (loss_list st) in
  block <- get_batch B n ;;
  outer_grad <- lift (calc_grad (x_mat P) (y_tr P) (x_hat st) block) ;;
  let x_nil := x_hat st in
  inner_count <- lift (py_div B b) ;;
  sx <- for_range (Z.to_nat inner_count) (scsg_iht_inner b n epoch_i outer_grad)
          (st, x_nil) ;;
  ret (mkState (snd sx) (num_epochs (fst sx)) (num_iter (fst sx)) (loss_list (fst sx))).

(** Lines 388-398. *)
Definition scsg_iht_end (B b epoch_i : Z) (st : loop_state)
  : M R (flow * loop_state) :=
  let x_hat_norm := norm (x_hat st) in
  let residual_norm := residual_norm_of (x_hat st) in
  let x_err := norm (vsub (x_hat st) (x_star P)) in
  _ <- print (epoch_i + 1, residual_norm, x_hat_norm, x_err) ;;
  if leb c1e5 x_hat_norm then ret (Break, st)
  else if leb residual_norm (tol_algo P) then ret (Break, st)
  else
    inner_count <- lift (py_div B b) ;;
    num_obs <- lift (calc_num_observations B b (num_iter st) inner_count) ;;
    ret (Next, mkState (x_hat st) (num_epochs st) (num_iter st)
                 (loss_list st ++ [(num_obs, residual_norm)])).

Definition scsg_iht_epoch (B b n epoch_i : Z) (st : loop_state)
  : M R (flow * loop_state) :=
  st <- scsg_iht_work B b n epoch_i st ;;
  scsg_iht_end B b epoch_i st.

(** Lines 348-398. *)
Definition scsg_iht_loop (B b : Z) : M R loop_state :=
  let n := n_samples in
  let B := if n <? B then n else B in
  for_each (range 0 (max_epochs P)) (scsg_iht_epoch B b n) init_state.

Definition algo_graph_scsg_iht (B b : Z) : M R (list (Z * R) * R * Z) :=
  _ <- np_random_seed ;;
  st <- scsg_iht_loop B b ;;
  ret (finish st).

End Optimisers.
End Program.
Arguments params : clear implicits.
Arguments loop_state : clear implicits.

(** ** The specification's reading of the components

    These definitions follow the words of the specification, not the code;
    the theorems below compare them with the program. *)

Section Specification.
Context {R : Type} {SC : Scalar R} {PO : ProjectionOracle R}.
Local Abbreviation vec := (list R).

(** Section 4.1: [-2 (X_B^T y_B - X_B^T X_B x_hat)], [X_B] and [y_B] being
    the rows of [X] and the entries of [y] selected by the block. *)
Definition gradient_spec (X : matrix R) (y x_hat : vec) (block : list Z)
  : result vec :=
  X_B <-? take_rows X block ;;
  y_B <-? take zero y block ;;
  Ok (scal neg_two
        (vsub (dot_mv (transpose X_B) y_B)
              (dot_mv (dot_mm (transpose X_B) X_B) x_hat))).

(** Section 4.2: the [i]-th of the contiguous blocks of size [k], and the
    blocks that partition [[0, n)]. *)
Definition block_of (k i : Z) : list Z := range (k * i) (k * (i + 1)).

Definition blocks_spec (k n : Z) : list (list Z) :=
  map (block_of k) (range 0 (n / k)).

(** Section 4.2: one block, its index drawn from [{0, ..., n/k - 1}]. *)
Definition draw_block_spec (k n : Z) : M R (list Z) :=
  i <- randint 0 (n / k) ;;
  ret (block_of k i).

(** Section 4.3: the input restricted to the support, zero elsewhere. *)
Definition restrict_spec (x : vec) (support : list nat) : vec :=
  map (fun i => if existsb (Nat.eqb i) support then nth i x zero else zero)
      (seq 0 (length x)).

(** Section 4.4: head-project the gradient, take a step of size [lr],
    tail-project the result. *)
Definition iht_update_spec (P : params R) (gradient x : vec) : result vec :=
  hp <-? algo_head_tail_bisearch (edges P) gradient (costs P) (g P) (root P)
           (h_low P) (h_high P) (proj_max_num_iter P) (verbose P) ;;
  tp <-? algo_head_tail_bisearch (edges P) (vsub x (scal (lr P) (snd hp)))
           (costs P) (g P) (root P)
           (t_low P) (t_high P) (proj_max_num_iter P) (verbose P) ;;
  Ok (snd tp).

Definition grad_at (P : params R) (x : vec) (block : list Z) : result vec :=
  gradient_spec (x_mat P) (y_tr P) x block.

(** Section 4.4, SVRG and SCSG: the raw gradient at [x_nil] on the first
    epoch, [grad(x_nil, block) - grad(x_hat, block) + outer_grad] later. *)
Definition vr_gradient_spec (P : params R) (epoch : nat) (x_nil x_hat outer_grad : vec)
    (block : list Z) : result vec :=
  g1 <-? grad_at P x_nil block ;;
  match epoch with
  | O => Ok g1
  | S _ =>
      g2 <-? grad_at P x_hat block ;;
      Ok (vadd (vsub g1 g2) outer_grad)
  end.

(** Sto-IHT: an epoch is [count] iterations, each on one block of size [B]
    at the current iterate. *)
Definition sto_step_spec (P : params R) (B : Z) (x : vec) : M R vec :=
  block <- draw_block_spec B (n_samples P) ;;
  gradient <- lift (grad_at P x block) ;;
  lift (iht_update_spec P gradient x).

Definition sto_epoch_spec (P : params R) (B : Z) (count : nat) (x : vec) : M R vec :=
  for_range count (sto_step_spec P B) x.

(** SVRG-IHT: the full-batch gradient at the snapshot, then one
    single-sample step per sample. *)
Definition svrg_step_spec (P : params R) (epoch : nat) (x_hat outer_grad x_nil : vec)
  : M R vec :=
  i <- randint 0 (n_samples P) ;;
  gradient <- lift (vr_gradient_spec P epoch x_nil x_hat outer_grad [i]) ;;
  lift (iht_update_spec P gradient x_nil).

Definition svrg_epoch_spec (P : params R) (epoch : nat) (x_hat : vec) : M R vec :=
  outer_grad <- lift (grad_at P x_hat (range 0 (n_samples P))) ;;
  for_range (Z.to_nat (n_samples P)) (svrg_step_spec P epoch x_hat outer_grad) x_hat.

(** SCSG-IHT: the outer gradient on one block of size [B], then [B / b]
    steps on mini-blocks of size [b]. *)
Definition scsg_step_spec (P : params R) (b : Z) (epoch : nat)
    (x_hat outer_grad x_nil : vec) : M R vec :=
  mini_block <- draw_block_spec b (n_samples P) ;;
  gradient <- lift (vr_gradient_spec P epoch x_nil x_hat outer_grad mini_block) ;;
  lift (iht_update_spec P gradient x_nil).

Definition scsg_epoch_spec (P : params R) (B b : Z) (epoch : nat) (x_hat : vec)
  : M R vec :=
  block <- draw_block_spec B (n_samples P) ;;
  outer_grad <- lift (grad_at P x_hat block) ;;
  for_range (Z.to_nat (B / b)) (scsg_step_spec P b epoch x_hat outer_grad) x_hat.

(** Section 4.4: the loop is left when the iterate norm reaches the
    blow-up threshold or the residual norm is within the tolerance. *)
Definition diverged (P : params R) (x : vec) : bool := leb c1e5 (norm x).
Definition converged (P : params R) (x : vec) : bool :=
  leb (residual_norm_of P x) (tol_algo P).
Definition terminal (P : params R) (x : vec) : bool := diverged P x || converged P x.

(** Section 4.4: [floor(B / K) + b t]. *)
Definition observations_spec (B b K t : Z) : Z := B / K + b * t.

(** The three optimisers, as the driver dispatches over them. *)
Inductive variant : Type := StoIHT | SvrgIHT | ScsgIHT.

Definition run_loop (v : variant) (P : params R) (B b : Z) : M R (loop_state R) :=
  match v with
  | StoIHT => sto_iht_loop P B b
  | SvrgIHT => svrg_iht_loop P B b
  | ScsgIHT => scsg_iht_loop P B b
  end.

Definition run (v : variant) (P : params R) (B b : Z) : M R (list (Z * R) * R * Z) :=
  match v with
  | StoIHT => algo_graph_sto_iht P B b
  | SvrgIHT => algo_graph_svrg_iht P B b
  | ScsgIHT => algo_graph_scsg_iht P B b
  end.

(** The loop variables after one more epoch of [iters] inner iterations
    that ended at the iterate [x']; the loss record is written later. *)
Definition after_epoch (st : loop_state R) (x' : list R) (iters : Z) : loop_state R :=
  mkState x' (num_epochs st + 1) (num_iter st + iters) (loss_list st).

(** The same run with another epoch budget. *)
Definition with_max_epochs (P : params R) (budget : Z) : params R :=
  mkParams (x_mat P) (y_tr P) budget (lr P) (x_star P) (x0 P) (tol_algo P)
    (edges P) (costs P) (s P) (g P) (root P) (gamma P) (proj_max_num_iter P)
    (verbose P).

(** The block size in use once a size above [n] has been reduced to [n]. *)
Definition block_size (P : params R) (B : Z) : Z := Z.min (n_samples P) B.

(** Section 4.4: the arguments [(B, b, K)] of the observation counter in
    each variant, [K] being the number of inner iterations per epoch. *)
Definition obs_B (v : variant) (P : params R) (B b : Z) : Z :=
  match v with
  | StoIHT => 0
  | SvrgIHT => n_samples P
  | ScsgIHT => block_size P B
  end.

Definition obs_b (v : variant) (P : params R) (B b : Z) : Z :=
  match v with
  | StoIHT => block_size P B
  | SvrgIHT => 1
  | ScsgIHT => b
  end.

Definition inner_K (v : variant) (P : params R) (B b : Z) : Z :=
  match v with
  | StoIHT => n_samples P / block_size P B
  | SvrgIHT => n_samples P
  | ScsgIHT => block_size P B / b
  end.

(** The epoch each variant repeats, with the values its loop fixes
    beforehand. *)
Definition loop_body (v : variant) (P : params R) (B b : Z)
  : Z -> loop_state R -> M R (flow * loop_state R) :=
  match v with
  | StoIHT =>
      sto_iht_epoch P (block_size P B) (n_samples P) (n_samples P / block_size P B)
  | SvrgIHT => svrg_iht_epoch P 1 (n_samples P) (n_samples P)
  | ScsgIHT => scsg_iht_epoch P (block_size P B) b (n_samples P)
  end.

(** [ceil(n / B)], for positive [B]. *)
Definition ceil_div (n B : Z) : Z := (n + B - 1) / B.

(** What one epoch does to the counters and the loss record: it counts
    one epoch and [K] inner iterations (none when [K] is negative), and
    either leaves the loop on a terminal iterate without recording, or
    records [(observations, residual)] on a non-terminal one. *)
Definition epoch_ok (P : params R) (K Bo bo : Z)
    (body : Z -> loop_state R -> M R (flow * loop_state R)) : Prop :=
  forall i st w f st' w',
    body i st w = Ok ((f, st'), w') ->
    num_epochs st' = num_epochs st + 1
    /\ num_iter st' = num_iter st + Z.of_nat (Z.to_nat K)
    /\ match f with
       | Break => terminal P (x_hat st') = true /\ loss_list st' = loss_list st
       | Next =>
           terminal P (x_hat st') = false
           /\ K <> 0
           /\ loss_list st' =
              loss_list st ++
                [(observations_spec Bo bo K (num_iter st'), residual_norm_of P (x_hat st'))]
       end.

End Specification.

(** ** What a run does to the process *)

(** Whether [int(k * (1. + gamma))] returns: Python raises [ValueError]
    when the product is a nan and [OverflowError] when it is infinite. *)
Class IntConversion (R : Type) : Type := { int_scaled_defined : Z -> R -> bool }.

Section Effects.
Context {R : Type} {SC : Scalar R} {PO : ProjectionOracle R} {IC : IntConversion R}.

(** The line an optimiser prints for the epoch with index [epoch_i] that
    ended at the iterate [x]. *)
Definition progress_line (P : params R) (epoch_i : Z) (x : list R) : Z * R * R * R :=
  (epoch_i + 1, residual_norm_of P x, norm x, norm (vsub x (x_star P))).

Definition line_epoch (line : Z * R * R * R) : Z := fst (fst (fst line)).

(** The calls of [np.random.randint] in one epoch of each variant: one
    per inner iteration, and one more for the block of SCSG-IHT. *)
Definition reads_per_epoch (v : variant) (P : params R) (B b : Z) : nat :=
  match v with
  | StoIHT => Z.to_nat (n_samples P / block_size P B)
  | SvrgIHT => Z.to_nat (n_samples P)
  | ScsgIHT => S (Z.to_nat (block_size P B / b))
  end.

(** Sto-IHT prints after its two tests, the other two variants before. *)
Definition silent_on_break (v : variant) : bool :=
  match v with
  | StoIHT => true
  | _ => false
  end.

(** The effect of one epoch on the process: [reads] draws, no reseeding,
    and one progress line, which is left out when the epoch leaves the
    loop and [silent] is set. *)
Definition epoch_effect (P : params R) (reads : nat) (silent : bool)
    (body : Z -> loop_state R -> M R (flow * loop_state R)) : Prop :=
  forall i st w f st' w',
    body i st w = Ok ((f, st'), w') ->
    entropy w' = entropy w
    /\ reseeds w' = reseeds w
    /\ rng_pos w' = (rng_pos w + reads)%nat
    /\ stdout w' =
       stdout w ++
         match f with
         | Break => if silent then [] else [progress_line P i (x_hat st')]
         | Next => [progress_line P i (x_hat st')]
         end.

(** The generator [k] draws later, nothing else touched. *)
Definition quiet (w w' : world R) (k : nat) : Prop :=
  entropy w' = entropy w /\ reseeds w' = reseeds w /\ stdout w' = stdout w
  /\ rng_pos w' = (rng_pos w + k)%nat.

(** The process right after [np.random.seed()]. *)
Definition reseeded (w : world R) : world R :=
  mkWorld (entropy w) (S (reseeds w)) O (stdout w).

(** The process after the first epoch ended at [x] and printed its line,
    having read the generator [reads] times. *)
Definition after_first_line (P : params R) (w : world R) (reads : nat) (x : list R)
  : world R :=
  mkWorld (entropy w) (reseeds w) (rng_pos w + reads) (stdout w ++ [progress_line P 0 x]).

(** The shapes numpy needs to agree: a design matrix of [n] rows of [p]
    entries, [n] measurements, and an initial point and a true signal of
    dimension [p]. *)
Definition well_shaped (P : params R) : Prop :=
  Forall (fun row => length row = ncols (x_mat P)) (rows (x_mat P))
  /\ length (y_tr P) = nrows (x_mat P)
  /\ length (x0 P) = ncols (x_mat P)
  /\ length (x_star P) = ncols (x_mat P).

(** The two conversions every optimiser makes before its loop,
    [h_high = int(h_low * (1. + gamma))] and
    [t_high = int(s * (1. + gamma))], return. *)
Definition bounds_defined (P : params R) : Prop :=
  int_scaled_defined (h_low P) (gamma P) = true
  /\ int_scaled_defined (s P) (gamma P) = true.

(** [x] is zero outside some [k] vertices. *)
Definition sparse (k : nat) (x : list R) : Prop :=
  exists supp : list nat,
    (length supp <= k)%nat
    /\ forall i, (i < length x)%nat -> ~ In i supp -> nth i x zero = zero.

(** The part of the oracle's contract the optimisers rely on for
    sparsity: no more than [s_high] vertices are selected. *)
Definition oracle_within_budget : Prop :=
  forall edges prizes costs g root s_low s_high max_num_iter verbose,
    (length (wrap_head_tail_bisearch edges prizes costs g root s_low s_high
               max_num_iter verbose)
     <= Z.to_nat s_high)%nat.

End Effects.

(** ** The graph generators

    [simu_grid_graph] (lines 59-94) builds the edge list and the edge
    costs the optimisers are run with, [random_walk] (lines 117-166) the
    support of the signal to recover.  Besides numpy's generator they
    touch Python's own [random] module and the console.

    Every call of [random.uniform], [random.choice] and [random.random]
    reads the module's generator once.  What the read at a cursor
    position gives is a field of the [host]: the value of
    [random.uniform(1., 2.0)], a number whose remainder modulo
    [len(seq)] is the index [random.choice(seq)] picks, and the value of
    [random.random()]. *)

Record host (R : Type) : Type := mkHost {
  np_world : world R;
  py_uniform : nat -> R;
  py_choice : nat -> nat;
  py_random : nat -> R;
  py_pos : nat;
  console : list String.string
}.
Arguments mkHost {R}.
Arguments np_world {R}.
Arguments py_uniform {R}.
Arguments py_choice {R}.
Arguments py_random {R}.
Arguments py_pos {R}.
Arguments console {R}.

(** [np.random.seed()], [k] reads of Python's generator, and [print(msg)]. *)
Definition np_reseed {R} (h : host R) : host R :=
  mkHost (reseeded (np_world h)) (py_uniform h) (py_choice h) (py_random h)
    (py_pos h) (console h).

Definition py_skip {R} (k : nat) (h : host R) : host R :=
  mkHost (np_world h) (py_uniform h) (py_choice h) (py_random h)
    (py_pos h + k) (console h).

Definition say {R} (msg : String.string) (h : host R) : host R :=
  mkHost (np_world h) (py_uniform h) (py_choice h) (py_random h)
    (py_pos h) (console h ++ [msg]).

(** The entries of [np.ones] and the literal [1.0]. *)
Class Ones (R : Type) : Type := { one : R }.

(** [a < b] on floats. *)
Class Less (R : Type) : Type := { less : R -> R -> bool }.

(** [for _ in range(k): s = body(s)] for a body without effects. *)
Fixpoint repeat_for {S} (k : nat) (body : S -> S) (s : S) : S :=
  match k with
  | O => s
  | S k' => repeat_for k' body (body s)
  end.

Section Grid.
Context {R : Type} {ON : Ones R}.

(** The body of the inner loop (lines 77-84) on [(edges, index)]. *)
Definition grid_cell (width height : Z) (st : list (Z * Z) * Z) : list (Z * Z) * Z :=
  let edges := fst st in
  let index := snd st in
  let edges :=
    if negb (index mod width =? width - 1) then
      let edges := edges ++ [(index, index + 1)] in
      if index + width <? width * height
      then edges ++ [(index, index + width)]
      else edges
    else
      if index + width <? width * height
      then edges ++ [(index, index + width)]
      else edges in
  (edges, index + 1).

(** [while len(weights) < len(edges): weights.append(random.uniform(1., 2.0))]
    (lines 89-90), by recursion on the number [k] of missing weights. *)
Fixpoint draw_weights (k : nat) (weights : list R) (h : host R) : list R * host R :=
  match k with
  | O => (weights, h)
  | S k' => draw_weights k' (weights ++ [py_uniform h (py_pos h)]) (py_skip 1 h)
  end.

(** [simu_grid_graph] (lines 59-94). *)
Definition simu_grid_graph (width height : Z) (rand_weight : bool) (h : host R)
  : (list (Z * Z) * list R) * host R :=
  let h := np_reseed h in
  if (width <? 0) && (height <? 0) then
    (([], []), say "Error: width and height should be positive." h)
  else
    let st :=
      repeat_for (Z.to_nat height)
        (repeat_for (Z.to_nat width) (grid_cell width height)) ([], 0) in
    let edges := fst st in
    if rand_weight then
      let wh := draw_weights (length edges) [] h in
      ((edges, fst wh), snd wh)
    else ((edges, repeat one (length edges)), h).

(** The edges that leave the vertex [index] towards its right and lower
    neighbours. *)
Definition cell_edges (width height index : Z) : list (Z * Z) :=
  (if negb (index mod width =? width - 1) then [(index, index + 1)] else [])
  ++ (if index + width <? width * height then [(index, index + width)] else []).

(** The numbers of edges that leave [index] to the right and downwards. *)
Definition right_count (width index : Z) : nat :=
  if negb (index mod width =? width - 1) then 1%nat else 0%nat.

Definition below_count (width height index : Z) : nat :=
  if index + width <? width * height then 1%nat else 0%nat.

End Grid.

(** *** The random walk (lines 117-166)

    A Python [set] is the list of its elements in the order of their
    first insertion, a [dict] the list of its items in the order in which
    the keys came in.  The order in which Python lists a set or the keys
    of a dict is fixed by the hash table the insertions built; it is a
    parameter of the model, known only to be a rearrangement. *)

Class HashOrder : Type := {
  (** [list(s)] for a set of ints, of pairs of ints, and [list(d.keys())] *)
  set_list : list Z -> list Z;
  pairs_list : list (Z * Z) -> list (Z * Z);
  keys_list : list Z -> list Z;
  set_list_perm : forall l, Permutation (set_list l) l;
  pairs_list_perm : forall l, Permutation (pairs_list l) l;
  keys_list_perm : forall l, Permutation (keys_list l) l
}.

(** What a call can end in: a value, [IndexError] or [KeyError], or no end
    within the iterations granted to the [while] loop. *)
Inductive walk_exn : Type :=
| WalkIndexError
| WalkKeyError.

Inductive outcome (A : Type) : Type :=
| Returns (a : A)
| Raises (e : walk_exn)
| OutOfFuel.
Arguments Returns {A} a.
Arguments Raises {A} e.
Arguments OutOfFuel {A}.

Definition pair_eq_dec (a b : Z * Z) : {a = b} + {a <> b}.
Proof. decide equality; apply Z.eq_dec. Defined.

(** [d[k]]. *)
Definition adj_get (adj : list (Z * list Z)) (k : Z) : option (list Z) :=
  option_map snd (find (fun kv => fst kv =? k) adj).

(** [if u not in adj: adj[u] = set()] and then [adj[u].add(v)]. *)
Fixpoint adj_add (adj : list (Z * list Z)) (u v : Z) : list (Z * list Z) :=
  match adj with
  | [] => [(u, [v])]
  | (k, nbrs) :: rest =>
      if k =? u then (k, set_add Z.eq_dec v nbrs) :: rest
      else (k, nbrs) :: adj_add rest u v
  end.

(** The body of the loop over the edges (lines 128-137) on [(adj, nodes)]. *)
Definition add_edge (st : list (Z * list Z) * list Z) (edge : Z * Z)
  : list (Z * list Z) * list Z :=
  let adj := fst st in
  let nodes := snd st in
  let uu := fst edge in
  let vv := snd edge in
  let nodes := set_add Z.eq_dec uu nodes in
  let nodes := set_add Z.eq_dec vv nodes in
  let adj := adj_add adj uu vv in
  let adj := adj_add adj vv uu in
  (adj, nodes).

Definition build_graph (edges : list (Z * Z)) : list (Z * list Z) * list Z :=
  fold_left add_edge edges ([], []).

(** ['... [0,%d]' % k]. *)
Definition decimal (k : nat) : String.string :=
  NilEmpty.string_of_uint (Nat.to_uint k).

(** [v] is reached from [a] along pairs of [E]. *)
Inductive walked (E : list (Z * Z)) (a : Z) : Z -> Prop :=
| walked_here : walked E a a
| walked_step u v : walked E a u -> In (u, v) E -> walked E a v.

(** [x] is an end of an edge. *)
Definition endpoint (edges : list (Z * Z)) (x : Z) : Prop :=
  exists e, In e edges /\ (x = fst e \/ x = snd e).

(** The distinct ends of the edges. *)
Definition vertices (edges : list (Z * Z)) : list Z :=
  nodup Z.eq_dec (flat_map (fun e => [fst e; snd e]) edges).

(** What [adj] and [nodes] hold once the edges [seen] are read: [nodes]
    is the set of their ends, the keys of [adj] are the same vertices, and
    [adj[u]] is the set of the neighbours of [u]. *)
Definition graph_of (seen : list (Z * Z)) (adj : list (Z * list Z)) (nodes : list Z)
  : Prop :=
  NoDup nodes
  /\ (forall x, In x nodes <-> endpoint seen x)
  /\ NoDup (map fst adj)
  /\ (forall x, In x (map fst adj) <-> In x nodes)
  /\ (forall u nbrs, adj_get adj u = Some nbrs ->
        NoDup nbrs /\ forall v, In v nbrs <-> In (u, v) seen \/ In (v, u) seen).

(** [ns] and [es] are a connected piece of the graph around [start]: the
    vertices are distinct vertices of the graph, each reached from
    [start] along [es]; [es] holds each of its pairs in both directions,
    joins vertices of [ns] only, and every pair is an edge of the graph
    in one direction or the other. *)
Definition walk_of (edges : list (Z * Z)) (start : Z) (ns : list Z)
    (es : list (Z * Z)) : Prop :=
  NoDup ns /\ NoDup es /\ In start ns
  /\ (forall x, In x ns -> endpoint edges x /\ walked es start x)
  /\ (forall u v, In (u, v) es ->
        In (v, u) es /\ In u ns /\ In v ns /\ (In (u, v) edges \/ In (v, u) edges)).

Section Walk.
Context {R : Type} {SC : Scalar R} {ON : Ones R} {LT : Less R} {HO : HashOrder}.

(** [random.choice(seq)]: [IndexError] on an empty sequence. *)
Definition py_choose {A} (seq : list A) (h : host R) : option (A * host R) :=
  match nth_error seq (py_choice h (py_pos h) mod length seq)%nat with
  | Some a => Some (a, py_skip 1 h)
  | None => None
  end.

(** The state of the walk: [(subgraph_nodes, subgraph_edges, next_node)]. *)
Definition walk_state : Type := (list Z * list (Z * Z)) * Z.

(** The body of the [while] loop (lines 157-165). *)
Definition walk_step (adj : list (Z * list Z)) (init_node : Z) (restart : R)
    (st : walk_state) (h : host R) : outcome (walk_state * host R) :=
  let subgraph_nodes := fst (fst st) in
  let subgraph_edges := snd (fst st) in
  let next_node := snd st in
  match adj_get adj next_node with
  | None => Raises WalkKeyError
  | Some nbrs =>
      let next_neighbors := set_list nbrs in
      match py_choose next_neighbors h with
      | None => Raises WalkIndexError
      | Some (rand_nei, h) =>
          let subgraph_nodes := set_add Z.eq_dec rand_nei subgraph_nodes in
          let subgraph_edges :=
            set_add pair_eq_dec (next_node, rand_nei) subgraph_edges in
          let subgraph_edges :=
            set_add pair_eq_dec (rand_nei, next_node) subgraph_edges in
          let next_node := rand_nei in
          let next_node :=
            if less (py_random h (py_pos h)) restart then init_node else next_node in
          Returns ((subgraph_nodes, subgraph_edges, next_node), py_skip 1 h)
      end
  end.

(** [while len(subgraph_nodes) < s: ...] with at most [fuel] iterations. *)
Fixpoint walk (fuel : nat) (adj : list (Z * list Z)) (init_node : Z) (restart : R)
    (s : Z) (st : walk_state) (h : host R) : outcome (walk_state * host R) :=
  if Z.of_nat (length (fst (fst st))) <? s then
    match fuel with
    | O => OutOfFuel
    | S fuel' =>
        match walk_step adj init_node restart st h with
        | Returns (st', h') => walk fuel' adj init_node restart s st' h'
        | Raises e => Raises e
        | OutOfFuel => OutOfFuel
        end
    end
  else Returns (st, h).

(** The start of the walk (lines 138-141): the given node, or else the
    key that [list(adj.keys())] holds at the position numbered by a
    randomly chosen node. *)
Definition start_node (adj : list (Z * list Z)) (nodes : list Z)
    (init_node : option Z) (h : host R) : outcome (Z * host R) :=
  match init_node with
  | Some i => Returns (i, h)
  | None =>
      match py_choose (set_list nodes) h with
      | None => Raises WalkIndexError
      | Some (rand_start_point, h) =>
          let keys := keys_list (map fst adj) in
          match norm_index (length keys) rand_start_point with
          | Ok j => Returns (nth j keys 0, h)
          | Raise _ => Raises WalkIndexError
          end
      end
  end.

(** [random_walk] (lines 117-166); the two results are given as lists
    also where the source returns sets. *)
Definition random_walk (fuel : nat) (edges : list (Z * Z)) (s : Z)
    (init_node : option Z) (restart : R) (h : host R)
  : outcome ((list Z * list (Z * Z)) * host R) :=
  let h := np_reseed h in
  let adj := fst (build_graph edges) in
  let nodes := snd (build_graph edges) in
  match start_node adj nodes init_node h with
  | Raises e => Raises e
  | OutOfFuel => OutOfFuel
  | Returns (init_node, h) =>
      if negb (set_mem Z.eq_dec init_node nodes) then
        Returns (([], []), say "Error: the initial_node is not in the graph!" h)
      else if negb (leb zero restart && less restart one) then
        Returns (([], []), say "Error: the restart probability not in (0.0,1.0)" h)
      else if negb ((0 <=? s) && (s <=? Z.of_nat (length nodes))) then
        Returns (([], []),
                 say (String.append "Error: the number of nodes not in [0,"
                        (String.append (decimal (length nodes)) "]")) h)
      else if s <=? 1 then Returns (([init_node], []), h)
      else
        match walk fuel adj init_node restart s ([init_node], [], init_node) h with
        | Returns (st, h) =>
            Returns ((set_list (fst (fst st)), pairs_list (snd (fst st))), h)
        | Raises e => Raises e
        | OutOfFuel => OutOfFuel
        end
  end.

End Walk.

(** ** Concrete inputs

    Exact integer arithmetic as scalars (floating-point operations on
    small integers are exact, so is the square root of a perfect square),
    and a stand-in for the oracle that keeps the first [s_high] vertices
    of non-zero prize. *)
#[export] Instance exact_scalar : Scalar Z := {|
  zero := 0;
  add := Z.add;
  sub := Z.sub;
  mul := Z.mul;
  neg_two := -2;
  c1e5 := 100000;
  leb := Z.leb;
  norm := fun v => Z.sqrt (fold_left Z.add (map (fun a => a * a) v) 0);
  int_scaled := fun k gamma => k * (1 + gamma)
|}.

#[export] Instance greedy_oracle : ProjectionOracle Z := {|
  wrap_head_tail_bisearch :=
    fun _ prizes _ _ _ _ s_high _ _ =>
      firstn (Z.to_nat s_high)
        (filter (fun i => negb (nth i prizes 0 =? 0)) (seq 0 (length prizes)))
|}.

Definition demo_world : world Z :=
  mkWorld (fun seed pos => Z.of_nat (seed + 2 * pos)) 0 0 [].

Definition demo_world_at (seed pos : nat) (out : list (Z * Z * Z * Z)) : world Z :=
  mkWorld (entropy demo_world) seed pos out.

(** Three measurements of a signal of dimension three, [y = X (2, 0, 0)],
    on the path graph [0 - 1 - 2]; learning rate [1], sparsity [1], no
    slack ([gamma = 0]), a budget of two epochs. *)
Definition demo_matrix : matrix Z :=
  mkMatrix 3 [[1; 0; 0]; [0; 1; 0]; [0; 0; 1]].

Definition demo_params : params Z :=
  mkParams demo_matrix [2; 0; 0] 2 1 [2; 0; 0] [0; 0; 0] 0 [(0, 1); (1, 2)] [1; 1]
    1 1 (-1) 0 50 0.

(** One measurement of a signal of dimension two whose initial point has
    norm exactly [1e5]; with a zero learning rate the iterate stays there. *)
Definition threshold_params : params Z :=
  mkParams (mkMatrix 2 [[1; 0]]) [0] 2 0 [0; 0] [100000; 0] 0 [(0, 1)] [1]
    1 1 (-1) 0 50 0.

(** ** Concrete inputs for the generators and the edge cases

    The literal [1.], [<] on the integers, and the hash order that lists
    a set in the order of insertion; a host whose [random.uniform]
    alternates between [1] and [2], whose [random.choice] reads the
    numbers [0, 0, 1, 1, 2, 2, ...], and whose [random.random()] is [0]. *)
#[export] Instance unit_one : Ones Z := {| one := 1 |}.

#[export] Instance exact_conversion : IntConversion Z := {|
  int_scaled_defined := fun _ _ => true
|}.

#[export] Instance less_Z : Less Z := {| less := Z.ltb |}.

#[export] Instance insertion_order : HashOrder := {|
  set_list := fun l => l;
  pairs_list := fun l => l;
  keys_list := fun l => l;
  set_list_perm := @Permutation_refl Z;
  pairs_list_perm := @Permutation_refl (Z * Z);
  keys_list_perm := @Permutation_refl Z
|}.

Definition demo_host : host Z :=
  mkHost demo_world (fun k => 1 + Z.of_nat (k mod 2)) (fun k => Nat.div k 2) (fun _ => 0) 0 [].

(** No measurement at all of a signal of dimension two. *)
Definition empty_params : params Z :=
  mkParams (mkMatrix 2 []) [] 1 1 [0; 0] [0; 0] 0 [(0, 1)] [1] 1 1 (-1) 0 50 0.

(** The path [0 - 1 - 2], and two separate edges [0 - 1] and [2 - 3]. *)
Definition path_edges : list (Z * Z) := [(0, 1); (1, 2)].

Definition split_edges : list (Z * Z) := [(0, 1); (2, 3)].

(** ** Properties *)

Section MonadFacts.
Context {R : Type}.

Lemma bind_ok {A B} (c : M R A) (k : A -> M R B) w a w' :
  c w = Ok (a, w') -> bind c k w = k a w'.
Proof. intros H. unfold bind. rewrite H. reflexivity. Qed.

Lemma bind_raise {A B} (c : M R A) (k : A -> M R B) w e :
  c w = Raise e -> bind c k w = Raise e.
Proof. intros H. unfold bind. rewrite H. reflexivity. Qed.

Lemma bind_inv {A B} (c : M R A) (k : A -> M R B) w b w2 :
  bind c k w = Ok (b, w2) ->
  exists a w1, c w = Ok (a, w1) /\ k a w1 = Ok (b, w2).
Proof.
  unfold bind. destruct (c w) as [[a w1]|e]; intros H; [|discriminate].
  exists a, w1. split; [reflexivity|exact H].
Qed.

Lemma lift_inv {A} (c : result A) (w : world R) a w' :
  lift c w = Ok (a, w') -> c = Ok a /\ w' = w.
Proof.
  unfold lift. destruct c; intros H; inversion H; subst. split; reflexivity.
Qed.

Lemma bind_ext {A B} (c : M R A) (k1 k2 : A -> M R B) w :
  (forall a w', c w = Ok (a, w') -> k1 a w' = k2 a w') ->
  bind c k1 w = bind c k2 w.
Proof.
  intros H. unfold bind. destruct (c w) as [[a w']|e]; [|reflexivity].
  apply H. reflexivity.
Qed.

Lemma bind_lift {A B} (c : result A) (k : A -> M R B) w :
  bind (lift c) k w = match c with Ok a => k a w | Raise e => Raise e end.
Proof. unfold bind, lift. destruct c; reflexivity. Qed.

Lemma for_range_plus {S} (body : S -> M R S) j k s w :
  for_range (j + k) body s w = bind (for_range j body s) (for_range k body) w.
Proof.
  revert s w. induction j as [|j IH]; intros s w; simpl.
  - reflexivity.
  - unfold bind in *. destruct (body s w) as [[s1 w1]|e]; [|reflexivity].
    apply IH.
Qed.

(** Two loops whose bodies agree on the items run alike. *)
Lemma for_each_ext {S} (body1 body2 : Z -> S -> M R (flow * S)) items :
  (forall i s w, In i items -> body1 i s w = body2 i s w) ->
  forall s w, for_each items body1 s w = for_each items body2 s w.
Proof.
  induction items as [|i rest IH]; intros H s w; simpl.
  - reflexivity.
  - unfold bind. rewrite (H i s w (or_introl eq_refl)).
    destruct (body2 i s w) as [[[f s1] w1]|e]; [|reflexivity].
    destruct f; simpl; [|reflexivity].
    apply IH. intros j s' w' Hj. apply H. right. exact Hj.
Qed.

(** A loop invariant for a [for] loop without [break]. *)
Lemma for_range_inv {S} (body : S -> M R S) (I : nat -> S -> world R -> Prop) :
  (forall j s w s' w', I j s w -> body s w = Ok (s', w') -> I (Datatypes.S j) s' w') ->
  forall k j s w s' w',
    I j s w -> for_range k body s w = Ok (s', w') -> I (j + k)%nat s' w'.
Proof.
  intros Hstep. induction k as [|k IH]; intros j s w s' w' HI Hrun; simpl in Hrun.
  - inversion Hrun; subst. rewrite Nat.add_0_r. exact HI.
  - apply bind_inv in Hrun. destruct Hrun as (s1 & w1 & Hb & Hrest).
    replace (j + Datatypes.S k)%nat with (Datatypes.S j + k)%nat by lia.
    eapply IH; [|exact Hrest]. eapply Hstep; eassumption.
Qed.
Lemma bind_assoc {A B C} (c : M R A) (k : A -> M R B) (k' : B -> M R C) w :
  bind (bind c k) k' w = bind c (fun a => bind (k a) k') w.
Proof. unfold bind. destruct (c w) as [[a w1]|e]; reflexivity. Qed.

Lemma bind_cong_l {A B} (c1 c2 : M R A) (k : A -> M R B) w :
  c1 w = c2 w -> bind c1 k w = bind c2 k w.
Proof. intros H. unfold bind. rewrite H. reflexivity. Qed.

(** A loop over a richer state that simulates a loop over a poorer one. *)
Lemma for_range_sim {S T} (f : S -> M R S) (h : T -> M R T) (psi : nat -> T -> S) :
  (forall j t w, f (psi j t) w = bind (h t) (fun t' => ret (psi (Datatypes.S j) t')) w) ->
  forall k j t w,
    for_range k f (psi j t) w =
    bind (for_range k h t) (fun t' => ret (psi (j + k)%nat t')) w.
Proof.
  intros Hstep. induction k as [|k IH]; intros j t w; simpl.
  - rewrite Nat.add_0_r. reflexivity.
  - unfold bind. rewrite Hstep. unfold bind, ret.
    destruct (h t w) as [[t1 w1]|e]; [|reflexivity].
    rewrite IH. unfold bind, ret.
    replace (j + Datatypes.S k)%nat with (Datatypes.S j + k)%nat by lia.
    reflexivity.
Qed.

Lemma for_range_ext {S} (f h : S -> M R S) k :
  (forall s w, f s w = h s w) -> forall s w, for_range k f s w = for_range k h s w.
Proof.
  intros H. induction k as [|k IH]; intros s w; simpl; [reflexivity|].
  rewrite (bind_cong_l _ _ _ w (H s w)). apply bind_ext. intros s1 w1 _. apply IH.
Qed.

End MonadFacts.

(** Inversion of a run that returned. *)
Ltac inv_run :=
  repeat match goal with
    | H : bind _ _ _ = Ok _ |- _ =>
        apply bind_inv in H; destruct H as (? & ? & ? & H)
    | H : lift _ _ = Ok _ |- _ => apply lift_inv in H; destruct H as [H ?]; subst
    | H : ret _ _ = Ok _ |- _ => unfold ret in H; inversion H; subst; clear H
    | H : print _ _ = Ok _ |- _ => unfold print in H; inversion H; subst; clear H
    end.

Section RangeFacts.

Lemma range_length lo hi : length (range lo hi) = Z.to_nat (hi - lo).
Proof. unfold range. rewrite length_map, length_seq. reflexivity. Qed.

Lemma range_In lo hi i : In i (range lo hi) <-> lo <= i < hi.
Proof.
  unfold range. rewrite in_map_iff. split.
  - intros (k & Hk & Hin). apply in_seq in Hin. lia.
  - intros H. exists (Z.to_nat (i - lo)). split; [lia|].
    apply in_seq. lia.
Qed.

Lemma range_single i : range i (i + 1) = [i].
Proof.
  unfold range. replace (i + 1 - i) with 1 by lia. simpl.
  f_equal. lia.
Qed.

Lemma map_seq_shift {A} (f h : nat -> A) len :
  forall a c, (forall i, f (a + i)%nat = h (c + i)%nat) ->
  map f (seq a len) = map h (seq c len).
Proof.
  induction len as [|len IH]; intros a c H; simpl.
  - reflexivity.
  - f_equal.
    + specialize (H 0%nat). rewrite !Nat.add_0_r in H. exact H.
    + apply IH. intros i. specialize (H (S i)).
      rewrite !Nat.add_succ_r in H. exact H.
Qed.

Lemma range_app lo mid hi :
  lo <= mid <= hi -> range lo hi = range lo mid ++ range mid hi.
Proof.
  intros H. unfold range.
  replace (Z.to_nat (hi - lo)) with (Z.to_nat (mid - lo) + Z.to_nat (hi - mid))%nat by lia.
  rewrite seq_app, map_app. f_equal.
  apply map_seq_shift. intros i. lia.
Qed.

Lemma py_div_ok a b : b <> 0 -> py_div a b = Ok (a / b).
Proof. intros H. unfold py_div. destruct (Z.eqb_spec b 0); [contradiction|reflexivity]. Qed.

Lemma norm_index_ok len i :
  0 <= i < Z.of_nat len -> norm_index len i = Ok (Z.to_nat i).
Proof.
  intros H. unfold norm_index.
  destruct (Z.leb_spec 0 i); [|lia]. destruct (Z.ltb_spec i (Z.of_nat len)); [|lia].
  reflexivity.
Qed.

Lemma norm_index_bound len i j : norm_index len i = Ok j -> (j < len)%nat.
Proof.
  unfold norm_index.
  destruct (Z.leb_spec 0 i); destruct (Z.ltb_spec i (Z.of_nat len)); simpl;
    try (intros E; inversion E; lia).
  all: destruct (Z.leb_spec (- Z.of_nat len) i); destruct (Z.ltb_spec i 0); simpl;
    intros E; inversion E; lia.
Qed.

Lemma mapM_ok {A B} (f : A -> result B) (h : A -> B) l :
  (forall a, In a l -> f a = Ok (h a)) -> mapM f l = Ok (map h l).
Proof.
  induction l as [|a l IH]; intros H; simpl.
  - reflexivity.
  - rewrite (H a (or_introl eq_refl)). simpl.
    rewrite IH; [reflexivity|]. intros a' Ha'. apply H. right. exact Ha'.
Qed.

Lemma nth_map_in {A B} (f : A -> B) l j d d' :
  (j < length l)%nat -> nth j (map f l) d = f (nth j l d').
Proof.
  revert j. induction l as [|a l IH]; intros j Hj; simpl in *; [lia|].
  destruct j; [reflexivity|]. apply IH. lia.
Qed.

Lemma mapM_length {A B} (f : A -> result B) l bs :
  mapM f l = Ok bs -> length bs = length l.
Proof.
  revert bs. induction l as [|a l IH]; intros bs; simpl.
  - intros H. inversion H. reflexivity.
  - destruct (f a) as [b|e]; simpl; [|discriminate].
    destruct (mapM f l) as [bs'|e]; simpl; [|discriminate].
    intros H. inversion H. simpl. f_equal. apply IH. reflexivity.
Qed.

Lemma mapM_Forall {A B} (f : A -> result B) (Q : B -> Prop) l bs :
  (forall a b, f a = Ok b -> Q b) -> mapM f l = Ok bs -> Forall Q bs.
Proof.
  intros HQ. revert bs. induction l as [|a l IH]; intros bs; simpl.
  - intros H. inversion H. constructor.
  - destruct (f a) as [b|e] eqn:Hfa; simpl; [|discriminate].
    destruct (mapM f l) as [bs'|e]; simpl; [|discriminate].
    intros H. inversion H. constructor; [eapply HQ; eassumption|apply IH; reflexivity].
Qed.
End RangeFacts.

(** *** The gradient evaluator *)

Section GradientFacts.
Context {R : Type} {SC : Scalar R}.
Local Abbreviation vec := (list R).

Lemma nth_map_column (c : nat) (l : list (list R)) j :
  nth j (map (fun r => nth c r zero) l) zero = nth c (nth j l []) zero.
Proof.
  revert j. induction l as [|r l IH]; intros j; simpl.
  - destruct j, c; reflexivity.
  - destruct j; [reflexivity|apply IH].
Qed.

(** Picking columns of the transpose is transposing the picked rows. *)
Lemma take_cols_transpose (X : matrix R) block :
  take_cols (transpose X) block =
  rbind (take_rows X block) (fun X_B => Ok (transpose X_B)).
Proof.
  unfold take_cols, take_rows. cbn [transpose ncols rows].
  destruct (mapM (norm_index (nrows X)) block) as [js|e]; simpl; [|reflexivity].
  unfold transpose, nrows. cbn [ncols rows]. rewrite length_map. f_equal. f_equal.
  rewrite map_map. apply map_ext. intros c.
  rewrite map_map. apply map_ext. intros j. apply nth_map_column.
Qed.

Lemma calc_grad_refines (X : matrix R) (y x : vec) block :
  calc_grad X y x block = gradient_spec X y x block.
Proof.
  unfold calc_grad, gradient_spec. rewrite take_cols_transpose.
  destruct (take_rows X block) as [X_B|e]; simpl; [|reflexivity].
  destruct (take zero y block) as [y_B|e]; reflexivity.
Qed.

(** Row and entry accesses in bounds: the evaluator returns. *)
Lemma take_in_bounds {A} (d : A) (v : list A) idx :
  Forall (fun i => 0 <= i < Z.of_nat (length v)) idx ->
  take d v idx = Ok (map (fun i => nth (Z.to_nat i) v d) idx).
Proof.
  intros H. unfold take.
  rewrite (mapM_ok _ Z.to_nat).
  - simpl. rewrite map_map. reflexivity.
  - intros i Hi. apply norm_index_ok. rewrite Forall_forall in H. apply H. exact Hi.
Qed.

Lemma take_rows_in_bounds (X : matrix R) idx :
  Forall (fun i => 0 <= i < Z.of_nat (nrows X)) idx ->
  take_rows X idx =
  Ok (mkMatrix (ncols X) (map (fun i => nth (Z.to_nat i) (rows X) []) idx)).
Proof.
  intros H. unfold take_rows.
  rewrite (mapM_ok _ Z.to_nat).
  - simpl. rewrite map_map. reflexivity.
  - intros i Hi. apply norm_index_ok. rewrite Forall_forall in H. apply H. exact Hi.
Qed.

Lemma calc_grad_in_bounds (X : matrix R) (y x : vec) block :
  length y = nrows X ->
  Forall (fun i => 0 <= i < Z.of_nat (nrows X)) block ->
  exists grad, calc_grad X y x block = Ok grad.
Proof.
  intros Hy Hb. rewrite calc_grad_refines. unfold gradient_spec.
  rewrite take_rows_in_bounds by exact Hb. simpl.
  rewrite take_in_bounds by (rewrite Hy; exact Hb). simpl.
  eexists. reflexivity.
Qed.

(** C4: [calc_grad] returns [-2 (X_B^T y_B - X_B^T X_B x_hat)] for the rows
    and entries selected by the block (and raises exactly when selecting
    them does, which it does not for a block within the rows: it then
    returns on every iterate with one entry per column); it is a
    function of its four arguments alone, and run inside the process it
    leaves the generator and the output as they were, so equal inputs
    give equal outputs. *)
Theorem calc_grad_block_gradient (X : matrix R) (y x : vec) (block : list Z) :
  calc_grad X y x block = gradient_spec X y x block
  /\ (forall (w : world R),
        lift (calc_grad X y x block) w =
        match gradient_spec X y x block with
        | Ok grad => Ok (grad, w)
        | Raise e => Raise e
        end)
  /\ (length x = ncols X -> length y = nrows X ->
      Forall (fun i => 0 <= i < Z.of_nat (nrows X)) block ->
      exists grad, calc_grad X y x block = Ok grad).
Proof.
  split; [|split].
  - apply calc_grad_refines.
  - intros w. unfold lift. rewrite calc_grad_refines. reflexivity.
  - intros _. apply calc_grad_in_bounds.
Qed.

End GradientFacts.

(** *** The projection-oracle wrapper *)

Section WrapperFacts.
Context {R : Type} {SC : Scalar R} {PO : ProjectionOracle R}.
Local Abbreviation vec := (list R).

Lemma vmul_square (x : vec) : vmul x x = map (fun v => mul v v) x.
Proof.
  unfold vmul. induction x as [|a x IH]; simpl; [reflexivity|].
  f_equal. exact IH.
Qed.

Lemma clamp_s_high_min (prizes : vec) s_high :
  clamp_s_high prizes s_high = Z.min s_high (Z.of_nat (length prizes) - 1).
Proof.
  unfold clamp_s_high.
  destruct (Z.leb_spec (Z.of_nat (length prizes) - 1) s_high); lia.
Qed.

Lemma set_nth_length {A} i (a : A) v : length (set_nth i a v) = length v.
Proof.
  revert i. induction v as [|b v IH]; intros i; simpl; [reflexivity|].
  destruct i; simpl; [reflexivity|]. f_equal. apply IH.
Qed.

Lemma nth_set_nth {A} i (a : A) v j d :
  (i < length v)%nat ->
  nth j (set_nth i a v) d = if Nat.eqb j i then a else nth j v d.
Proof.
  revert i j. induction v as [|b v IH]; intros i j Hi; simpl in *; [lia|].
  destruct i, j; simpl; try reflexivity.
  apply IH. lia.
Qed.

Lemma restrict_spec_length (x : vec) supp : length (restrict_spec x supp) = length x.
Proof. unfold restrict_spec. rewrite length_map, length_seq. reflexivity. Qed.

Lemma nth_restrict_spec (x : vec) supp j :
  (j < length x)%nat ->
  nth j (restrict_spec x supp) zero =
  if existsb (Nat.eqb j) supp then nth j x zero else zero.
Proof.
  intros Hj. unfold restrict_spec.
  rewrite (nth_map_in _ _ _ _ 0%nat) by (rewrite length_seq; exact Hj).
  rewrite seq_nth by exact Hj. reflexivity.
Qed.

Lemma zeros_like_restrict (x : vec) : zeros_like x = restrict_spec x [].
Proof.
  apply (nth_ext _ _ zero zero).
  - unfold zeros_like. rewrite length_map, restrict_spec_length. reflexivity.
  - intros j Hj. unfold zeros_like in *. rewrite length_map in Hj.
    rewrite nth_restrict_spec by exact Hj. simpl.
    rewrite (nth_map_in _ _ _ _ zero) by exact Hj. reflexivity.
Qed.

Lemma assign_step (x : vec) done i :
  (i < length x)%nat ->
  set_nth i (nth i x zero) (restrict_spec x done) = restrict_spec x (done ++ [i]).
Proof.
  intros Hi. apply (nth_ext _ _ zero zero).
  - rewrite set_nth_length, !restrict_spec_length. reflexivity.
  - intros j Hj. rewrite set_nth_length, restrict_spec_length in Hj.
    rewrite nth_set_nth by (rewrite restrict_spec_length; exact Hi).
    rewrite !nth_restrict_spec by exact Hj.
    rewrite existsb_app. simpl. rewrite orb_false_r.
    destruct (Nat.eqb_spec j i) as [->|Hne].
    + rewrite orb_true_r. reflexivity.
    + rewrite orb_false_r. reflexivity.
Qed.

Lemma assign_restrict (x : vec) nodes :
  forall done,
    Forall (fun i => (i < length x)%nat) nodes ->
    assign (restrict_spec x done) nodes (map (fun j => nth j x zero) nodes) =
    restrict_spec x (done ++ nodes).
Proof.
  unfold assign. induction nodes as [|i nodes IH]; intros done H; simpl.
  - rewrite app_nil_r. reflexivity.
  - inversion H; subst. rewrite assign_step by assumption.
    rewrite IH by assumption. rewrite <- app_assoc. reflexivity.
Qed.

Lemma norm_index_nat len (i : nat) :
  norm_index len (Z.of_nat i) = if (i <? len)%nat then Ok i else Raise IndexError.
Proof.
  unfold norm_index. destruct (Nat.ltb_spec i len).
  - destruct (Z.leb_spec 0 (Z.of_nat i)); [|lia].
    destruct (Z.ltb_spec (Z.of_nat i) (Z.of_nat len)); [|lia].
    simpl. rewrite Nat2Z.id. reflexivity.
  - destruct (Z.leb_spec 0 (Z.of_nat i)); [|lia].
    destruct (Z.ltb_spec (Z.of_nat i) (Z.of_nat len)); [lia|].
    destruct (Z.ltb_spec (Z.of_nat i) 0); [lia|].
    simpl. rewrite andb_false_r. reflexivity.
Qed.

Lemma mapM_nodes len (nodes : list nat) :
  mapM (norm_index len) (map Z.of_nat nodes) =
  if forallb (fun i => (i <? len)%nat) nodes then Ok nodes else Raise IndexError.
Proof.
  induction nodes as [|i nodes IH]; simpl; [reflexivity|].
  rewrite norm_index_nat. destruct (i <? len)%nat; simpl; [|reflexivity].
  rewrite IH. destruct (forallb _ nodes); reflexivity.
Qed.

(** The wrapper in closed form: the oracle is asked with the squared
    entries and the clamped bound; the result is the restriction of [x]
    to the support, or [IndexError] when a returned vertex is not an
    index of [x]. *)
Lemma algo_head_tail_bisearch_eq edges (x costs : vec) g root s_low s_high it vb :
  let supp :=
    wrap_head_tail_bisearch edges (map (fun v => mul v v) x) costs g root s_low
      (Z.min s_high (Z.of_nat (length x) - 1)) it vb in
  algo_head_tail_bisearch edges x costs g root s_low s_high it vb =
  if forallb (fun i => (i <? length x)%nat) supp
  then Ok (supp, restrict_spec x supp)
  else Raise IndexError.
Proof.
  intros supp. unfold algo_head_tail_bisearch.
  rewrite clamp_s_high_min, vmul_square, length_map. fold supp.
  unfold take. rewrite mapM_nodes.
  destruct (forallb (fun i => (i <? length x)%nat) supp) eqn:Hall; simpl; [|reflexivity].
  rewrite zeros_like_restrict, assign_restrict.
  - reflexivity.
  - apply Forall_forall. intros i Hi. rewrite forallb_forall in Hall.
    apply Nat.ltb_lt. apply Hall. exact Hi.
Qed.

Lemma restrict_full_support (x : vec) supp :
  (forall i, (i < length x)%nat -> In i supp \/ nth i x zero = zero) ->
  restrict_spec x supp = x.
Proof.
  intros H. apply (nth_ext _ _ zero zero).
  - apply restrict_spec_length.
  - intros j Hj. rewrite restrict_spec_length in Hj.
    rewrite nth_restrict_spec by exact Hj.
    destruct (existsb (Nat.eqb j) supp) eqn:E; [reflexivity|].
    destruct (H j Hj) as [Hin|Hz]; [|symmetry; exact Hz].
    assert (existsb (Nat.eqb j) supp = true) as E'.
    { apply existsb_exists. exists j. split; [exact Hin|apply Nat.eqb_refl]. }
    congruence.
Qed.

(** C3: the oracle receives the elementwise square of [x] as prizes and
    the upper bound [min(s_high, p - 1)]; whenever the wrapper returns,
    it returns the oracle's support and a vector of the length of [x] that
    equals [x] on the support and is zero elsewhere; it returns whenever
    the support consists of indices of [x]; and on a support that covers
    every non-zero entry of [x] the projected vector is [x] itself. *)
Theorem wrapper_projects_onto_support edges (x costs : vec) g root s_low s_high it vb :
  let p := Z.of_nat (length x) in
  let called_with :=
    wrap_head_tail_bisearch edges (map (fun v => mul v v) x) costs g root s_low
      (if p - 1 <=? s_high then p - 1 else s_high) it vb in
  (forall supp proj,
      algo_head_tail_bisearch edges x costs g root s_low s_high it vb = Ok (supp, proj) ->
      supp = called_with
      /\ length proj = length x
      /\ (forall i, (i < length x)%nat ->
            (In i supp -> nth i proj zero = nth i x zero)
            /\ (~ In i supp -> nth i proj zero = zero))
      /\ ((forall i, (i < length x)%nat -> In i supp \/ nth i x zero = zero) ->
          proj = x))
  /\ (Forall (fun i => (i < length x)%nat) called_with ->
      exists proj,
        algo_head_tail_bisearch edges x costs g root s_low s_high it vb
        = Ok (called_with, proj)).
Proof.
  intros p called_with.
  assert (called_with =
          wrap_head_tail_bisearch edges (map (fun v => mul v v) x) costs g root s_low
            (Z.min s_high (Z.of_nat (length x) - 1)) it vb) as Hcw.
  { unfold called_with, p.
    destruct (Z.leb_spec (Z.of_nat (length x) - 1) s_high);
      [rewrite Z.min_r by lia|rewrite Z.min_l by lia]; reflexivity. }
  pose proof (algo_head_tail_bisearch_eq edges x costs g root s_low s_high it vb) as E.
  cbv zeta in E. rewrite <- Hcw in E. split.
  - intros supp proj Hrun. rewrite E in Hrun.
    destruct (forallb _ called_with); [|discriminate].
    inversion Hrun; subst supp proj. split; [reflexivity|].
    split; [apply restrict_spec_length|]. split.
    + intros i Hi. rewrite nth_restrict_spec by exact Hi. split.
      * intros Hin.
        assert (existsb (Nat.eqb i) called_with = true) as ->; [|reflexivity].
        apply existsb_exists. exists i. split; [exact Hin|apply Nat.eqb_refl].
      * intros Hnin.
        destruct (existsb (Nat.eqb i) called_with) eqn:Ex; [|reflexivity].
        apply existsb_exists in Ex. destruct Ex as (j & Hj & Hij).
        apply Nat.eqb_eq in Hij. subst j. contradiction.
    + apply restrict_full_support.
  - intros Hall. rewrite E.
    assert (forallb (fun i => (i <? length x)%nat) called_with = true) as ->.
    { apply forallb_forall. intros i Hi. apply Nat.ltb_lt.
      rewrite Forall_forall in Hall. apply Hall. exact Hi. }
    eexists. reflexivity.
Qed.

End WrapperFacts.

(** *** The batch sampler *)

Section SamplerFacts.
Context {R : Type} {SC : Scalar R}.
Local Abbreviation vec := (list R).

Lemma randint_zero_eq high (w : world R) :
  randint 0 high w =
  if high <=? 0 then Raise ValueError else Ok (raw_draw w mod high, advance w).
Proof.
  unfold randint. destruct (high <=? 0); [reflexivity|].
  rewrite Z.sub_0_r, Z.add_0_l. reflexivity.
Qed.

Lemma get_batch_eq k n (w : world R) :
  k <> 0 ->
  get_batch k n w =
  if n / k <=? 0 then Raise ValueError
  else Ok (block_of k (raw_draw w mod (n / k)), advance w).
Proof.
  intros Hk. unfold get_batch. rewrite bind_lift, py_div_ok by exact Hk.
  unfold bind. rewrite randint_zero_eq.
  destruct (n / k <=? 0); reflexivity.
Qed.

Lemma get_batch_draw_block k n (w : world R) :
  k <> 0 -> get_batch k n w = draw_block_spec k n w.
Proof.
  intros Hk. rewrite get_batch_eq by exact Hk.
  unfold draw_block_spec, bind. rewrite randint_zero_eq.
  destruct (n / k <=? 0); reflexivity.
Qed.

Lemma block_of_bounds k i j :
  1 <= k -> In j (block_of k i) <-> k * i <= j < k * (i + 1).
Proof. intros _. unfold block_of. apply range_In. Qed.

Lemma block_of_length k i : 1 <= k -> length (block_of k i) = Z.to_nat k.
Proof.
  intros Hk. unfold block_of. rewrite range_length. f_equal. lia.
Qed.

Lemma block_of_inj k i j : 1 <= k -> block_of k i = block_of k j -> i = j.
Proof.
  intros Hk E.
  assert (In (k * i) (block_of k j)) as H1.
  { rewrite <- E. apply block_of_bounds; lia. }
  assert (In (k * j) (block_of k i)) as H2.
  { rewrite E. apply block_of_bounds; lia. }
  apply block_of_bounds in H1; [|exact Hk]. apply block_of_bounds in H2; [|exact Hk].
  nia.
Qed.

Lemma blocks_concat k (q : nat) :
  1 <= k ->
  concat (map (block_of k) (range 0 (Z.of_nat q))) = range 0 (k * Z.of_nat q).
Proof.
  intros Hk. induction q as [|q IH].
  - simpl. rewrite Z.mul_0_r. reflexivity.
  - rewrite (range_app 0 (Z.of_nat q) (Z.of_nat (S q))) by lia.
    replace (Z.of_nat (S q)) with (Z.of_nat q + 1) by lia.
    rewrite range_single, map_app, concat_app, IH. simpl. rewrite app_nil_r.
    rewrite (range_app 0 (k * Z.of_nat q) (k * (Z.of_nat q + 1))) by nia.
    reflexivity.
Qed.

Lemma blocks_spec_partition k n :
  1 <= k -> (k | n) -> concat (blocks_spec k n) = range 0 n.
Proof.
  intros Hk [q Hq]. unfold blocks_spec. subst n.
  rewrite Z.div_mul by lia.
  destruct (Z.le_gt_cases 0 q) as [Hq|Hq].
  - rewrite <- (Z2Nat.id q) by exact Hq. rewrite blocks_concat by exact Hk.
    f_equal. lia.
  - unfold range. replace (Z.to_nat (q - 0)) with 0%nat by lia.
    replace (Z.to_nat (q * k - 0)) with 0%nat by nia. reflexivity.
Qed.

Lemma range_NoDup lo hi : NoDup (range lo hi).
Proof.
  unfold range. apply Injective_map_NoDup; [|apply seq_NoDup].
  intros i j E. lia.
Qed.

Lemma mod_in_range r h : 0 < h -> 0 <= r mod h < h.
Proof. intros H. apply Z.mod_pos_bound. exact H. Qed.

(** C7: for a batch size [k >= 1] dividing [n], the [n/k] blocks
    [[k i, k (i+1))] are contiguous, disjoint and cover [[0, n)] (in
    order they list [0, ..., n-1], each index once); a call
    that returns gives one of them, its index being the value of
    [randint(0, n/k)], and changes nothing but the generator's cursor;
    each index is returned on exactly one residue class of the raw draw,
    so all indices are equally likely; and the call returns when there is
    at least one sample.  Where a return is stated, the number of blocks
    is one that numpy's 64-bit [randint] accepts. *)
Theorem get_batch_uniform_block (k n : Z) :
  1 <= k -> (k | n) ->
  concat (blocks_spec k n) = range 0 n
  /\ NoDup (concat (blocks_spec k n))
  /\ length (blocks_spec k n) = Z.to_nat (n / k)
  /\ (forall w : world R, get_batch k n w = draw_block_spec k n w)
  /\ (forall (w : world R) block w',
        get_batch k n w = Ok (block, w') ->
        exists i, 0 <= i < n / k
                  /\ block = block_of k i
                  /\ In block (blocks_spec k n)
                  /\ w' = advance w
                  /\ entropy w' = entropy w /\ reseeds w' = reseeds w
                  /\ stdout w' = stdout w)
  /\ (forall (w : world R) i,
        0 <= i < n / k -> n / k < 2 ^ 63 ->
        ((exists w', get_batch k n w = Ok (block_of k i, w'))
         <-> raw_draw w mod (n / k) = i))
  /\ (1 <= n -> n / k < 2 ^ 63 ->
      forall w : world R, exists block w', get_batch k n w = Ok (block, w')).
Proof.
  intros Hk Hdiv.
  assert (k <> 0) as Hk0 by lia.
  split; [apply blocks_spec_partition; assumption|].
  split; [rewrite blocks_spec_partition by assumption; apply range_NoDup|].
  split; [unfold blocks_spec; rewrite length_map, range_length; f_equal; lia|].
  split; [intros w; apply get_batch_draw_block; exact Hk0|].
  split; [|split].
  - intros w block w' Hrun. rewrite get_batch_eq in Hrun by exact Hk0.
    destruct (Z.leb_spec (n / k) 0) as [|Hpos]; [discriminate|].
    inversion Hrun; subst block w'.
    pose proof (mod_in_range (raw_draw w) (n / k) Hpos) as Hb.
    exists (raw_draw w mod (n / k)). split; [exact Hb|]. split; [reflexivity|].
    split; [|repeat split].
    unfold blocks_spec. apply in_map. apply range_In. lia.
  - intros w i Hi _. rewrite get_batch_eq by exact Hk0.
    destruct (Z.leb_spec (n / k) 0) as [|Hpos]; [lia|]. split.
    + intros [w' E]. inversion E as [[E1 E2]].
      apply (block_of_inj k); assumption.
    + intros E. exists (advance w). rewrite E. reflexivity.
  - intros Hn _ w. rewrite get_batch_eq by exact Hk0.
    destruct Hdiv as [q Hq]. subst n. rewrite Z.div_mul by lia.
    destruct (Z.leb_spec q 0) as [|Hpos]; [nia|].
    eexists. eexists. reflexivity.
Qed.

(** C10: for [1 <= batch_size <= n] (and a number of blocks that numpy's
    64-bit [randint] accepts) the call returns a block whose
    indices all lie below [batch_size * floor(n / batch_size) <= n] and
    are non-negative, so a trailing partial segment is never selected,
    and [calc_grad] on that block over [n] rows and [n] measurements, at
    an iterate with one entry per column, raises no [IndexError]: it
    returns. *)
Theorem get_batch_in_bounds (batch_size n : Z) (w : world R) :
  1 <= batch_size <= n -> n / batch_size < 2 ^ 63 ->
  exists block w',
    get_batch batch_size n w = Ok (block, w')
    /\ Forall (fun j => 0 <= j < batch_size * (n / batch_size)) block
    /\ batch_size * (n / batch_size) <= n
    /\ Forall (fun j => 0 <= j < n) block
    /\ (forall (X : matrix R) (y x : vec),
          Z.of_nat (nrows X) = n -> length y = nrows X -> length x = ncols X ->
          exists grad, calc_grad X y x block = Ok grad).
Proof.
  intros Hk _.
  assert (0 < n / batch_size) as Hq by (apply Z.div_str_pos; lia).
  assert (batch_size * (n / batch_size) <= n) as Hle
    by (apply Z.mul_div_le; lia).
  pose proof (mod_in_range (raw_draw w) (n / batch_size) Hq) as Hb.
  assert (Forall (fun j => 0 <= j < batch_size * (n / batch_size))
            (block_of batch_size (raw_draw w mod (n / batch_size)))) as Hin.
  { apply Forall_forall. intros j Hj. apply block_of_bounds in Hj; [|lia]. nia. }
  exists (block_of batch_size (raw_draw w mod (n / batch_size))), (advance w).
  split.
  { rewrite get_batch_eq by lia.
    destruct (Z.leb_spec (n / batch_size) 0); [lia|reflexivity]. }
  split; [exact Hin|]. split; [exact Hle|].
  assert (Forall (fun j => 0 <= j < n)
            (block_of batch_size (raw_draw w mod (n / batch_size)))) as Hn.
  { eapply Forall_impl; [|exact Hin]. simpl. intros j Hj. lia. }
  split; [exact Hn|].
  intros X y x HX Hy _. apply calc_grad_in_bounds; [exact Hy|].
  rewrite HX. exact Hn.
Qed.

End SamplerFacts.

(** *** One epoch of each optimiser against the specification *)

Section EpochFacts.
Context {R : Type} {SC : Scalar R} {PO : ProjectionOracle R}.
Local Abbreviation vec := (list R).

Lemma block_of_one i : block_of 1 i = [i].
Proof. unfold block_of. rewrite !Z.mul_1_l. apply range_single. Qed.

Lemma first_epoch_test (k : nat) : (Z.of_nat k <? 1) = match k with O => true | S _ => false end.
Proof. destruct k; [reflexivity|]. apply Z.ltb_ge. lia. Qed.

(** The inner iteration shared by SVRG-IHT and SCSG-IHT, on a block drawn
    by [get_batch b n]. *)
Lemma vr_inner_spec (P : params R) b k outer st x_nil w :
  b <> 0 ->
  svrg_iht_inner P b (n_samples P) (Z.of_nat k) outer (st, x_nil) w =
  bind (scsg_step_spec P b k (x_hat st) outer x_nil)
       (fun x' => ret (mkState (x_hat st) (num_epochs st) (num_iter st + 1) (loss_list st), x')) w.
Proof.
  intros Hb. unfold svrg_iht_inner, scsg_step_spec. cbn [fst snd].
  rewrite bind_assoc.
  rewrite (bind_cong_l _ _ _ w (get_batch_draw_block b (n_samples P) w Hb)).
  apply bind_ext. intros block w1 _.
  rewrite first_epoch_test.
  unfold vr_gradient_spec, grad_at, iht_update_spec, bind, lift, ret, rbind.
  rewrite !calc_grad_refines.
  destruct (gradient_spec (x_mat P) (y_tr P) x_nil block) as [g1|e]; [|reflexivity].
  destruct k.
  - destruct (algo_head_tail_bisearch _ g1 _ _ _ _ _ _ _) as [hp|e]; [|reflexivity].
    destruct (algo_head_tail_bisearch _ _ _ _ _ _ _ _ _) as [tp|e]; reflexivity.
  - destruct (gradient_spec (x_mat P) (y_tr P) (x_hat st) block) as [g2|e]; [|reflexivity].
    destruct (algo_head_tail_bisearch _ _ _ _ _ _ _ _ _) as [hp|e]; [|reflexivity].
    destruct (algo_head_tail_bisearch _ _ _ _ _ _ _ _ _) as [tp|e]; reflexivity.
Qed.

Lemma scsg_inner_is_svrg_inner (P : params R) b n epoch_i outer sx w :
  scsg_iht_inner P b n epoch_i outer sx w = svrg_iht_inner P b n epoch_i outer sx w.
Proof. reflexivity. Qed.

Lemma svrg_step_is_single_sample (P : params R) k xh outer x w :
  scsg_step_spec P 1 k xh outer x w = svrg_step_spec P k xh outer x w.
Proof.
  unfold scsg_step_spec, svrg_step_spec, draw_block_spec.
  rewrite bind_assoc, Z.div_1_r. apply bind_ext. intros i w1 _.
  unfold bind at 1. unfold ret at 1. rewrite block_of_one. reflexivity.
Qed.

Lemma sto_inner_spec (P : params R) B st w :
  B <> 0 ->
  sto_iht_inner P B (n_samples P) st w =
  bind (sto_step_spec P B (x_hat st))
       (fun x' => ret (mkState x' (num_epochs st) (num_iter st + 1) (loss_list st))) w.
Proof.
  intros HB. unfold sto_iht_inner, sto_step_spec.
  rewrite bind_assoc.
  rewrite (bind_cong_l _ _ _ w (get_batch_draw_block B (n_samples P) w HB)).
  apply bind_ext. intros block w1 _.
  unfold grad_at, iht_update_spec, bind, lift, ret, rbind.
  rewrite calc_grad_refines.
  destruct (gradient_spec (x_mat P) (y_tr P) (x_hat st) block) as [g1|e]; [|reflexivity].
  destruct (algo_head_tail_bisearch _ g1 _ _ _ _ _ _ _) as [hp|e]; [|reflexivity].
  destruct (algo_head_tail_bisearch _ _ _ _ _ _ _ _ _) as [tp|e]; reflexivity.
Qed.

Lemma sto_work_spec (P : params R) B K st w :
  B <> 0 -> 0 <= K ->
  sto_iht_work P B (n_samples P) K st w =
  bind (sto_epoch_spec P B (Z.to_nat K) (x_hat st))
       (fun x' => ret (after_epoch st x' K)) w.
Proof.
  intros HB HK. unfold sto_iht_work, sto_epoch_spec. cbn [x_hat num_epochs num_iter loss_list].
  pose (psi := fun (j : nat) (x : vec) =>
                 mkState x (num_epochs st + 1) (num_iter st + Z.of_nat j) (loss_list st)).
  replace (mkState (x_hat st) (num_epochs st + 1) (num_iter st) (loss_list st))
    with (psi 0%nat (x_hat st)) by (unfold psi; simpl; rewrite Z.add_0_r; reflexivity).
  rewrite (for_range_sim (sto_iht_inner P B (n_samples P)) (sto_step_spec P B) psi).
  - apply bind_ext. intros x' w1 _. unfold ret, psi, after_epoch.
    rewrite Nat.add_0_l, Z2Nat.id by exact HK. reflexivity.
  - intros j x w1. rewrite sto_inner_spec by exact HB. unfold psi. cbn [x_hat num_epochs num_iter loss_list].
    apply bind_ext. intros x' w2 _. unfold ret. do 3 f_equal. lia.
Qed.

Lemma vr_work_loop (P : params R) b k outer st0 K w :
  b <> 0 -> 0 <= K ->
  bind (for_range (Z.to_nat K) (svrg_iht_inner P b (n_samples P) (Z.of_nat k) outer)
          (st0, x_hat st0))
       (fun sx => ret (mkState (snd sx) (num_epochs (fst sx)) (num_iter (fst sx))
                         (loss_list (fst sx)))) w =
  bind (for_range (Z.to_nat K) (scsg_step_spec P b k (x_hat st0) outer) (x_hat st0))
       (fun x' => ret (mkState x' (num_epochs st0) (num_iter st0 + K) (loss_list st0))) w.
Proof.
  intros Hb HK.
  pose (psi := fun (j : nat) (x : vec) =>
                 (mkState (x_hat st0) (num_epochs st0) (num_iter st0 + Z.of_nat j)
                    (loss_list st0), x)).
  replace (st0, x_hat st0) with (psi 0%nat (x_hat st0)).
  2:{ unfold psi. simpl. rewrite Z.add_0_r. destruct st0; reflexivity. }
  assert (forall j x w1,
             svrg_iht_inner P b (n_samples P) (Z.of_nat k) outer (psi j x) w1 =
             bind (scsg_step_spec P b k (x_hat st0) outer x)
                  (fun x' => ret (psi (S j) x')) w1) as Hstep.
  { intros j x w1. unfold psi. rewrite vr_inner_spec by exact Hb.
    cbn [x_hat num_epochs num_iter loss_list].
    apply bind_ext. intros x' w2 _. unfold ret. do 4 f_equal. lia. }
  rewrite (bind_cong_l _ _ _ w
             (for_range_sim _ _ psi Hstep (Z.to_nat K) 0%nat (x_hat st0) w)).
  rewrite bind_assoc. apply bind_ext. intros x' w1 _. unfold bind, ret, psi. simpl.
  rewrite Z2Nat.id by exact HK. reflexivity.
Qed.

Lemma svrg_work_spec (P : params R) k st w :
  svrg_iht_work P 1 (n_samples P) (n_samples P) (Z.of_nat k) st w =
  bind (svrg_epoch_spec P k (x_hat st))
       (fun x' => ret (after_epoch st x' (n_samples P))) w.
Proof.
  unfold svrg_iht_work, svrg_epoch_spec. cbn [x_hat num_epochs num_iter loss_list].
  rewrite calc_grad_refines. fold (grad_at P (x_hat st) (range 0 (n_samples P))).
  rewrite bind_assoc. apply bind_ext. intros outer w1 _.
  etransitivity.
  { apply (vr_work_loop P 1 k outer
             (mkState (x_hat st) (num_epochs st + 1) (num_iter st) (loss_list st))
             (n_samples P) w1); [lia|unfold n_samples; lia]. }
  cbn [x_hat num_epochs num_iter loss_list].
  rewrite (bind_cong_l _ _ _ w1
             (for_range_ext _ _ _ (svrg_step_is_single_sample P k (x_hat st) outer) _ w1)).
  reflexivity.
Qed.

Lemma scsg_work_spec (P : params R) B b k st w :
  B <> 0 -> 1 <= b -> 0 <= B ->
  scsg_iht_work P B b (n_samples P) (Z.of_nat k) st w =
  bind (scsg_epoch_spec P B b k (x_hat st))
       (fun x' => ret (after_epoch st x' (B / b))) w.
Proof.
  intros HB Hb HB0. unfold scsg_iht_work, scsg_epoch_spec.
  cbn [x_hat num_epochs num_iter loss_list].
  rewrite bind_assoc.
  rewrite (bind_cong_l _ _ _ w (get_batch_draw_block B (n_samples P) w HB)).
  apply bind_ext. intros block w1 _.
  rewrite calc_grad_refines. fold (grad_at P (x_hat st) block).
  rewrite bind_assoc. apply bind_ext. intros outer w2 _.
  rewrite bind_lift, py_div_ok by lia.
  apply (vr_work_loop P b k outer
           (mkState (x_hat st) (num_epochs st + 1) (num_iter st) (loss_list st))
           (B / b) w2); [lia|apply Z.div_pos; lia].
Qed.

Lemma range_nonneg i hi : In i (range 0 hi) -> Z.of_nat (Z.to_nat i) = i.
Proof. intros H. apply range_In in H. lia. Qed.

Lemma clamp_block_min n B : (if n <? B then n else B) = Z.min n B.
Proof. destruct (Z.ltb_spec n B); lia. Qed.

(** The generator is read once per drawn block. *)
Lemma draw_block_spec_inv k n (w : world R) block w' :
  draw_block_spec k n w = Ok (block, w') ->
  w' = advance w /\ exists i, 0 <= i < n / k /\ block = block_of k i.
Proof.
  unfold draw_block_spec. intros H. apply bind_inv in H.
  destruct H as (i & w1 & Hr & H). rewrite randint_zero_eq in Hr.
  destruct (Z.leb_spec (n / k) 0) as [|Hpos]; [discriminate|].
  inversion Hr; subst i w1. unfold ret in H. inversion H; subst.
  split; [reflexivity|]. eexists. split; [|reflexivity].
  apply Z.mod_pos_bound. exact Hpos.
Qed.

Lemma sto_step_spec_draws (P : params R) B x w x' w' :
  sto_step_spec P B x w = Ok (x', w') -> rng_pos w' = S (rng_pos w).
Proof.
  unfold sto_step_spec. intros H. inv_run.
  match goal with H : draw_block_spec _ _ _ = Ok _ |- _ =>
    apply draw_block_spec_inv in H; destruct H as [-> _] end.
  reflexivity.
Qed.

Lemma scsg_step_spec_draws (P : params R) b k xh outer x w x' w' :
  scsg_step_spec P b k xh outer x w = Ok (x', w') -> rng_pos w' = S (rng_pos w).
Proof.
  unfold scsg_step_spec. intros H. inv_run.
  match goal with H : draw_block_spec _ _ _ = Ok _ |- _ =>
    apply draw_block_spec_inv in H; destruct H as [-> _] end.
  reflexivity.
Qed.

Lemma for_range_draws {S} (step : S -> M R S) count :
  (forall s w s' w', step s w = Ok (s', w') -> rng_pos w' = Datatypes.S (rng_pos w)) ->
  forall s w s' w',
    for_range count step s w = Ok (s', w') -> rng_pos w' = (rng_pos w + count)%nat.
Proof.
  intros Hstep s w s' w' H.
  apply (for_range_inv step (fun j _ w1 => rng_pos w1 = (rng_pos w + j)%nat))
    with (j := 0%nat) in H.
  - exact H.
  - intros j s1 w1 s2 w2 HI Hs. apply Hstep in Hs. lia.
  - lia.
Qed.

(** C1: the SVRG-IHT loop is, whatever [B] and [b] the caller passes, the
    epoch loop whose epoch number [epoch_i] computes the full-batch
    gradient over all [n] samples at the snapshot [x_hat], then runs [n]
    inner iterations, each on a single sample [[i]] with [i] drawn from
    [{0, ..., n-1}], stepping along the raw gradient at [x_nil] when
    [epoch_i = 0] and along
    [grad(x_nil, [i]) - grad(x_hat, [i]) + outer_grad] afterwards, before
    the end-of-epoch bookkeeping; an epoch that completes has read the
    generator exactly [n] times. *)
Theorem svrg_epoch_gradient_rule (P : params R) (B b : Z) (w : world R) :
  svrg_iht_loop P B b w =
  for_each (range 0 (max_epochs P))
    (fun epoch_i st =>
       x' <- svrg_epoch_spec P (Z.to_nat epoch_i) (x_hat st) ;;
       svrg_iht_end P 1 (n_samples P) (n_samples P) epoch_i
         (after_epoch st x' (n_samples P)))
    (init_state P) w
  /\ (forall epoch x w1 x' w2,
        svrg_epoch_spec P epoch x w1 = Ok (x', w2) ->
        rng_pos w2 = (rng_pos w1 + Z.to_nat (n_samples P))%nat).
Proof.
  split.
  - unfold svrg_iht_loop. rewrite bind_lift, py_div_ok, Z.div_1_r by lia.
    apply for_each_ext. intros i st w1 Hi. unfold svrg_iht_epoch.
    rewrite <- (range_nonneg _ _ Hi) at 1.
    rewrite (bind_cong_l _ _ _ w1 (svrg_work_spec P (Z.to_nat i) st w1)).
    rewrite bind_assoc. reflexivity.
  - intros epoch x w1 x' w2 H. unfold svrg_epoch_spec in H. inv_run.
    match goal with H : for_range _ _ _ _ = Ok _ |- _ =>
      apply for_range_draws in H; [exact H|] end.
    intros s1 wa s2 wb Hs. rewrite <- svrg_step_is_single_sample in Hs.
    eapply scsg_step_spec_draws. exact Hs.
Qed.

(** C2, as amended: for [B >= 1] and at least one sample, with [B']
    the block size after the reduction to [n], the Sto-IHT loop is the
    epoch loop whose every epoch runs exactly [floor(n / B')] inner
    iterations (at least one), each drawing one block of size [B'],
    taking the block gradient at the current [x_hat], head-projecting it,
    stepping by [lr], tail-projecting and replacing [x_hat]; an epoch that
    completes has read the generator exactly [floor(n / B')] times. *)
Theorem sto_epoch_floor_iterations (P : params R) (B b : Z) (w : world R) :
  1 <= B -> 1 <= n_samples P ->
  let B' := block_size P B in
  let count := n_samples P / B' in
  sto_iht_loop P B b w =
  for_each (range 0 (max_epochs P))
    (fun epoch_i st =>
       x' <- sto_epoch_spec P B' (Z.to_nat count) (x_hat st) ;;
       sto_iht_end P B' count epoch_i (after_epoch st x' count))
    (init_state P) w
  /\ 1 <= count
  /\ (forall x w1 x' w2,
        sto_epoch_spec P B' (Z.to_nat count) x w1 = Ok (x', w2) ->
        rng_pos w2 = (rng_pos w1 + Z.to_nat count)%nat).
Proof.
  intros HB Hn B' count.
  assert (1 <= B' <= n_samples P) as HB' by (unfold B', block_size; lia).
  assert (1 <= count) as Hc.
  { unfold count. apply Z.div_le_lower_bound; lia. }
  split; [|split; [exact Hc|]].
  - unfold sto_iht_loop. rewrite clamp_block_min. fold (block_size P B). fold B'.
    rewrite bind_lift, py_div_ok by lia. fold count.
    apply for_each_ext. intros i st w1 Hi. unfold sto_iht_epoch.
    rewrite (bind_cong_l _ _ _ w1 (sto_work_spec P B' count st w1 ltac:(lia) ltac:(lia))).
    rewrite bind_assoc. reflexivity.
  - intros x w1 x' w2 H. unfold sto_epoch_spec in H.
    apply for_range_draws in H; [exact H|].
    intros s1 wa s2 wb Hs. eapply sto_step_spec_draws. exact Hs.
Qed.

(** C5, as amended: for [B >= 1], [b >= 1] and at least one sample, with
    [B'] the block size after the reduction to [n], the SCSG-IHT loop is
    the epoch loop whose epoch number [epoch_i] draws one block, of [B']
    indices below [n] (all of [[0, n)] when [B' = n], fewer than [n]
    indices otherwise), takes the outer gradient at [x_hat] on that block
    only, and runs exactly [floor(B' / b)] inner iterations from
    [x_nil = x_hat], each on a mini-block of size [b] under the gradient
    rule of SVRG-IHT, then makes [x_nil] the new [x_hat]; an epoch that
    completes has read the generator once for the block and once per
    inner iteration. *)
Theorem scsg_epoch_block_anchor (P : params R) (B b : Z) (w : world R) :
  1 <= B -> 1 <= b -> 1 <= n_samples P ->
  let B' := block_size P B in
  scsg_iht_loop P B b w =
  for_each (range 0 (max_epochs P))
    (fun epoch_i st =>
       x' <- scsg_epoch_spec P B' b (Z.to_nat epoch_i) (x_hat st) ;;
       scsg_iht_end P B' b epoch_i (after_epoch st x' (B' / b)))
    (init_state P) w
  /\ (forall (w1 : world R) block w2,
        draw_block_spec B' (n_samples P) w1 = Ok (block, w2) ->
        length block = Z.to_nat B'
        /\ Forall (fun j => 0 <= j < n_samples P) block
        /\ (B' = n_samples P -> block = range 0 (n_samples P))
        /\ (B' < n_samples P -> (length block < Z.to_nat (n_samples P))%nat))
  /\ (forall epoch x w1 x' w2,
        scsg_epoch_spec P B' b epoch x w1 = Ok (x', w2) ->
        rng_pos w2 = (rng_pos w1 + 1 + Z.to_nat (B' / b))%nat).
Proof.
  intros HB Hb Hn B'.
  assert (1 <= B' <= n_samples P) as HB' by (unfold B', block_size; lia).
  split; [|split].
  - unfold scsg_iht_loop. rewrite clamp_block_min. fold (block_size P B). fold B'.
    apply for_each_ext. intros i st w1 Hi. unfold scsg_iht_epoch.
    rewrite <- (range_nonneg _ _ Hi) at 1.
    rewrite (bind_cong_l _ _ _ w1
               (scsg_work_spec P B' b (Z.to_nat i) st w1 ltac:(lia) Hb ltac:(lia))).
    rewrite bind_assoc. reflexivity.
  - intros w1 block w2 H. apply draw_block_spec_inv in H.
    destruct H as (_ & i & Hi & ->). split; [apply block_of_length; lia|].
    split; [|split].
    + apply Forall_forall. intros j Hj. apply block_of_bounds in Hj; [|lia].
      assert (B' * (n_samples P / B') <= n_samples P) by (apply Z.mul_div_le; lia).
      nia.
    + intros E. rewrite E in Hi. rewrite Z.div_same in Hi by lia.
      assert (i = 0) as -> by lia. unfold block_of.
      rewrite Z.mul_0_r, Z.add_0_l, Z.mul_1_r, E. reflexivity.
    + intros Hlt. rewrite block_of_length by lia. lia.
  - intros epoch x w1 x' w2 H. unfold scsg_epoch_spec in H. inv_run.
    match goal with H : draw_block_spec _ _ _ = Ok _ |- _ =>
      apply draw_block_spec_inv in H; destruct H as [-> _] end.
    match goal with H : for_range _ _ _ _ = Ok _ |- _ =>
      apply for_range_draws in H;
      [|intros s1 wa s2 wb Hs; eapply scsg_step_spec_draws; exact Hs] end.
    simpl in *. lia.
Qed.

End EpochFacts.

(** *** Counters, the loss record and leaving the loop *)

Section LoopFacts.
Context {R : Type} {SC : Scalar R} {PO : ProjectionOracle R}.
Local Abbreviation vec := (list R).

Lemma sto_inner_counts (P : params R) B n st w st' w' :
  sto_iht_inner P B n st w = Ok (st', w') ->
  num_epochs st' = num_epochs st /\ num_iter st' = num_iter st + 1
  /\ loss_list st' = loss_list st.
Proof. unfold sto_iht_inner. intros H. inv_run. simpl. auto. Qed.

Lemma vr_inner_counts (P : params R) b n epoch_i outer sx w sx' w' :
  svrg_iht_inner P b n epoch_i outer sx w = Ok (sx', w') ->
  x_hat (fst sx') = x_hat (fst sx)
  /\ num_epochs (fst sx') = num_epochs (fst sx)
  /\ num_iter (fst sx') = num_iter (fst sx) + 1
  /\ loss_list (fst sx') = loss_list (fst sx).
Proof. unfold svrg_iht_inner. intros H. inv_run. simpl. auto. Qed.

Lemma sto_work_counts (P : params R) B n K st w st' w' :
  sto_iht_work P B n K st w = Ok (st', w') ->
  num_epochs st' = num_epochs st + 1
  /\ num_iter st' = num_iter st + Z.of_nat (Z.to_nat K)
  /\ loss_list st' = loss_list st.
Proof.
  unfold sto_iht_work. intros H.
  apply (for_range_inv _
           (fun j s _ => num_epochs s = num_epochs st + 1
                         /\ num_iter s = num_iter st + Z.of_nat j
                         /\ loss_list s = loss_list st)) with (j := 0%nat) in H.
  - exact H.
  - intros j s w1 s' w1' (H1 & H2 & H3) Hs. apply sto_inner_counts in Hs.
    destruct Hs as (E1 & E2 & E3). rewrite E1, E2, E3. repeat split; try assumption. lia.
  - simpl. repeat split. lia.
Qed.

Lemma vr_loop_counts (P : params R) b n epoch_i outer K st x w sx' w' :
  for_range K (svrg_iht_inner P b n epoch_i outer) (st, x) w = Ok (sx', w') ->
  num_epochs (fst sx') = num_epochs st
  /\ num_iter (fst sx') = num_iter st + Z.of_nat K
  /\ loss_list (fst sx') = loss_list st.
Proof.
  intros H.
  apply (for_range_inv _
           (fun j s _ => num_epochs (fst s) = num_epochs st
                         /\ num_iter (fst s) = num_iter st + Z.of_nat j
                         /\ loss_list (fst s) = loss_list st)) with (j := 0%nat) in H.
  - exact H.
  - intros j s w1 s' w1' (H1 & H2 & H3) Hs. apply vr_inner_counts in Hs.
    destruct Hs as (_ & E1 & E2 & E3). rewrite E1, E2, E3. repeat split; try assumption. lia.
  - simpl. repeat split. lia.
Qed.

Lemma svrg_work_counts (P : params R) b n K epoch_i st w st' w' :
  svrg_iht_work P b n K epoch_i st w = Ok (st', w') ->
  num_epochs st' = num_epochs st + 1
  /\ num_iter st' = num_iter st + Z.of_nat (Z.to_nat K)
  /\ loss_list st' = loss_list st.
Proof.
  unfold svrg_iht_work. intros H. inv_run.
  match goal with H : for_range _ _ _ _ = Ok _ |- _ => apply vr_loop_counts in H; simpl in H end.
  simpl. assumption.
Qed.

Lemma scsg_work_counts (P : params R) B b n epoch_i st w st' w' :
  scsg_iht_work P B b n epoch_i st w = Ok (st', w') ->
  b <> 0
  /\ num_epochs st' = num_epochs st + 1
  /\ num_iter st' = num_iter st + Z.of_nat (Z.to_nat (B / b))
  /\ loss_list st' = loss_list st.
Proof.
  unfold scsg_iht_work. intros H. inv_run.
  match goal with H : py_div _ _ = Ok _ |- _ =>
    unfold py_div in H; destruct (Z.eqb_spec b 0); [discriminate|]; inversion H; subst end.
  match goal with H : for_range _ _ _ _ = Ok _ |- _ => apply vr_loop_counts in H; simpl in H end.
  simpl. split; assumption.
Qed.

Lemma calc_num_observations_inv B b t K obs :
  calc_num_observations B b t K = Ok obs ->
  K <> 0 /\ obs = observations_spec B b K t.
Proof.
  unfold calc_num_observations, py_div, observations_spec.
  destruct (Z.eqb_spec K 0); simpl; [discriminate|].
  intros H. inversion H. split; [assumption|reflexivity].
Qed.

Lemma sto_end_ok (P : params R) B K epoch_i st w f st' w' :
  sto_iht_end P B K epoch_i st w = Ok ((f, st'), w') ->
  x_hat st' = x_hat st /\ num_epochs st' = num_epochs st /\ num_iter st' = num_iter st
  /\ match f with
     | Break => terminal P (x_hat st) = true /\ loss_list st' = loss_list st
     | Next =>
         terminal P (x_hat st) = false /\ K <> 0
         /\ loss_list st' =
            loss_list st ++
              [(observations_spec 0 B K (num_iter st), residual_norm_of P (x_hat st))]
     end.
Proof.
  unfold sto_iht_end, terminal, diverged, converged. intros H.
  destruct (leb c1e5 (norm (x_hat st))); simpl.
  { inv_run. repeat split; auto. }
  destruct (leb (residual_norm_of P (x_hat st)) (tol_algo P)); simpl.
  { inv_run. repeat split; auto. }
  inv_run.
  match goal with H : calc_num_observations _ _ _ _ = Ok _ |- _ =>
    apply calc_num_observations_inv in H; destruct H as [HK ->] end.
  simpl. repeat split; auto.
Qed.

Lemma svrg_end_ok (P : params R) b n K epoch_i st w f st' w' :
  svrg_iht_end P b n K epoch_i st w = Ok ((f, st'), w') ->
  x_hat st' = x_hat st /\ num_epochs st' = num_epochs st /\ num_iter st' = num_iter st
  /\ match f with
     | Break => terminal P (x_hat st) = true /\ loss_list st' = loss_list st
     | Next =>
         terminal P (x_hat st) = false /\ K <> 0
         /\ loss_list st' =
            loss_list st ++
              [(observations_spec n b K (num_iter st), residual_norm_of P (x_hat st))]
     end.
Proof.
  unfold svrg_iht_end, terminal, diverged, converged. intros H.
  apply bind_inv in H. destruct H as ([] & w1 & _ & H).
  destruct (leb c1e5 (norm (x_hat st))); simpl.
  { inv_run. repeat split; auto. }
  destruct (leb (residual_norm_of P (x_hat st)) (tol_algo P)); simpl.
  { inv_run. repeat split; auto. }
  inv_run.
  match goal with H : calc_num_observations _ _ _ _ = Ok _ |- _ =>
    apply calc_num_observations_inv in H; destruct H as [HK ->] end.
  simpl. repeat split; auto.
Qed.

Lemma scsg_end_ok (P : params R) B b epoch_i st w f st' w' :
  scsg_iht_end P B b epoch_i st w = Ok ((f, st'), w') ->
  x_hat st' = x_hat st /\ num_epochs st' = num_epochs st /\ num_iter st' = num_iter st
  /\ match f with
     | Break => terminal P (x_hat st) = true /\ loss_list st' = loss_list st
     | Next =>
         terminal P (x_hat st) = false /\ B / b <> 0
         /\ loss_list st' =
            loss_list st ++
              [(observations_spec B b (B / b) (num_iter st), residual_norm_of P (x_hat st))]
     end.
Proof.
  unfold scsg_iht_end, terminal, diverged, converged. intros H.
  apply bind_inv in H. destruct H as ([] & w1 & _ & H).
  destruct (leb c1e5 (norm (x_hat st))); simpl.
  { inv_run. repeat split; auto. }
  destruct (leb (residual_norm_of P (x_hat st)) (tol_algo P)); simpl.
  { inv_run. repeat split; auto. }
  inv_run.
  match goal with H : py_div _ _ = Ok _ |- _ =>
    unfold py_div in H; destruct (Z.eqb_spec b 0); [discriminate|]; inversion H; subst end.
  match goal with H : calc_num_observations _ _ _ _ = Ok _ |- _ =>
    apply calc_num_observations_inv in H; destruct H as [HK ->] end.
  simpl. repeat split; auto.
Qed.

Lemma sto_epoch_ok (P : params R) B n K :
  epoch_ok P K 0 B (sto_iht_epoch P B n K).
Proof.
  intros i st w f st' w' H. unfold sto_iht_epoch in H.
  apply bind_inv in H. destruct H as (st1 & w1 & Hw & He).
  apply sto_work_counts in Hw. destruct Hw as (W1 & W2 & W3).
  apply sto_end_ok in He. destruct He as (E0 & E1 & E2 & E3).
  split; [rewrite E1, W1; reflexivity|]. split; [rewrite E2, W2; reflexivity|].
  rewrite E0, E2.
  destruct f; [destruct E3 as (T & HK & L)|destruct E3 as (T & L)];
    rewrite L, W3; repeat split; assumption.
Qed.

Lemma svrg_epoch_ok (P : params R) b n K :
  epoch_ok P K n b (svrg_iht_epoch P b n K).
Proof.
  intros i st w f st' w' H. unfold svrg_iht_epoch in H.
  apply bind_inv in H. destruct H as (st1 & w1 & Hw & He).
  apply svrg_work_counts in Hw. destruct Hw as (W1 & W2 & W3).
  apply svrg_end_ok in He. destruct He as (E0 & E1 & E2 & E3).
  split; [rewrite E1, W1; reflexivity|]. split; [rewrite E2, W2; reflexivity|].
  rewrite E0, E2.
  destruct f; [destruct E3 as (T & HK & L)|destruct E3 as (T & L)];
    rewrite L, W3; repeat split; assumption.
Qed.

Lemma scsg_epoch_ok (P : params R) B b n :
  epoch_ok P (B / b) B b (scsg_iht_epoch P B b n).
Proof.
  intros i st w f st' w' H. unfold scsg_iht_epoch in H.
  apply bind_inv in H. destruct H as (st1 & w1 & Hw & He).
  apply scsg_work_counts in Hw. destruct Hw as (_ & W1 & W2 & W3).
  apply scsg_end_ok in He. destruct He as (E0 & E1 & E2 & E3).
  split; [rewrite E1, W1; reflexivity|]. split; [rewrite E2, W2; reflexivity|].
  rewrite E0, E2.
  destruct f; [destruct E3 as (T & HK & L)|destruct E3 as (T & L)];
    rewrite L, W3; repeat split; assumption.
Qed.

Section Generic.
Variables (P : params R) (K Bo bo : Z).
Variable body : Z -> loop_state R -> M R (flow * loop_state R).
Hypothesis Hok : epoch_ok P K Bo bo body.

Lemma for_each_cons_inv i rest st w st' w' :
  for_each (i :: rest) body st w = Ok (st', w') ->
  exists f st1 w1,
    body i st w = Ok ((f, st1), w1)
    /\ match f with
       | Break => st' = st1 /\ w' = w1
       | Next => for_each rest body st1 w1 = Ok (st', w')
       end.
Proof.
  simpl. intros H. apply bind_inv in H. destruct H as ([f st1] & w1 & Hb & H).
  exists f, st1, w1. split; [exact Hb|].
  destruct f; simpl in H; [exact H|]. inversion H. split; reflexivity.
Qed.


Lemma for_each_loss items :
  forall st w st' w',
    for_each items body st w = Ok (st', w') ->
    exists c : nat,
      (c <> 0%nat -> K <> 0)
      /\ map fst (loss_list st') =
         map fst (loss_list st) ++
           map (fun j => observations_spec Bo bo K
                           (num_iter st + Z.of_nat (Z.to_nat K) * Z.of_nat j))
               (seq 1 c).
Proof.
  induction items as [|i rest IH]; intros st w st' w' H.
  - simpl in H. inversion H; subst. exists 0%nat. simpl. rewrite app_nil_r.
    split; [congruence|reflexivity].
  - apply for_each_cons_inv in H. destruct H as (f & st1 & w1 & Hb & H).
    pose proof (Hok _ _ _ _ _ _ Hb) as (E1 & E2 & E3).
    destruct f.
    + apply IH in H. destruct H as (c & Hc & Hl).
      destruct E3 as (Ht & HK & Hl1).
      exists (S c). split; [intros _; exact HK|].
      rewrite Hl, Hl1, map_app, <- app_assoc. f_equal.
      cbn [seq map app fst]. f_equal.
      * f_equal. rewrite E2. lia.
      * rewrite <- (seq_shift c 1), map_map. apply map_ext. intros j.
        f_equal. rewrite E2. lia.
    + destruct H as [-> ->]. destruct E3 as (Ht & Hl).
      exists 0%nat. simpl. rewrite app_nil_r, Hl. split; [congruence|reflexivity].
Qed.
End Generic.

Lemma run_loop_for_each (v : variant) (P : params R) (B b : Z) (w : world R) :
  run_loop v P B b w =
  if match v with StoIHT => block_size P B =? 0 | _ => false end
  then Raise ZeroDivisionError
  else for_each (range 0 (max_epochs P)) (loop_body v P B b) (init_state P) w.
Proof.
  destruct v; unfold run_loop, loop_body.
  - unfold sto_iht_loop. rewrite clamp_block_min. fold (block_size P B).
    rewrite bind_lift. unfold py_div. destruct (block_size P B =? 0); reflexivity.
  - unfold svrg_iht_loop. rewrite bind_lift, py_div_ok, Z.div_1_r by lia. reflexivity.
  - unfold scsg_iht_loop. rewrite clamp_block_min. reflexivity.
Qed.

Lemma loop_body_ok (v : variant) (P : params R) (B b : Z) :
  epoch_ok P (inner_K v P B b) (obs_B v P B b) (obs_b v P B b) (loop_body v P B b).
Proof.
  destruct v; unfold inner_K, obs_B, obs_b, loop_body.
  - apply sto_epoch_ok.
  - apply svrg_epoch_ok.
  - apply scsg_epoch_ok.
Qed.

Lemma firstn_range (m : nat) hi :
  Z.of_nat m <= hi -> firstn m (range 0 hi) = range 0 (Z.of_nat m).
Proof.
  intros H. rewrite (range_app 0 (Z.of_nat m) hi) by lia.
  rewrite firstn_app, range_length.
  replace (Z.to_nat (Z.of_nat m - 0)) with m by lia.
  rewrite Nat.sub_diag. simpl. rewrite app_nil_r.
  apply firstn_all2. rewrite range_length. lia.
Qed.

Lemma run_inv (v : variant) (P : params R) (B b : Z) (w : world R) ll err ne w' :
  run v P B b w = Ok ((ll, err, ne), w') ->
  exists st,
    run_loop v P B b (mkWorld (entropy w) (S (reseeds w)) O (stdout w)) = Ok (st, w')
    /\ ll = loss_list st /\ ne = num_epochs st.
Proof.
  intros H.
  assert (bind np_random_seed
            (fun _ => bind (run_loop v P B b) (fun st => ret (finish P st))) w
          = Ok ((ll, err, ne), w')) as H'.
  { destruct v; exact H. }
  clear H. unfold bind at 1 in H'. unfold np_random_seed in H'.
  apply bind_inv in H'. destruct H' as (st & w1 & Hl & Hr).
  unfold ret, finish in Hr. inversion Hr; subst.
  exists st. repeat split. exact Hl.
Qed.


Lemma nth_loss_fst (ll : list (Z * R)) j d :
  fst (nth j ll d) = nth j (map fst ll) (fst d).
Proof. symmetry. apply map_nth. Qed.

(** C8: for block sizes [B >= 1] and [b >= 1], the observation counts of
    the returned loss record are [floor(Bo / K) + bo t] for the variant's
    fixed arguments [(Bo, bo, K)], with [bo >= 1], [K >= 1] as soon as
    anything is recorded, and [t = K (j + 1)] the inner iterations run by
    the end of the [j]-th recorded epoch; consecutive entries are strictly
    increasing. *)
Theorem num_observations_increasing (v : variant) (P : params R) (B b : Z)
    (w : world R) ll err ne w' :
  1 <= B -> 1 <= b ->
  run v P B b w = Ok ((ll, err, ne), w') ->
  let Bo := obs_B v P B b in
  let bo := obs_b v P B b in
  let K := inner_K v P B b in
  1 <= bo
  /\ (ll <> [] -> 1 <= K)
  /\ (forall j d, (j < length ll)%nat ->
        fst (nth j ll d) = observations_spec Bo bo K (K * (Z.of_nat j + 1)))
  /\ (forall j d, (S j < length ll)%nat ->
        fst (nth j ll d) < fst (nth (S j) ll d)).
Proof.
  intros HB Hb H Bo bo K. apply run_inv in H. destruct H as (st & H & -> & _).
  rewrite run_loop_for_each in H.
  destruct (match v with StoIHT => block_size P B =? 0 | _ => false end) eqn:Hg;
    [discriminate|].
  apply (for_each_loss P _ _ _ _ (loop_body_ok v P B b)) in H.
  destruct H as (c & Hc & Hl). cbn [init_state loss_list num_iter map app] in Hl.
  fold K Bo bo in Hc, Hl.
  assert (0 <= n_samples P) as Hn by (unfold n_samples; lia).
  assert (0 <= block_size P B) as HB' by (unfold block_size; lia).
  assert (1 <= bo) as Hbo.
  { unfold bo, obs_b. destruct v; lia. }
  assert (0 <= K) as HK0.
  { unfold K, inner_K. destruct v; [|exact Hn|apply Z.div_pos; lia].
    apply Z.div_pos; lia. }
  assert (length (loss_list st) = c) as Hlen.
  { rewrite <- (length_map fst), Hl, length_map, length_seq. reflexivity. }
  assert (c <> 0%nat -> 1 <= K) as HK1 by (intros Hc0; specialize (Hc Hc0); lia).
  assert (forall j d, (j < c)%nat ->
            fst (nth j (loss_list st) d)
            = observations_spec Bo bo K (K * (Z.of_nat j + 1))) as Hnth.
  { intros j d Hj. rewrite nth_loss_fst, Hl.
    rewrite (nth_map_in _ _ _ _ 0%nat) by (rewrite length_seq; exact Hj).
    rewrite seq_nth by exact Hj. f_equal.
    rewrite Z2Nat.id by exact HK0. lia. }
  split; [exact Hbo|]. split.
  { intros Hne. apply HK1. rewrite <- Hlen. destruct (loss_list st); [congruence|discriminate]. }
  split.
  { intros j d Hj. apply Hnth. lia. }
  intros j d Hj. rewrite !Hnth by lia.
  assert (1 <= K) by (apply HK1; lia).
  unfold observations_spec. nia.
Qed.

(** C9: a block size above the number of samples is replaced by [n]
    before the first epoch, in Sto-IHT and in SCSG-IHT: the loop and the
    returned triple are those of the call with [B = n], on every state of
    the process; with at least one sample the only block of size [n] is
    the whole data set [[0, n)]. *)
Theorem oversized_block_is_whole_data (P : params R) (B b : Z) :
  n_samples P < B ->
  (forall w, sto_iht_loop P B b w = sto_iht_loop P (n_samples P) b w)
  /\ (forall w, scsg_iht_loop P B b w = scsg_iht_loop P (n_samples P) b w)
  /\ (forall w, algo_graph_sto_iht P B b w = algo_graph_sto_iht P (n_samples P) b w)
  /\ (forall w, algo_graph_scsg_iht P B b w = algo_graph_scsg_iht P (n_samples P) b w)
  /\ (1 <= n_samples P ->
      forall w : world R,
        get_batch (n_samples P) (n_samples P) w = Ok (range 0 (n_samples P), advance w)).
Proof.
  intros H.
  assert (forall w, sto_iht_loop P B b w = sto_iht_loop P (n_samples P) b w) as Hsto.
  { intros w. unfold sto_iht_loop. rewrite !clamp_block_min.
    rewrite Z.min_l by lia. rewrite Z.min_id. reflexivity. }
  assert (forall w, scsg_iht_loop P B b w = scsg_iht_loop P (n_samples P) b w) as Hscsg.
  { intros w. unfold scsg_iht_loop. rewrite !clamp_block_min.
    rewrite Z.min_l by lia. rewrite Z.min_id. reflexivity. }
  split; [exact Hsto|]. split; [exact Hscsg|]. split; [|split].
  - intros w. unfold algo_graph_sto_iht. apply bind_ext. intros [] w1 _.
    apply bind_cong_l. apply Hsto.
  - intros w. unfold algo_graph_scsg_iht. apply bind_ext. intros [] w1 _.
    apply bind_cong_l. apply Hscsg.
  - intros Hn w. rewrite get_batch_eq by lia.
    rewrite Z.div_same by lia. simpl. rewrite Z.mod_1_r.
    unfold block_of. rewrite Z.mul_0_r, Z.add_0_l, Z.mul_1_r. reflexivity.
Qed.

End LoopFacts.

(** ** The program and the theorems at concrete inputs *)

Example calc_grad_demo :
  calc_grad demo_matrix [2; 0; 0] [0; 0; 0] [0; 1] = Ok [-4; 0; 0].
Proof. reflexivity. Qed.

Example calc_grad_out_of_range :
  calc_grad demo_matrix [2; 0; 0] [0; 0; 0] [2; 3] = Raise IndexError.
Proof. reflexivity. Qed.

Example get_batch_demo :
  get_batch 2 3 demo_world = Ok ([0; 1], demo_world_at 0 1 []).
Proof. reflexivity. Qed.

Example get_batch_zero_size : get_batch 0 3 demo_world = Raise ZeroDivisionError.
Proof. reflexivity. Qed.

Example get_batch_too_large : get_batch 4 3 demo_world = Raise ValueError.
Proof. reflexivity. Qed.

Example algo_graph_sto_iht_demo :
  algo_graph_sto_iht demo_params 2 1 demo_world
  = Ok (([(2, 2); (4, 2)], 2, 2), demo_world_at 1 2 [(1, 2, 4, 2); (2, 2, 0, 2)]).
Proof. reflexivity. Qed.

Example algo_graph_scsg_iht_demo :
  algo_graph_scsg_iht demo_params 2 1 demo_world
  = Ok (([(3, 2); (5, 6)], 6, 2), demo_world_at 1 6 [(1, 2, 4, 2); (2, 6, 4, 6)]).
Proof. reflexivity. Qed.

Example no_epoch_no_record :
  algo_graph_svrg_iht (with_max_epochs demo_params 0) 2 1 demo_world
  = Ok (([], 2, 0), demo_world_at 1 0 []).
Proof. reflexivity. Qed.

(** C2: with three samples and [B = 2] an epoch of Sto-IHT runs one inner
    iteration and reads the generator once, not [ceil(3 / 2) = 2] times:
    after the two epochs of the run the counter stands at 2, not 4. *)
Lemma sto_epoch_count_is_not_ceiling :
  exists st w',
    sto_iht_loop demo_params 2 1 demo_world = Ok (st, w')
    /\ num_epochs st = 2
    /\ num_iter st = 2
    /\ rng_pos w' = 2%nat
    /\ ceil_div (n_samples demo_params) (block_size demo_params 2) = 2
    /\ (num_iter st
        =? num_epochs st * ceil_div (n_samples demo_params) (block_size demo_params 2))
       = false.
Proof.
  exists (mkState [0; 0; 0] 2 2 [(2, 2); (4, 2)]),
         (demo_world_at 0 2 [(1, 2, 4, 2); (2, 2, 0, 2)]).
  repeat split; reflexivity.
Qed.

Lemma sto_epoch_floor_iterations_witness :
  1 <= 2 /\ 1 <= n_samples demo_params
  /\ 1 <= n_samples demo_params / block_size demo_params 2
  /\ sto_iht_loop demo_params 2 1 demo_world =
     for_each (range 0 (max_epochs demo_params))
       (fun epoch_i st =>
          x' <- sto_epoch_spec demo_params (block_size demo_params 2)
                  (Z.to_nat (n_samples demo_params / block_size demo_params 2))
                  (x_hat st) ;;
          sto_iht_end demo_params (block_size demo_params 2)
            (n_samples demo_params / block_size demo_params 2) epoch_i
            (after_epoch st x' (n_samples demo_params / block_size demo_params 2)))
       (init_state demo_params) demo_world.
Proof.
  assert (1 <= 2) as H1 by lia.
  assert (1 <= n_samples demo_params) as H2 by (vm_compute; discriminate).
  destruct (sto_epoch_floor_iterations demo_params 2 1 demo_world H1 H2) as (E & C & _).
  repeat split; assumption.
Defined.

Lemma wrapper_projects_onto_support_witness :
  algo_head_tail_bisearch [(0, 1); (1, 2)] [3; 0; -4] [1; 1] 1 (-1) 1 5 50 0
  = Ok ([0%nat; 2%nat], [3; 0; -4])
  /\ [0%nat; 2%nat]
     = wrap_head_tail_bisearch [(0, 1); (1, 2)] [9; 0; 16] [1; 1] 1 (-1) 1 2 50 0
  /\ length [3; 0; -4] = 3%nat.
Proof.
  assert (algo_head_tail_bisearch [(0, 1); (1, 2)] [3; 0; -4] [1; 1] 1 (-1) 1 5 50 0
          = Ok ([0%nat; 2%nat], [3; 0; -4])) as H by reflexivity.
  destruct (wrapper_projects_onto_support
              [(0, 1); (1, 2)] [3; 0; -4] [1; 1] 1 (-1) 1 5 50 0) as (W & _).
  destruct (W _ _ H) as (E & L & _).
  repeat split; assumption.
Defined.

(** C5: with three samples and [B = 5] the block size in use is [3], the
    block drawn for the outer gradient is all of [[0, 3)], and the outer
    gradient of the first SCSG-IHT epoch is the full-batch gradient that
    SVRG-IHT computes over [range(n)]. *)
Lemma scsg_outer_block_is_all_data :
  (if n_samples demo_params <? 5 then n_samples demo_params else 5) = 3
  /\ get_batch 3 (n_samples demo_params) demo_world
     = Ok (range 0 (n_samples demo_params), demo_world_at 0 1 [])
  /\ range 0 (n_samples demo_params) = [0; 1; 2]
  /\ calc_grad (x_mat demo_params) (y_tr demo_params) (x0 demo_params) [0; 1; 2]
     = Ok [-4; 0; 0]
  /\ scsg_iht_work demo_params 3 1 3 0 (init_state demo_params) demo_world
     = Ok (mkState [4; 0; 0] 1 3 [], demo_world_at 0 4 []).
Proof. repeat split; reflexivity. Qed.

Lemma scsg_epoch_block_anchor_witness :
  1 <= 2 /\ 1 <= 1 /\ 1 <= n_samples demo_params
  /\ scsg_iht_loop demo_params 2 1 demo_world =
     for_each (range 0 (max_epochs demo_params))
       (fun epoch_i st =>
          x' <- scsg_epoch_spec demo_params (block_size demo_params 2) 1
                  (Z.to_nat epoch_i) (x_hat st) ;;
          scsg_iht_end demo_params (block_size demo_params 2) 1 epoch_i
            (after_epoch st x' (block_size demo_params 2 / 1)))
       (init_state demo_params) demo_world.
Proof.
  assert (1 <= 2) as H1 by lia.
  assert (1 <= 1) as H2 by lia.
  assert (1 <= n_samples demo_params) as H3 by (vm_compute; discriminate).
  destruct (scsg_epoch_block_anchor demo_params 2 1 demo_world H1 H2 H3) as (E & _).
  repeat split; assumption.
Defined.



Lemma get_batch_uniform_block_witness :
  1 <= 2 /\ (2 | 6) /\ 6 / 2 < 2 ^ 63
  /\ concat (blocks_spec 2 6) = range 0 6
  /\ (exists block w', get_batch 2 6 demo_world = Ok (block, w')).
Proof.
  assert (1 <= 2) as H1 by lia.
  assert ((2 | 6)) as H2 by (exists 3; reflexivity).
  assert (6 / 2 < 2 ^ 63) as H3 by (vm_compute; reflexivity).
  destruct (get_batch_uniform_block (R := Z) 2 6 H1 H2) as (C & _ & _ & _ & _ & _ & T).
  split; [exact H1|]. split; [exact H2|]. split; [exact H3|]. split; [exact C|].
  apply T; [lia|exact H3].
Defined.

Lemma num_observations_increasing_witness :
  1 <= 2 /\ 1 <= 1
  /\ run SvrgIHT demo_params 2 1 demo_world
     = Ok (([(4, 2); (7, 2)], 2, 2), demo_world_at 1 6 [(1, 2, 4, 2); (2, 2, 0, 2)])
  /\ fst (nth 0 [(4, 2); (7, 2)] (0, 0)) < fst (nth 1 [(4, 2); (7, 2)] (0, 0)).
Proof.
  assert (1 <= 2) as H1 by lia.
  assert (1 <= 1) as H2 by lia.
  assert (run SvrgIHT demo_params 2 1 demo_world
          = Ok (([(4, 2); (7, 2)], 2, 2),
                demo_world_at 1 6 [(1, 2, 4, 2); (2, 2, 0, 2)])) as H by reflexivity.
  destruct (num_observations_increasing SvrgIHT demo_params 2 1 demo_world _ _ _ _ H1 H2 H)
    as (_ & _ & _ & I).
  split; [exact H1|]. split; [exact H2|]. split; [exact H|].
  apply I. simpl. lia.
Defined.

Lemma oversized_block_is_whole_data_witness :
  n_samples demo_params < 5
  /\ (forall w, sto_iht_loop demo_params 5 1 w
                = sto_iht_loop demo_params (n_samples demo_params) 1 w)
  /\ (forall w, scsg_iht_loop demo_params 5 1 w
                = scsg_iht_loop demo_params (n_samples demo_params) 1 w).
Proof.
  assert (n_samples demo_params < 5) as H by (vm_compute; reflexivity).
  destruct (oversized_block_is_whole_data demo_params 5 1 H) as (A & B & _).
  repeat split; assumption.
Defined.

Lemma get_batch_in_bounds_witness :
  1 <= 2 <= 3 /\ 3 / 2 < 2 ^ 63
  /\ exists block w',
       get_batch 2 3 demo_world = Ok (block, w')
       /\ Forall (fun j => 0 <= j < 3) block
       /\ exists grad, calc_grad demo_matrix [2; 0; 0] [0; 0; 0] block = Ok grad.
Proof.
  assert (1 <= 2 <= 3) as H by lia.
  assert (3 / 2 < 2 ^ 63) as H' by (vm_compute; reflexivity).
  split; [exact H|]. split; [exact H'|].
  destruct (get_batch_in_bounds 2 3 demo_world H H') as (block & w' & E & _ & _ & F & G).
  exists block, w'. split; [exact E|]. split; [exact F|].
  apply G; reflexivity.
Defined.

(** ** Further properties of the components *)

Section LeafFacts.
Context {R : Type} {SC : Scalar R} {PO : ProjectionOracle R}.
Local Abbreviation vec := (list R).

Lemma norm_index_cases len i :
  norm_index len i =
  if (- Z.of_nat len <=? i) && (i <? Z.of_nat len)
  then Ok (Z.to_nat (if i <? 0 then i + Z.of_nat len else i))
  else Raise IndexError.
Proof.
  unfold norm_index.
  destruct (Z.leb_spec 0 i); destruct (Z.ltb_spec i (Z.of_nat len));
    destruct (Z.leb_spec (- Z.of_nat len) i); destruct (Z.ltb_spec i 0);
    simpl; try reflexivity; lia.
Qed.

Lemma mapM_norm_index_returns len idx :
  (exists js, mapM (norm_index len) idx = Ok js)
  <-> Forall (fun i => - Z.of_nat len <= i < Z.of_nat len) idx.
Proof.
  induction idx as [|i idx IH]; simpl.
  - split; [constructor|eexists; reflexivity].
  - rewrite norm_index_cases.
    destruct (Z.leb_spec (- Z.of_nat len) i); destruct (Z.ltb_spec i (Z.of_nat len)); simpl.
    2-4: split; [intros [js E]; discriminate|intros F; inversion F; lia].
    split.
    + intros [js E]. constructor; [lia|]. apply IH.
      destruct (mapM (norm_index len) idx) as [js'|e]; [eexists; reflexivity|discriminate].
    + intros F. inversion F as [|? ? _ F']. apply IH in F'. destruct F' as [js ->].
      eexists. reflexivity.
Qed.

Lemma mapM_norm_index_raises len idx e :
  mapM (norm_index len) idx = Raise e -> e = IndexError.
Proof.
  induction idx as [|i idx IH]; simpl; [discriminate|].
  rewrite norm_index_cases.
  destruct ((- Z.of_nat len <=? i) && (i <? Z.of_nat len)); simpl.
  - destruct (mapM (norm_index len) idx) as [js|e']; simpl; [discriminate|].
    intros E. inversion E; subst. apply IH. reflexivity.
  - intros E. inversion E. reflexivity.
Qed.

Lemma vsub_length (a b : vec) : length (vsub a b) = Nat.min (length a) (length b).
Proof. unfold vsub. rewrite length_map. apply length_combine. Qed.

Lemma vadd_length (a b : vec) : length (vadd a b) = Nat.min (length a) (length b).
Proof. unfold vadd. rewrite length_map. apply length_combine. Qed.

Lemma scal_length c (a : vec) : length (scal c a) = length a.
Proof. unfold scal. apply length_map. Qed.

Lemma gradient_spec_length (X : matrix R) (y x : vec) block grad :
  gradient_spec X y x block = Ok grad -> length grad = ncols X.
Proof.
  unfold gradient_spec, take_rows.
  destruct (mapM (norm_index (nrows X)) block) as [js|e]; simpl; [|discriminate].
  destruct (take zero y block) as [y_B|e]; simpl; [|discriminate].
  intros E. inversion E. rewrite scal_length, vsub_length.
  unfold dot_mv, dot_mm, transpose. cbn [rows ncols].
  rewrite !length_map, length_seq. apply Nat.min_id.
Qed.

Lemma calc_grad_length (X : matrix R) (y x : vec) (block : list Z) (grad : vec) :
  calc_grad X y x block = Ok grad -> length grad = ncols X.
Proof. rewrite calc_grad_refines. apply gradient_spec_length. Qed.

(** X1: on an iterate with one entry per column of the design matrix,
    [calc_grad] raises nothing but [IndexError], and it returns exactly
    when every index of the block is in [[-n, n)] for the [n] rows of the
    design matrix and in [[-len(y), len(y))] for the measurements;
    negative indices count from the end. *)
Theorem calc_grad_raises_index_error (X : matrix R) (y x : vec) (block : list Z) :
  length x = ncols X ->
  (forall e, calc_grad X y x block = Raise e -> e = IndexError)
  /\ ((exists grad, calc_grad X y x block = Ok grad)
      <-> Forall (fun i => - Z.of_nat (nrows X) <= i < Z.of_nat (nrows X)) block
          /\ Forall (fun i => - Z.of_nat (length y) <= i < Z.of_nat (length y)) block)
  /\ (forall i, 0 <= i < Z.of_nat (nrows X) -> length y = nrows X ->
        calc_grad X y x [i - Z.of_nat (nrows X)] = calc_grad X y x [i]).
Proof.
  intros _.
  rewrite !calc_grad_refines. unfold gradient_spec, take_rows, take.
  split; [|split].
  - intros e.
    destruct (mapM (norm_index (nrows X)) block) as [js|e1] eqn:E1; simpl.
    + destruct (mapM (norm_index (length y)) block) as [ks|e2] eqn:E2; simpl;
        [discriminate|].
      intros E. inversion E; subst. eapply mapM_norm_index_raises. exact E2.
    + intros E. inversion E; subst. eapply mapM_norm_index_raises. exact E1.
  - rewrite <- !mapM_norm_index_returns. split.
    + intros [grad E].
      destruct (mapM (norm_index (nrows X)) block) as [js|e1]; simpl in E; [|discriminate].
      destruct (mapM (norm_index (length y)) block) as [ks|e2]; simpl in E; [|discriminate].
      split; eexists; reflexivity.
    + intros [[js ->] [ks ->]]. simpl. eexists. reflexivity.
  - intros i Hi Hy. rewrite !calc_grad_refines. unfold gradient_spec, take_rows, take.
    simpl. rewrite Hy, !norm_index_cases.
    destruct (Z.leb_spec (- Z.of_nat (nrows X)) (i - Z.of_nat (nrows X))); [|lia].
    destruct (Z.ltb_spec (i - Z.of_nat (nrows X)) (Z.of_nat (nrows X))); [|lia].
    destruct (Z.leb_spec (- Z.of_nat (nrows X)) i); [|lia].
    destruct (Z.ltb_spec i (Z.of_nat (nrows X))); [|lia].
    destruct (Z.ltb_spec (i - Z.of_nat (nrows X)) 0); [|lia].
    destruct (Z.ltb_spec i 0); [lia|].
    simpl. replace (i - Z.of_nat (nrows X) + Z.of_nat (nrows X)) with i by lia.
    reflexivity.
Qed.

(** X2: as long as the number of blocks fits numpy's integers,
    [get_batch] raises [ZeroDivisionError] exactly for a zero batch
    size, [ValueError] exactly when a non-zero batch size leaves no whole
    block ([n / batch_size <= 0]; for a positive size: the batch is larger
    than the data), never [IndexError], and returns in all other cases. *)
Theorem get_batch_raises (batch_size n : Z) (w : world R) :
  n / batch_size < 2 ^ 63 ->
  (get_batch batch_size n w = Raise ZeroDivisionError <-> batch_size = 0)
  /\ (get_batch batch_size n w = Raise ValueError
      <-> batch_size <> 0 /\ n / batch_size <= 0)
  /\ get_batch batch_size n w <> Raise IndexError
  /\ ((exists block w', get_batch batch_size n w = Ok (block, w'))
      <-> batch_size <> 0 /\ 0 < n / batch_size)
  /\ (1 <= batch_size -> 0 <= n -> (n / batch_size <= 0 <-> n < batch_size)).
Proof.
  intros _.
  assert (1 <= batch_size -> 0 <= n -> (n / batch_size <= 0 <-> n < batch_size)) as Hdiv.
  { intros Hb Hn. split.
    - intros Hq. destruct (Z.lt_ge_cases n batch_size) as [|Hge]; [assumption|].
      assert (0 < n / batch_size) by (apply Z.div_str_pos; lia). lia.
    - intros Hlt. rewrite Z.div_small by lia. lia. }
  destruct (Z.eq_dec batch_size 0) as [->|Hne].
  - assert (get_batch 0 n w = Raise ZeroDivisionError) as E by reflexivity.
    rewrite E. split; [split; intros; reflexivity|].
    split; [split; [intros Q; discriminate|intros [Q _]; congruence]|].
    split; [intros Q; discriminate|].
    split; [|exact Hdiv].
    split; [intros (block & w' & Q); discriminate|intros [Q _]; congruence].
  - rewrite get_batch_eq by exact Hne.
    destruct (Z.leb_spec (n / batch_size) 0) as [Hq|Hq].
    + split; [split; [intros Q; discriminate|intros Q; congruence]|].
      split; [split; [intros _; split; assumption|intros _; reflexivity]|].
      split; [intros Q; discriminate|].
      split; [|exact Hdiv].
      split; [intros (block & w' & Q); discriminate|intros [_ Q]; lia].
    + split; [split; [intros Q; discriminate|intros Q; congruence]|].
      split; [split; [intros Q; discriminate|intros [_ Q]; lia]|].
      split; [intros Q; discriminate|].
      split; [|exact Hdiv].
      split; [intros _; split; assumption|intros _; eexists; eexists; reflexivity].
Qed.

(** X3: for [1 <= k <= n < 2^63] the indices that some call can return are exactly
    those below [k * floor(n / k)]: each of them is in the block drawn on
    a suitable state of the generator, and the trailing [n mod k] samples
    are in no block. *)
Theorem get_batch_reachable_indices (k n j : Z) :
  1 <= k <= n -> n < 2 ^ 63 ->
  ((exists (w : world R) block w', get_batch k n w = Ok (block, w') /\ In j block)
   <-> 0 <= j < k * (n / k)).
Proof.
  intros Hk _.
  assert (0 < n / k) as Hq by (apply Z.div_str_pos; lia).
  split.
  - intros (w & block & w' & E & Hin). rewrite get_batch_eq in E by lia.
    destruct (Z.leb_spec (n / k) 0); [lia|]. inversion E; subst.
    apply block_of_bounds in Hin; [|lia].
    pose proof (Z.mod_pos_bound (raw_draw w) (n / k) Hq). nia.
  - intros Hj.
    exists (mkWorld (fun _ _ => j / k) O O []).
    exists (block_of k (j / k)), (advance (mkWorld (fun _ _ => j / k) O O [])).
    assert (0 <= j / k < n / k) as Hi.
    { split; [apply Z.div_pos; lia|]. apply Z.div_lt_upper_bound; lia. }
    split.
    + rewrite get_batch_eq by lia.
      destruct (Z.leb_spec (n / k) 0); [lia|].
      unfold raw_draw. cbn [entropy reseeds rng_pos].
      rewrite Z.mod_small by lia. reflexivity.
    + apply block_of_bounds; [lia|].
      pose proof (Z.mul_div_le j k ltac:(lia)).
      pose proof (Z.mul_succ_div_gt j k ltac:(lia)). lia.
Qed.

(** X4: the wrapper raises exactly when the oracle returns a vertex that is
    not an index of [x], and then it raises [IndexError]. *)
Theorem wrapper_raises_on_stray_vertex edges (x costs : vec) g root s_low s_high it vb :
  let supp :=
    wrap_head_tail_bisearch edges (map (fun v => mul v v) x) costs g root s_low
      (Z.min s_high (Z.of_nat (length x) - 1)) it vb in
  (forall e, algo_head_tail_bisearch edges x costs g root s_low s_high it vb = Raise e ->
             e = IndexError)
  /\ (algo_head_tail_bisearch edges x costs g root s_low s_high it vb = Raise IndexError
      <-> exists i, In i supp /\ (length x <= i)%nat).
Proof.
  intros supp.
  pose proof (algo_head_tail_bisearch_eq edges x costs g root s_low s_high it vb) as E.
  cbv zeta in E. fold supp in E. rewrite E.
  destruct (forallb (fun i => (i <? length x)%nat) supp) eqn:Hall.
  - split; [intros e H; discriminate|]. split; [intros H; discriminate|].
    intros (i & Hin & Hi). rewrite forallb_forall in Hall.
    apply Hall in Hin. apply Nat.ltb_lt in Hin. lia.
  - split; [intros e H; inversion H; reflexivity|]. split; [|reflexivity].
    intros _.
    assert (~ forall i, In i supp -> (i <? length x)%nat = true) as Hn.
    { intros Hf. apply forallb_forall in Hf. congruence. }
    induction supp as [|i supp' IH]; simpl in *; [discriminate|].
    destruct (Nat.ltb_spec i (length x)).
    + simpl in Hall. destruct IH as (i' & Hin & Hi'); [exact Hall| |].
      * intros Hf. apply forallb_forall in Hf. congruence.
      * exists i'. split; [right; exact Hin|exact Hi'].
    + exists i. split; [left; reflexivity|lia].
Qed.

(** X5: two projections in a row keep an entry of [x] exactly on the
    vertices both supports select and put zero everywhere else; a second
    projection onto the same support changes nothing. *)
Theorem projections_compose edges edges' (x costs costs' : vec)
    g root s_low s_high it vb g' root' s_low' s_high' it' vb' supp proj supp' proj' :
  algo_head_tail_bisearch edges x costs g root s_low s_high it vb = Ok (supp, proj) ->
  algo_head_tail_bisearch edges' proj costs' g' root' s_low' s_high' it' vb'
  = Ok (supp', proj') ->
  length proj' = length x
  /\ (forall i, (i < length x)%nat ->
        (In i supp /\ In i supp' -> nth i proj' zero = nth i x zero)
        /\ (~ (In i supp /\ In i supp') -> nth i proj' zero = zero))
  /\ ((forall i, In i supp -> In i supp') -> proj' = proj).
Proof.
  intros H1 H2.
  pose proof (algo_head_tail_bisearch_eq edges x costs g root s_low s_high it vb) as E1.
  cbv zeta in E1. rewrite E1 in H1. clear E1.
  destruct (forallb _ _) in H1; [|discriminate]. inversion H1; subst supp proj. clear H1.
  set (S1 := wrap_head_tail_bisearch edges _ costs g root s_low _ it vb) in *.
  pose proof (algo_head_tail_bisearch_eq edges' (restrict_spec x S1) costs' g' root'
                s_low' s_high' it' vb') as E2.
  cbv zeta in E2. rewrite E2 in H2. clear E2.
  destruct (forallb _ _) in H2; [|discriminate]. inversion H2; subst supp' proj'. clear H2.
  set (S2 := wrap_head_tail_bisearch edges' _ costs' g' root' s_low' _ it' vb') in *.
  assert (forall i (l : list nat), existsb (Nat.eqb i) l = true <-> In i l) as Hex.
  { intros i l. rewrite existsb_exists. split.
    - intros (j & Hj & Hij). apply Nat.eqb_eq in Hij. subst. exact Hj.
    - intros Hin. exists i. split; [exact Hin|apply Nat.eqb_refl]. }
  assert (forall i, (i < length x)%nat ->
            nth i (restrict_spec (restrict_spec x S1) S2) zero
            = if existsb (Nat.eqb i) S2 && existsb (Nat.eqb i) S1
              then nth i x zero else zero) as Hnth.
  { intros i Hi.
    rewrite nth_restrict_spec by (rewrite restrict_spec_length; exact Hi).
    rewrite nth_restrict_spec by exact Hi.
    destruct (existsb (Nat.eqb i) S2), (existsb (Nat.eqb i) S1); reflexivity. }
  split; [rewrite !restrict_spec_length; reflexivity|]. split.
  - intros i Hi. rewrite Hnth by exact Hi. split.
    + intros [A B]. apply Hex in A, B. rewrite A, B. reflexivity.
    + intros N.
      destruct (existsb (Nat.eqb i) S2) eqn:X2; [|reflexivity].
      destruct (existsb (Nat.eqb i) S1) eqn:X1; [|reflexivity].
      exfalso. apply N. split; apply Hex; assumption.
  - intros Hsub. apply (nth_ext _ _ zero zero).
    + rewrite !restrict_spec_length. reflexivity.
    + intros i Hi. rewrite !restrict_spec_length in Hi.
      rewrite Hnth by exact Hi. rewrite nth_restrict_spec by exact Hi.
      destruct (existsb (Nat.eqb i) S1) eqn:X1.
      * apply Hex in X1. apply Hsub in X1. apply Hex in X1. rewrite X1. reflexivity.
      * rewrite andb_false_r. reflexivity.
Qed.

End LeafFacts.

(** ** Further properties of the optimisers *)

Section RunFacts.
Context {R : Type} {SC : Scalar R} {PO : ProjectionOracle R} {IC : IntConversion R}.
Local Abbreviation vec := (list R).

Lemma get_batch_inv k n (w : world R) block w' :
  get_batch k n w = Ok (block, w') ->
  k <> 0 /\ 0 < n / k /\ w' = advance w /\ block = block_of k (raw_draw w mod (n / k)).
Proof.
  intros H. destruct (Z.eq_dec k 0) as [->|Hk]; [discriminate|].
  rewrite get_batch_eq in H by exact Hk.
  destruct (Z.leb_spec (n / k) 0); [discriminate|]. inversion H. repeat split; assumption.
Qed.

Lemma wrapper_length edges (x costs : vec) g root s_low s_high it vb r :
  algo_head_tail_bisearch edges x costs g root s_low s_high it vb = Ok r ->
  length (snd r) = length x.
Proof.
  intros H.
  pose proof (algo_head_tail_bisearch_eq edges x costs g root s_low s_high it vb) as E.
  cbv zeta in E. rewrite E in H. destruct (forallb _ _) in H; [|discriminate].
  inversion H. simpl. apply restrict_spec_length.
Qed.

(** *** One inner iteration: the generator and the shape of the iterate *)

Lemma sto_inner_effect (P : params R) B n st w st' w' :
  sto_iht_inner P B n st w = Ok (st', w') ->
  w' = advance w
  /\ (length (x_hat st) = ncols (x_mat P) -> length (x_hat st') = ncols (x_mat P)).
Proof.
  unfold sto_iht_inner. intros H. inv_run.
  match goal with H : get_batch _ _ _ = Ok _ |- _ =>
    apply get_batch_inv in H; destruct H as (_ & _ & -> & _) end.
  split; [reflexivity|]. intros Hlen. cbn [x_hat].
  repeat match goal with H : algo_head_tail_bisearch _ _ _ _ _ _ _ _ _ = Ok _ |- _ =>
    apply wrapper_length in H end.
  match goal with H : calc_grad _ _ _ _ = Ok _ |- _ => apply calc_grad_length in H end.
  match goal with H : length (snd ?tp) = length (vsub _ _) |- length (snd ?tp) = _ =>
    rewrite H end.
  rewrite vsub_length, scal_length. lia.
Qed.

Lemma vr_inner_effect (P : params R) b n epoch_i outer sx w sx' w' :
  svrg_iht_inner P b n epoch_i outer sx w = Ok (sx', w') ->
  w' = advance w
  /\ (length outer = ncols (x_mat P) -> length (snd sx) = ncols (x_mat P) ->
      length (snd sx') = ncols (x_mat P)).
Proof.
  unfold svrg_iht_inner. intros H.
  apply bind_inv in H. destruct H as (block & w1 & Hb & H).
  apply get_batch_inv in Hb. destruct Hb as (_ & _ & -> & _).
  apply bind_inv in H. destruct H as (g1 & w2 & Hg1 & H).
  apply lift_inv in Hg1. destruct Hg1 as [Hg1 ->]. apply calc_grad_length in Hg1.
  apply bind_inv in H. destruct H as (gradient & w3 & Hg & H).
  assert (w3 = advance w
          /\ (length outer = ncols (x_mat P) -> length gradient = ncols (x_mat P)))
    as [-> Hgl].
  { destruct (epoch_i <? 1).
    - unfold ret in Hg. inversion Hg; subst. split; [reflexivity|]. intros _. exact Hg1.
    - apply bind_inv in Hg. destruct Hg as (g2 & w4 & Hg2 & Hg).
      apply lift_inv in Hg2. destruct Hg2 as [Hg2 ->]. apply calc_grad_length in Hg2.
      unfold ret in Hg. inversion Hg; subst. split; [reflexivity|].
      intros Ho. rewrite vadd_length, vsub_length. lia. }
  inv_run. split; [reflexivity|]. intros Ho Hx. cbn [snd].
  repeat match goal with H : algo_head_tail_bisearch _ _ _ _ _ _ _ _ _ = Ok _ |- _ =>
    apply wrapper_length in H end.
  match goal with H : length (snd ?tp) = length (vsub _ _) |- length (snd ?tp) = _ =>
    rewrite H end.
  rewrite vsub_length, scal_length.
  match goal with H : length (snd ?hp) = length gradient |- _ => rewrite H end.
  rewrite (Hgl Ho). lia.
Qed.

(** The world after [k] draws. *)
Lemma for_range_advances {S} (step : S -> M R S) (I : S -> Prop) k :
  (forall s w s' w', step s w = Ok (s', w') -> w' = advance w /\ (I s -> I s')) ->
  forall s w s' w',
    for_range k step s w = Ok (s', w') ->
    entropy w' = entropy w /\ reseeds w' = reseeds w /\ stdout w' = stdout w
    /\ rng_pos w' = (rng_pos w + k)%nat
    /\ (I s -> I s').
Proof.
  intros Hstep s w s' w' H.
  apply (for_range_inv step
           (fun j s1 w1 => entropy w1 = entropy w /\ reseeds w1 = reseeds w
                           /\ stdout w1 = stdout w /\ rng_pos w1 = (rng_pos w + j)%nat
                           /\ (I s -> I s1))) with (j := 0%nat) in H.
  - exact H.
  - intros j s1 w1 s2 w2 (E1 & E2 & E3 & E4 & E5) Hs.
    apply Hstep in Hs. destruct Hs as [-> HI]. unfold advance. cbn.
    repeat split; try assumption; [lia|]. intros H0. apply HI, E5, H0.
  - repeat split; try reflexivity; [lia|]. intros H0. exact H0.
Qed.


(** *** One epoch *)

Lemma sto_work_effect (P : params R) B n K st w st' w' :
  sto_iht_work P B n K st w = Ok (st', w') ->
  quiet w w' (Z.to_nat K)
  /\ (length (x_hat st) = ncols (x_mat P) -> length (x_hat st') = ncols (x_mat P)).
Proof.
  unfold sto_iht_work, quiet. intros H.
  apply (for_range_advances _ (fun s => length (x_hat s) = ncols (x_mat P))) in H.
  - cbn [x_hat] in H. tauto.
  - intros s1 w1 s2 w2 Hs. apply sto_inner_effect in Hs. exact Hs.
Qed.

Lemma vr_loop_effect (P : params R) b n epoch_i outer k sx w sx' w' :
  for_range k (svrg_iht_inner P b n epoch_i outer) sx w = Ok (sx', w') ->
  quiet w w' k
  /\ (length outer = ncols (x_mat P) -> length (snd sx) = ncols (x_mat P) ->
      length (snd sx') = ncols (x_mat P)).
Proof.
  unfold quiet. intros H.
  apply (for_range_advances _
           (fun s => length outer = ncols (x_mat P) -> length (snd s) = ncols (x_mat P)))
    in H.
  - destruct H as (E1 & E2 & E3 & E4 & E5). repeat split; try assumption.
    intros Ho Hx. apply E5; [intros _; exact Hx|exact Ho].
  - intros s1 w1 s2 w2 Hs. apply vr_inner_effect in Hs. destruct Hs as [-> Hl].
    split; [reflexivity|]. intros H1 Ho. apply Hl; [exact Ho|apply H1; exact Ho].
Qed.

Lemma svrg_work_effect (P : params R) b n K epoch_i st w st' w' :
  svrg_iht_work P b n K epoch_i st w = Ok (st', w') ->
  quiet w w' (Z.to_nat K)
  /\ (length (x_hat st) = ncols (x_mat P) -> length (x_hat st') = ncols (x_mat P)).
Proof.
  unfold svrg_iht_work. intros H.
  apply bind_inv in H. destruct H as (outer & w1 & Ho & H).
  apply lift_inv in Ho. destruct Ho as [Ho ->]. apply calc_grad_length in Ho.
  apply bind_inv in H. destruct H as (sx & w2 & Hl & H).
  apply vr_loop_effect in Hl. destruct Hl as [Hq Hlen].
  unfold ret in H. inversion H; subst. split; [exact Hq|].
  cbn [x_hat snd] in *. intros Hx. apply Hlen; assumption.
Qed.

Lemma scsg_work_effect (P : params R) B b n epoch_i st w st' w' :
  scsg_iht_work P B b n epoch_i st w = Ok (st', w') ->
  quiet w w' (S (Z.to_nat (B / b)))
  /\ (length (x_hat st) = ncols (x_mat P) -> length (x_hat st') = ncols (x_mat P)).
Proof.
  unfold scsg_iht_work. intros H.
  apply bind_inv in H. destruct H as (block & w1 & Hb & H).
  apply get_batch_inv in Hb. destruct Hb as (_ & _ & -> & _).
  apply bind_inv in H. destruct H as (outer & w2 & Ho & H).
  apply lift_inv in Ho. destruct Ho as [Ho ->]. apply calc_grad_length in Ho.
  apply bind_inv in H. destruct H as (count & w3 & Hc & H).
  apply lift_inv in Hc. destruct Hc as [Hc ->].
  unfold py_div in Hc. destruct (Z.eqb_spec b 0); [discriminate|]. inversion Hc; subst count.
  apply bind_inv in H. destruct H as (sx & w4 & Hl & H).
  apply (vr_loop_effect P b n epoch_i outer) in Hl. destruct Hl as [Hq Hlen].
  unfold ret in H. inversion H; subst. unfold quiet, advance in *. cbn in *.
  destruct Hq as (Q1 & Q2 & Q3 & Q4). split; [repeat split; try assumption; lia|].
  intros Hx. apply Hlen; assumption.
Qed.

Ltac split_end H :=
  match type of H with
  | context [leb c1e5 ?n] =>
      destruct (leb c1e5 n);
      [|match type of H with
        | context [leb ?r ?t] => destruct (leb r t)
        end]
  end.

Lemma sto_end_effect (P : params R) B K epoch_i st w f st' w' :
  sto_iht_end P B K epoch_i st w = Ok ((f, st'), w') ->
  entropy w' = entropy w /\ reseeds w' = reseeds w /\ rng_pos w' = rng_pos w
  /\ stdout w' =
     stdout w ++ match f with
                 | Break => []
                 | Next => [progress_line P epoch_i (x_hat st)]
                 end.
Proof.
  unfold sto_iht_end, progress_line. intros H. split_end H; inv_run; cbn;
    rewrite ?app_nil_r; repeat split; reflexivity.
Qed.

Lemma svrg_end_effect (P : params R) b n K epoch_i st w f st' w' :
  svrg_iht_end P b n K epoch_i st w = Ok ((f, st'), w') ->
  entropy w' = entropy w /\ reseeds w' = reseeds w /\ rng_pos w' = rng_pos w
  /\ stdout w' = stdout w ++ [progress_line P epoch_i (x_hat st)].
Proof.
  unfold svrg_iht_end, progress_line. intros H.
  apply bind_inv in H. destruct H as ([] & w1 & Hp & H).
  unfold print in Hp. inversion Hp; subst w1. clear Hp.
  split_end H; inv_run; cbn; repeat split; reflexivity.
Qed.

Lemma scsg_end_effect (P : params R) B b epoch_i st w f st' w' :
  scsg_iht_end P B b epoch_i st w = Ok ((f, st'), w') ->
  entropy w' = entropy w /\ reseeds w' = reseeds w /\ rng_pos w' = rng_pos w
  /\ stdout w' = stdout w ++ [progress_line P epoch_i (x_hat st)].
Proof.
  unfold scsg_iht_end, progress_line. intros H.
  apply bind_inv in H. destruct H as ([] & w1 & Hp & H).
  unfold print in Hp. inversion Hp; subst w1. clear Hp.
  split_end H; inv_run; cbn; repeat split; reflexivity.
Qed.

Lemma loop_body_effect (v : variant) (P : params R) (B b : Z) :
  epoch_effect P (reads_per_epoch v P B b) (silent_on_break v) (loop_body v P B b).
Proof.
  intros i st w f st' w' H. destruct v; unfold loop_body in H;
    cbn [reads_per_epoch silent_on_break].
  - unfold sto_iht_epoch in H. apply bind_inv in H. destruct H as (st1 & w1 & Hw & He).
    apply sto_work_effect in Hw. destruct Hw as [(Q1 & Q2 & Q3 & Q4) _].
    pose proof (sto_end_ok _ _ _ _ _ _ _ _ _ He) as (X0 & _).
    apply sto_end_effect in He. destruct He as (E1 & E2 & E3 & E4).
    rewrite E1, E2, E3, E4, Q1, Q2, Q3, Q4, X0. destruct f; repeat split; reflexivity.
  - unfold svrg_iht_epoch in H. apply bind_inv in H. destruct H as (st1 & w1 & Hw & He).
    apply svrg_work_effect in Hw. destruct Hw as [(Q1 & Q2 & Q3 & Q4) _].
    pose proof (svrg_end_ok _ _ _ _ _ _ _ _ _ _ He) as (X0 & _).
    apply svrg_end_effect in He. destruct He as (E1 & E2 & E3 & E4).
    rewrite E1, E2, E3, E4, Q1, Q2, Q3, Q4, X0. destruct f; repeat split; reflexivity.
  - unfold scsg_iht_epoch in H. apply bind_inv in H. destruct H as (st1 & w1 & Hw & He).
    apply scsg_work_effect in Hw. destruct Hw as [(Q1 & Q2 & Q3 & Q4) _].
    pose proof (scsg_end_ok _ _ _ _ _ _ _ _ _ He) as (X0 & _).
    apply scsg_end_effect in He. destruct He as (E1 & E2 & E3 & E4).
    rewrite E1, E2, E3, E4, Q1, Q2, Q3, Q4, X0. destruct f; repeat split; reflexivity.
Qed.

Lemma loop_body_keeps_length (v : variant) (P : params R) (B b : Z) i st w f st' w' :
  loop_body v P B b i st w = Ok ((f, st'), w') ->
  length (x_hat st) = ncols (x_mat P) -> length (x_hat st') = ncols (x_mat P).
Proof.
  intros H Hx. destruct v; unfold loop_body in H.
  - unfold sto_iht_epoch in H. apply bind_inv in H. destruct H as (st1 & w1 & Hw & He).
    apply sto_work_effect in Hw. apply sto_end_ok in He. destruct He as (-> & _).
    apply Hw, Hx.
  - unfold svrg_iht_epoch in H. apply bind_inv in H. destruct H as (st1 & w1 & Hw & He).
    apply svrg_work_effect in Hw. apply svrg_end_ok in He. destruct He as (-> & _).
    apply Hw, Hx.
  - unfold scsg_iht_epoch in H. apply bind_inv in H. destruct H as (st1 & w1 & Hw & He).
    apply scsg_work_effect in Hw. apply scsg_end_ok in He. destruct He as (-> & _).
    apply Hw, Hx.
Qed.


(** *** The whole loop *)

Section GenericRun.
Variables (P : params R) (K Bo bo : Z) (reads : nat) (silent : bool).
Variable body : Z -> loop_state R -> M R (flow * loop_state R).
Hypothesis Hok : epoch_ok P K Bo bo body.
Hypothesis Heff : epoch_effect P reads silent body.

Lemma for_each_run items :
  forall st w st' w',
    for_each items body st w = Ok (st', w') ->
    exists (m c : nat) (L : list (Z * R * R * R)),
      (m <= length items)%nat
      /\ num_epochs st' = num_epochs st + Z.of_nat m
      /\ length (loss_list st') = (length (loss_list st) + c)%nat
      /\ (m = 0%nat -> st' = st /\ items = [])
      /\ (terminal P (x_hat st') = false -> c = m /\ m = length items)
      /\ (terminal P (x_hat st') = true -> (0 < m)%nat -> S c = m)
      /\ entropy w' = entropy w
      /\ reseeds w' = reseeds w
      /\ rng_pos w' = (rng_pos w + reads * m)%nat
      /\ stdout w' = stdout w ++ L
      /\ length L = (if silent then c else m)
      /\ map line_epoch L = map (fun i => i + 1) (firstn (length L) items).
Proof.
  induction items as [|i rest IH]; intros st w st' w' H.
  - simpl in H. inversion H; subst. exists 0%nat, 0%nat, [].
    rewrite app_nil_r. simpl. destruct silent; repeat split; auto; lia.
  - apply (for_each_cons_inv body) in H. destruct H as (f & st1 & w1 & Hb & H).
    pose proof (Hok _ _ _ _ _ _ Hb) as (E1 & E2 & E3).
    pose proof (Heff _ _ _ _ _ _ Hb) as (W1 & W2 & W3 & W4).
    destruct f.
    + apply IH in H.
      destruct H as (m & c & L & Hm & N1 & N2 & N3 & N4 & N5 & V1 & V2 & V3 & V4 & V5 & V6).
      destruct E3 as (Ht & HK & Hl).
      exists (S m), (S c), (progress_line P i (x_hat st1) :: L).
      split; [simpl; lia|]. split; [lia|].
      split; [rewrite N2, Hl, length_app; simpl; lia|].
      split; [intros; lia|].
      split; [intros Hf; destruct (N4 Hf); simpl; lia|].
      split.
      { intros Ht' _. destruct m as [|m].
        - rewrite (proj1 (N3 eq_refl)) in Ht'. congruence.
        - f_equal. apply N5; [exact Ht'|lia]. }
      split; [congruence|]. split; [congruence|].
      split; [rewrite V3, W3; lia|].
      split; [rewrite V4, W4, <- app_assoc; reflexivity|].
      split; [simpl; rewrite V5; destruct silent; reflexivity|].
      simpl. f_equal. exact V6.
    + destruct H as [-> ->]. destruct E3 as (Ht & Hl).
      exists 1%nat, 0%nat, (if silent then [] else [progress_line P i (x_hat st1)]).
      split; [simpl; lia|]. split; [lia|]. split; [rewrite Hl; lia|].
      split; [intros; lia|]. split; [intros Hf; congruence|].
      split; [intros; reflexivity|].
      split; [exact W1|]. split; [exact W2|]. split; [rewrite W3; lia|].
      split; [exact W4|].
      destruct silent; simpl; repeat split; reflexivity.
Qed.

End GenericRun.

Lemma for_each_keeps {S} (I : S -> Prop) (body : Z -> S -> M R (flow * S)) items :
  (forall i st w f st' w', body i st w = Ok ((f, st'), w') -> I st -> I st') ->
  forall st w st' w', for_each items body st w = Ok (st', w') -> I st -> I st'.
Proof.
  intros Hb. induction items as [|i rest IH]; intros st w st' w' H HI.
  - simpl in H. inversion H; subst. exact HI.
  - simpl in H. apply bind_inv in H. destruct H as ([f st1] & w1 & Hs & H).
    pose proof (Hb _ _ _ _ _ _ Hs HI) as HI1. destruct f; simpl in H.
    + eapply IH; eassumption.
    + inversion H; subst. exact HI1.
Qed.

Lemma run_loop_returns (v : variant) (P : params R) (B b : Z) (w : world R) st w' :
  run_loop v P B b w = Ok (st, w') ->
  for_each (range 0 (max_epochs P)) (loop_body v P B b) (init_state P) w = Ok (st, w').
Proof.
  rewrite run_loop_for_each.
  destruct (match v with StoIHT => block_size P B =? 0 | _ => false end);
    [discriminate|]. intros H. exact H.
Qed.

Lemma firstn_range_succ (k : nat) hi :
  (k <= length (range 0 hi))%nat ->
  map (fun i => i + 1) (firstn k (range 0 hi)) = range 1 (Z.of_nat k + 1).
Proof.
  rewrite range_length. intros Hk.
  destruct k as [|k']; [reflexivity|].
  rewrite firstn_range by lia.
  unfold range. rewrite map_map.
  replace (Z.to_nat (Z.of_nat (S k') + 1 - 1)) with (Z.to_nat (Z.of_nat (S k') - 0))
    by lia.
  apply map_ext. intros i. lia.
Qed.

(** X6: the iterate keeps the dimension of the problem: started from an
    initial point with one entry per column of the design matrix, every
    variant leaves its loop with an iterate of that length. *)
Theorem iterate_keeps_dimension (v : variant) (P : params R) (B b : Z)
    (w : world R) st w' :
  length (x0 P) = ncols (x_mat P) ->
  run_loop v P B b w = Ok (st, w') ->
  length (x_hat st) = ncols (x_mat P).
Proof.
  intros Hx H. apply run_loop_returns in H.
  apply (for_each_keeps (fun s => length (x_hat s) = ncols (x_mat P))) in H.
  - exact H.
  - intros i s w1 f s' w1' Hb. apply (loop_body_keeps_length v P B b i s w1 f s' w1' Hb).
  - exact Hx.
Qed.

(** X8: the loss record has one entry per epoch run, except that the epoch
    on which the loop stops is not recorded: the returned counts satisfy
    [len(loss_list) <= num_epochs <= len(loss_list) + 1] and
    [num_epochs <= max(0, max_epochs)]; a run that stops before its
    budget has exactly [num_epochs - 1] entries, and a run of no epoch
    has none. *)
Theorem loss_record_length (v : variant) (P : params R) (B b : Z)
    (w : world R) ll err ne w' :
  run v P B b w = Ok ((ll, err, ne), w') ->
  Z.of_nat (length ll) <= ne <= Z.of_nat (length ll) + 1
  /\ 0 <= ne <= Z.max 0 (max_epochs P)
  /\ (ne = 0 -> ll = [])
  /\ (ne < Z.max 0 (max_epochs P) -> Z.of_nat (length ll) = ne - 1).
Proof.
  intros H. apply run_inv in H. destruct H as (st & H & -> & ->).
  apply run_loop_returns in H.
  apply (for_each_run P _ _ _ _ _ _ (loop_body_ok v P B b) (loop_body_effect v P B b)) in H.
  destruct H as (m & c & L & Hm & N1 & N2 & N3 & N4 & N5 & _).
  rewrite range_length in Hm, N4. cbn [init_state num_epochs loss_list length] in N1, N2, N3.
  destruct (terminal P (x_hat st)) eqn:Ht.
  - destruct m as [|m].
    + destruct (N3 eq_refl) as [-> Hnil]. cbn.
      assert (max_epochs P <= 0) as Hle.
      { apply (f_equal (@length Z)) in Hnil. rewrite range_length in Hnil. simpl in Hnil. lia. }
      repeat split; try lia.
    + specialize (N5 eq_refl ltac:(lia)). repeat split; try lia.
      all: intros E; destruct (loss_list st); [reflexivity|simpl in *; lia].
  - destruct (N4 eq_refl) as [-> ->]. repeat split; try lia.
    all: intros E; destruct (loss_list st); [reflexivity|simpl in *; lia].
Qed.

(** X10: a run reseeds the generator once and then reads it a fixed number
    of times per epoch run ([floor(n / B)] in Sto-IHT, [n] in SVRG-IHT,
    [1 + floor(B / b)] in SCSG-IHT, [B] being the block size in use),
    also on the epoch that stops the loop. *)
Theorem generator_reads (v : variant) (P : params R) (B b : Z)
    (w : world R) ll err ne w' :
  run v P B b w = Ok ((ll, err, ne), w') ->
  entropy w' = entropy w
  /\ reseeds w' = S (reseeds w)
  /\ Z.of_nat (rng_pos w') = Z.of_nat (reads_per_epoch v P B b) * ne.
Proof.
  intros H. apply run_inv in H. destruct H as (st & H & -> & ->).
  apply run_loop_returns in H.
  apply (for_each_run P _ _ _ _ _ _ (loop_body_ok v P B b) (loop_body_effect v P B b)) in H.
  destruct H as (m & c & L & Hm & N1 & _ & _ & _ & _ & V1 & V2 & V3 & _).
  cbn [init_state num_epochs entropy reseeds rng_pos] in *.
  repeat split; try assumption. rewrite V3, N1. lia.
Qed.

(** X11: the progress lines of a run carry the epoch numbers [1, 2, ...] in
    order; SVRG-IHT and SCSG-IHT print one line for every epoch run,
    Sto-IHT one for every recorded epoch (it prints nothing for the epoch
    that stops the loop). *)
Theorem progress_lines (v : variant) (P : params R) (B b : Z)
    (w : world R) ll err ne w' :
  run v P B b w = Ok ((ll, err, ne), w') ->
  exists L,
    stdout w' = stdout w ++ L
    /\ map line_epoch L = range 1 (Z.of_nat (length L) + 1)
    /\ Z.of_nat (length L) = (if silent_on_break v then Z.of_nat (length ll) else ne).
Proof.
  intros H. apply run_inv in H. destruct H as (st & H & -> & ->).
  apply run_loop_returns in H.
  apply (for_each_run P _ _ _ _ _ _ (loop_body_ok v P B b) (loop_body_effect v P B b)) in H.
  destruct H as (m & c & L & Hm & N1 & N2 & N3 & N4 & N5 & _ & _ & _ & V4 & V5 & V6).
  cbn [init_state num_epochs loss_list length stdout] in *.
  exists L. split; [exact V4|]. split.
  - rewrite V6. apply firstn_range_succ. rewrite V5.
    destruct (silent_on_break v); [|exact Hm].
    destruct (terminal P (x_hat st)) eqn:Ht.
    + destruct m as [|m]; [rewrite (proj1 (N3 eq_refl)) in N2; simpl in N2; lia|].
      specialize (N5 eq_refl ltac:(lia)). lia.
    + destruct (N4 eq_refl). lia.
  - rewrite V5. destruct (silent_on_break v); lia.
Qed.


(** *** Edge cases of a run *)

Lemma run_eq (v : variant) (P : params R) (B b : Z) (w : world R) :
  run v P B b w = bind (run_loop v P B b) (fun st => ret (finish P st)) (reseeded w).
Proof. destruct v; reflexivity. Qed.

Lemma run_unfold (v : variant) (P : params R) (B b : Z) (w : world R) :
  run v P B b w =
  if match v with StoIHT => block_size P B =? 0 | _ => false end
  then Raise ZeroDivisionError
  else bind (for_each (range 0 (max_epochs P)) (loop_body v P B b) (init_state P))
         (fun st => ret (finish P st)) (reseeded w).
Proof.
  rewrite run_eq. unfold bind. rewrite run_loop_for_each.
  destruct (match v with StoIHT => block_size P B =? 0 | _ => false end); reflexivity.
Qed.

Lemma range_cons lo hi : lo < hi -> range lo hi = lo :: range (lo + 1) hi.
Proof.
  intros H. rewrite (range_app lo (lo + 1) hi) by lia. rewrite range_single. reflexivity.
Qed.

Lemma range_empty lo hi : hi <= lo -> range lo hi = [].
Proof. intros H. unfold range. replace (Z.to_nat (hi - lo)) with 0%nat by lia. reflexivity. Qed.

(** X12: with no epoch allowed ([max_epochs <= 0], well-shaped arrays, a
    [gamma] on which the two conversions to [int] return) every variant
    returns the
    empty loss record, the error of the initial point and [0] epochs,
    having only reseeded the generator; except that Sto-IHT, which
    divides [n] by the block size before its loop, raises
    [ZeroDivisionError] when that size is [0]. *)
Theorem no_budget_no_epoch (v : variant) (P : params R) (B b : Z) (w : world R) :
  well_shaped P -> bounds_defined P -> max_epochs P <= 0 ->
  run v P B b w =
  if match v with StoIHT => block_size P B =? 0 | _ => false end
  then Raise ZeroDivisionError
  else Ok (([], norm (vsub (x0 P) (x_star P)), 0), reseeded w).
Proof.
  intros _ _ HM. rewrite run_unfold.
  destruct (match v with StoIHT => block_size P B =? 0 | _ => false end);
    [reflexivity|].
  rewrite range_empty by lia. reflexivity.
Qed.

Lemma svrg_first_epoch_no_data (P : params R) (w : world R) :
  svrg_iht_epoch P 1 0 0 0 (init_state P) w =
  if terminal P (x0 P)
  then Ok ((Break, mkState (x0 P) 1 0 []), after_first_line P w 0 (x0 P))
  else Raise ZeroDivisionError.
Proof.
  unfold svrg_iht_epoch, svrg_iht_work, svrg_iht_end, terminal, diverged, converged,
    after_first_line, progress_line.
  cbn. rewrite Nat.add_0_r.
  destruct (leb c1e5 (norm (x0 P))); [reflexivity|].
  destruct (leb (residual_norm_of P (x0 P)) (tol_algo P)); reflexivity.
Qed.

(** X13: on an empty data set ([n = 0], well-shaped arrays, a [gamma] on
    which the two conversions to [int] return, [B >= 1], at least one
    epoch allowed) Sto-IHT and SCSG-IHT raise [ZeroDivisionError]; SVRG-IHT
    runs one epoch without inner iteration and then either stops on an
    initial point that is already terminal, returning no record and one
    epoch, or raises [ZeroDivisionError] in the observation counter. *)
Theorem empty_data_set (P : params R) (B b : Z) (w : world R) :
  well_shaped P -> bounds_defined P ->
  n_samples P = 0 -> 1 <= B -> 1 <= max_epochs P ->
  run StoIHT P B b w = Raise ZeroDivisionError
  /\ run ScsgIHT P B b w = Raise ZeroDivisionError
  /\ run SvrgIHT P B b w =
     if terminal P (x0 P)
     then Ok (([], norm (vsub (x0 P) (x_star P)), 1),
              after_first_line P (reseeded w) 0 (x0 P))
     else Raise ZeroDivisionError.
Proof.
  intros _ _ Hn HB HM.
  assert (block_size P B = 0) as HB' by (unfold block_size; lia).
  split; [|split].
  - rewrite run_unfold, HB'. reflexivity.
  - rewrite run_unfold. unfold loop_body. rewrite HB', Hn.
    rewrite (range_cons 0) by lia. reflexivity.
  - rewrite run_unfold. unfold loop_body. rewrite Hn. rewrite (range_cons 0) by lia.
    cbn [for_each]. unfold bind. rewrite svrg_first_epoch_no_data.
    destruct (terminal P (x0 P)); reflexivity.
Qed.

Lemma scsg_first_epoch_no_inner (P : params R) (B b : Z) (w : world R) :
  1 <= B <= n_samples P -> B < b -> length (y_tr P) = nrows (x_mat P) ->
  scsg_iht_epoch P B b (n_samples P) 0 (init_state P) w =
  if terminal P (x0 P)
  then Ok ((Break, mkState (x0 P) 1 0 []), after_first_line P w 1 (x0 P))
  else Raise ZeroDivisionError.
Proof.
  intros HB Hb Hy.
  assert (0 < n_samples P / B) as Hq by (apply Z.div_str_pos; lia).
  assert (get_batch B (n_samples P) w
          = Ok (block_of B (raw_draw w mod (n_samples P / B)), advance w)) as Hgb.
  { rewrite get_batch_eq by lia.
    destruct (Z.leb_spec (n_samples P / B) 0); [lia|reflexivity]. }
  destruct (calc_grad_in_bounds (x_mat P) (y_tr P) (x0 P)
              (block_of B (raw_draw w mod (n_samples P / B))) Hy) as [outer Ho].
  { apply Forall_forall. intros j Hj. apply block_of_bounds in Hj; [|lia].
    pose proof (Z.mod_pos_bound (raw_draw w) (n_samples P / B) Hq).
    pose proof (Z.mul_div_le (n_samples P) B ltac:(lia)).
    fold (n_samples P). nia. }
  assert (py_div B b = Ok 0) as Hd.
  { rewrite py_div_ok by lia. rewrite Z.div_small by lia. reflexivity. }
  assert (scsg_iht_work P B b (n_samples P) 0 (init_state P) w
          = Ok (mkState (x0 P) 1 0 [], advance w)) as Hw.
  { unfold scsg_iht_work. cbn [init_state x_hat num_epochs num_iter loss_list].
    rewrite (bind_ok _ _ _ _ _ Hgb). rewrite bind_lift, Ho, bind_lift, Hd. reflexivity. }
  unfold scsg_iht_epoch. rewrite (bind_ok _ _ _ _ _ Hw).
  unfold scsg_iht_end, terminal, diverged, converged, after_first_line, progress_line.
  cbn [x_hat num_epochs num_iter loss_list]. unfold bind at 1. unfold print at 1.
  destruct (leb c1e5 (norm (x0 P))).
  { unfold ret, advance. cbn. rewrite Nat.add_1_r. reflexivity. }
  destruct (leb (residual_norm_of P (x0 P)) (tol_algo P)).
  { unfold ret, advance. cbn. rewrite Nat.add_1_r. reflexivity. }
  rewrite bind_lift, Hd. rewrite bind_lift. reflexivity.
Qed.

(** X14: when the mini-batch is larger than the block in use ([b] above
    [min(n, B)], on well-shaped data, with a [gamma] on which the two
    conversions to [int] return and at least one epoch allowed),
    SCSG-IHT runs no inner iteration and never records anything: it
    stops after one epoch on an initial point that is already terminal,
    and raises [ZeroDivisionError] in the observation counter otherwise. *)
Theorem scsg_mini_batch_above_block (P : params R) (B b : Z) (w : world R) :
  well_shaped P -> bounds_defined P ->
  1 <= B -> 1 <= n_samples P -> block_size P B < b -> 1 <= max_epochs P ->
  run ScsgIHT P B b w =
  if terminal P (x0 P)
  then Ok (([], norm (vsub (x0 P) (x_star P)), 1),
           after_first_line P (reseeded w) 1 (x0 P))
  else Raise ZeroDivisionError.
Proof.
  intros (_ & Hy & _) _ HB Hn Hb HM. rewrite run_unfold.
  unfold loop_body. rewrite (range_cons 0) by lia.
  cbn [for_each]. unfold bind.
  rewrite scsg_first_epoch_no_inner; [|unfold block_size; lia|exact Hb|exact Hy].
  destruct (terminal P (x0 P)); reflexivity.
Qed.


(** *** Sparsity of the iterate and the recorded residuals *)

Lemma wrapper_sparse edges (x costs : vec) g root s_low s_high it vb r :
  oracle_within_budget ->
  algo_head_tail_bisearch edges x costs g root s_low s_high it vb = Ok r ->
  sparse (Z.to_nat s_high) (snd r).
Proof.
  intros Hor H.
  pose proof (algo_head_tail_bisearch_eq edges x costs g root s_low s_high it vb) as E.
  cbv zeta in E. rewrite E in H. destruct (forallb _ _) in H; [|discriminate].
  inversion H; subst r. cbn [snd].
  set (supp := wrap_head_tail_bisearch edges _ costs g root s_low _ it vb).
  exists supp. split.
  - etransitivity; [apply Hor|]. lia.
  - intros i Hi Hn. rewrite restrict_spec_length in Hi.
    rewrite nth_restrict_spec by exact Hi.
    destruct (existsb (Nat.eqb i) supp) eqn:Ex; [|reflexivity].
    apply existsb_exists in Ex. destruct Ex as (j & Hj & Hij).
    apply Nat.eqb_eq in Hij. subst j. contradiction.
Qed.

Lemma sto_inner_sparse (P : params R) B n st w st' w' :
  oracle_within_budget ->
  sto_iht_inner P B n st w = Ok (st', w') ->
  sparse (Z.to_nat (t_high P)) (x_hat st').
Proof.
  intros Hor H. unfold sto_iht_inner in H. inv_run. cbn [x_hat].
  eapply wrapper_sparse; eassumption.
Qed.

Lemma vr_inner_sparse (P : params R) b n epoch_i outer sx w sx' w' :
  oracle_within_budget ->
  svrg_iht_inner P b n epoch_i outer sx w = Ok (sx', w') ->
  sparse (Z.to_nat (t_high P)) (snd sx').
Proof.
  intros Hor H. unfold svrg_iht_inner in H.
  apply bind_inv in H. destruct H as (block & w1 & _ & H).
  apply bind_inv in H. destruct H as (g1 & w2 & _ & H).
  apply bind_inv in H. destruct H as (gradient & w3 & _ & H).
  inv_run. cbn [snd]. eapply wrapper_sparse; eassumption.
Qed.

Lemma for_range_keeps {S} (I : S -> Prop) (step : S -> M R S) k :
  (forall s w s' w', step s w = Ok (s', w') -> I s') ->
  forall s w s' w', for_range k step s w = Ok (s', w') -> I s -> I s'.
Proof.
  intros Hstep s w s' w' H HI.
  apply (for_range_inv step (fun _ s1 _ => I s1)) with (j := 0%nat) in H.
  - exact H.
  - intros j s1 w1 s2 w2 _ Hs. eapply Hstep. exact Hs.
  - exact HI.
Qed.

Lemma loop_body_keeps_sparse (v : variant) (P : params R) (B b : Z) i st w f st' w' :
  oracle_within_budget ->
  loop_body v P B b i st w = Ok ((f, st'), w') ->
  sparse (Z.to_nat (t_high P)) (x_hat st) -> sparse (Z.to_nat (t_high P)) (x_hat st').
Proof.
  intros Hor H Hx. destruct v; unfold loop_body in H.
  - unfold sto_iht_epoch in H. apply bind_inv in H. destruct H as (st1 & w1 & Hw & He).
    apply sto_end_ok in He. destruct He as (-> & _).
    unfold sto_iht_work in Hw.
    apply (for_range_keeps (fun s => sparse (Z.to_nat (t_high P)) (x_hat s))) in Hw.
    + exact Hw.
    + intros s1 wa s2 wb Hs. eapply sto_inner_sparse; eassumption.
    + exact Hx.
  - unfold svrg_iht_epoch in H. apply bind_inv in H. destruct H as (st1 & w1 & Hw & He).
    apply svrg_end_ok in He. destruct He as (-> & _).
    unfold svrg_iht_work in Hw.
    apply bind_inv in Hw. destruct Hw as (outer & w2 & _ & Hw).
    apply bind_inv in Hw. destruct Hw as (sx & w3 & Hl & Hw).
    unfold ret in Hw. inversion Hw; subst. cbn [x_hat].
    apply (for_range_keeps (fun s => sparse (Z.to_nat (t_high P)) (snd s))) in Hl.
    + exact Hl.
    + intros s1 wa s2 wb Hs. eapply vr_inner_sparse; eassumption.
    + exact Hx.
  - unfold scsg_iht_epoch in H. apply bind_inv in H. destruct H as (st1 & w1 & Hw & He).
    apply scsg_end_ok in He. destruct He as (-> & _).
    unfold scsg_iht_work in Hw.
    apply bind_inv in Hw. destruct Hw as (block & w2 & _ & Hw).
    apply bind_inv in Hw. destruct Hw as (outer & w3 & _ & Hw).
    apply bind_inv in Hw. destruct Hw as (count & w4 & _ & Hw).
    apply bind_inv in Hw. destruct Hw as (sx & w5 & Hl & Hw).
    unfold ret in Hw. inversion Hw; subst. cbn [x_hat].
    apply (for_range_keeps (fun s => sparse (Z.to_nat (t_high P)) (snd s))) in Hl.
    + exact Hl.
    + intros s1 wa s2 wb Hs. eapply vr_inner_sparse; eassumption.
    + exact Hx.
Qed.

(** X7: when the oracle never selects more vertices than its upper bound,
    the iterate stays sparse: started from an initial point that is zero
    outside [t_high = int(s (1 + gamma))] vertices (the zero vector, for
    one), every variant leaves its loop with an iterate that is zero
    outside at most [t_high] vertices. *)
Theorem iterate_stays_sparse (v : variant) (P : params R) (B b : Z)
    (w : world R) st w' :
  oracle_within_budget ->
  sparse (Z.to_nat (t_high P)) (x0 P) ->
  run_loop v P B b w = Ok (st, w') ->
  sparse (Z.to_nat (t_high P)) (x_hat st).
Proof.
  intros Hor Hx H. apply run_loop_returns in H.
  apply (for_each_keeps (fun s => sparse (Z.to_nat (t_high P)) (x_hat s))) in H.
  - exact H.
  - intros i s w1 f s' w1' Hb.
    apply (loop_body_keeps_sparse v P B b i s w1 f s' w1' Hor Hb).
  - exact Hx.
Qed.

(** X9: nothing converged or diverged is ever recorded: every residual in
    the returned loss record failed the test [residual_norm <= tol_algo];
    in particular the residual of the epoch on which a run converges is
    not in the record. *)
Theorem recorded_residuals_above_tolerance (v : variant) (P : params R) (B b : Z)
    (w : world R) ll err ne w' :
  run v P B b w = Ok ((ll, err, ne), w') ->
  Forall (fun entry => leb (snd entry) (tol_algo P) = false) ll.
Proof.
  intros H. apply run_inv in H. destruct H as (st & H & -> & _).
  apply run_loop_returns in H.
  apply (for_each_keeps
           (fun s => Forall (fun entry => leb (snd entry) (tol_algo P) = false)
                       (loss_list s))) in H.
  - exact H.
  - intros i s w1 f s' w1' Hb HI.
    pose proof (loop_body_ok v P B b _ _ _ _ _ _ Hb) as (_ & _ & E).
    destruct f.
    + destruct E as (Ht & _ & ->). apply Forall_app. split; [exact HI|].
      constructor; [|constructor]. cbn [snd].
      unfold terminal, converged in Ht. apply orb_false_iff in Ht. tauto.
    + destruct E as (_ & ->). exact HI.
  - constructor.
Qed.

End RunFacts.

(** ** Properties of the grid graph generator *)

Section GridFacts.
Context {R : Type} {ON : Ones R}.

Lemma repeat_for_plus {S} (f : S -> S) j k s :
  repeat_for (j + k) f s = repeat_for k f (repeat_for j f s).
Proof. revert s. induction j as [|j IH]; intros s; simpl; [reflexivity|apply IH]. Qed.

Lemma repeat_for_nested {S} (f : S -> S) h w s :
  repeat_for h (repeat_for w f) s = repeat_for (h * w) f s.
Proof.
  revert s. induction h as [|h IH]; intros s; simpl; [reflexivity|].
  rewrite repeat_for_plus. apply IH.
Qed.

Lemma grid_cell_eq width height edges index :
  grid_cell width height (edges, index)
  = (edges ++ cell_edges width height index, index + 1).
Proof.
  unfold grid_cell, cell_edges. cbn [fst snd].
  destruct (negb (index mod width =? width - 1));
    destruct (index + width <? width * height);
    rewrite <- ?app_assoc, ?app_nil_r; reflexivity.
Qed.

Lemma grid_cells width height k :
  forall edges index,
    repeat_for k (grid_cell width height) (edges, index)
    = (edges ++ flat_map (cell_edges width height) (range index (index + Z.of_nat k)),
       index + Z.of_nat k).
Proof.
  induction k as [|k IH]; intros edges index.
  - simpl. unfold range. replace (Z.to_nat (index + 0 - index)) with 0%nat by lia.
    simpl. rewrite app_nil_r, Z.add_0_r. reflexivity.
  - cbn [repeat_for]. rewrite grid_cell_eq, IH.
    replace (index + Z.of_nat (S k)) with (index + 1 + Z.of_nat k) by lia.
    rewrite (range_cons index (index + 1 + Z.of_nat k)) by lia.
    cbn [flat_map]. rewrite <- app_assoc. reflexivity.
Qed.

(** The edge list in closed form. *)
Lemma grid_edges_eq width height :
  fst (repeat_for (Z.to_nat height)
         (repeat_for (Z.to_nat width) (grid_cell width height)) ([], 0))
  = flat_map (cell_edges width height)
      (range 0 (Z.of_nat (Z.to_nat height * Z.to_nat width))).
Proof. rewrite repeat_for_nested, grid_cells. reflexivity. Qed.

Lemma In_cell_edges width height index u v :
  In (u, v) (cell_edges width height index)
  <-> u = index
      /\ ((v = index + 1 /\ index mod width <> width - 1)
          \/ (v = index + width /\ index + width < width * height)).
Proof.
  unfold cell_edges. rewrite in_app_iff.
  destruct (Z.eqb_spec (index mod width) (width - 1)) as [E|E];
    destruct (Z.ltb_spec (index + width) (width * height)) as [L|L]; simpl; split;
    intros Hin;
    repeat match goal with
      | H : _ \/ _ |- _ => destruct H
      | H : _ /\ _ |- _ => destruct H
      | H : (_, _) = (_, _) |- _ => inversion H; subst; clear H
      | H : False |- _ => contradiction
      end; subst; try lia; auto 6.
Qed.


Lemma simu_grid_graph_edges width height rand_weight (h : host R) :
  (width <? 0) && (height <? 0) = false ->
  fst (fst (simu_grid_graph width height rand_weight h))
  = flat_map (cell_edges width height)
      (range 0 (Z.of_nat (Z.to_nat height * Z.to_nat width))).
Proof.
  intros Hg. unfold simu_grid_graph. rewrite Hg, grid_edges_eq.
  destruct rand_weight; reflexivity.
Qed.

Lemma grid_size width height :
  0 <= width -> 0 <= height ->
  Z.of_nat (Z.to_nat height * Z.to_nat width) = width * height.
Proof. intros Hw Hh. rewrite Nat2Z.inj_mul, !Z2Nat.id by assumption. lia. Qed.

Lemma last_column_end width height u :
  1 <= width -> 0 <= u < width * height -> u mod width <> width - 1 ->
  u + 1 < width * height.
Proof.
  intros Hw Hu Hm.
  destruct (Z.eq_dec (u + 1) (width * height)) as [E|E]; [|lia].
  exfalso. apply Hm.
  replace u with (width - 1 + (height - 1) * width) by lia.
  rewrite Z.mod_add by lia. apply Z.mod_small. lia.
Qed.

(** X15: for [width >= 1] and [height >= 1] the edge list is exactly the
    grid adjacency on the vertices [0, ..., width * height - 1] numbered
    row by row: [(u, v)] is an edge if and only if both are vertices and
    [v] is the right neighbour of [u] in the same row ([u] not in the
    last column) or the neighbour below ([v = u + width]). *)
Theorem grid_edges_are_adjacency width height rand_weight (h : host R) u v :
  1 <= width -> 1 <= height ->
  (In (u, v) (fst (fst (simu_grid_graph width height rand_weight h)))
   <-> 0 <= u /\ v < width * height
       /\ ((v = u + 1 /\ u mod width <> width - 1) \/ v = u + width)).
Proof.
  intros Hw Hh.
  rewrite simu_grid_graph_edges
    by (destruct (Z.ltb_spec width 0); [lia|reflexivity]).
  rewrite grid_size by lia. rewrite in_flat_map. split.
  - intros (idx & Hidx & Hin). apply range_In in Hidx.
    apply In_cell_edges in Hin. destruct Hin as [Hu [[Hv Hm]|[Hv Hl]]]; subst.
    + split; [lia|]. split; [apply last_column_end; assumption|]. left. split; auto.
    + split; [lia|]. split; [lia|]. right. reflexivity.
  - intros [Hu [Hv [[Hv' Hm]|Hv']]]; subst.
    + exists u. split; [apply range_In; lia|]. apply In_cell_edges.
      split; [reflexivity|]. left. split; auto.
    + exists u. split; [apply range_In; lia|]. apply In_cell_edges.
      split; [reflexivity|]. right. split; [reflexivity|lia].
Qed.

Lemma NoDup_flat_map_fst {A B} (f : A -> list (A * B)) l :
  NoDup l ->
  (forall x, In x l -> NoDup (f x)) ->
  (forall x e, In e (f x) -> fst e = x) ->
  NoDup (flat_map f l).
Proof.
  intros Hl Hf Hfst. induction Hl as [|a l Ha Hl IH]; simpl; [constructor|].
  apply NoDup_app.
  - apply Hf. left. reflexivity.
  - apply IH. intros x Hx. apply Hf. right. exact Hx.
  - intros e He1 He2. apply in_flat_map in He2. destruct He2 as (x & Hx & He2).
    apply Hfst in He1, He2. subst. contradiction.
Qed.

Lemma cell_edges_NoDup width height index :
  1 <= width -> NoDup (cell_edges width height index).
Proof.
  intros Hw. unfold cell_edges.
  destruct (Z.eqb_spec (index mod width) (width - 1)) as [E|E];
    destruct (Z.ltb_spec (index + width) (width * height)) as [L|L]; simpl;
    repeat constructor; simpl; try tauto.
  intros [Hq|[]]. inversion Hq as [Hq'].
  assert (width = 1) as -> by lia. rewrite Z.mod_1_r in E. lia.
Qed.

Lemma list_sum_const {A} (f : A -> nat) c l :
  (forall x, In x l -> f x = c) -> list_sum (map f l) = (c * length l)%nat.
Proof.
  induction l as [|a l IH]; intros H; simpl; [lia|].
  rewrite (H a (or_introl eq_refl)), IH by (intros x Hx; apply H; right; exact Hx).
  lia.
Qed.

Lemma list_sum_map_add {A} (f1 f2 : A -> nat) l :
  list_sum (map (fun x => (f1 x + f2 x)%nat) l)
  = (list_sum (map f1 l) + list_sum (map f2 l))%nat.
Proof. induction l as [|a l IH]; simpl; [reflexivity|]. rewrite IH. lia. Qed.

Lemma row_right_count width (r : nat) :
  1 <= width ->
  list_sum (map (right_count width)
              (range (width * Z.of_nat r) (width * Z.of_nat r + width)))
  = Z.to_nat (width - 1).
Proof.
  intros Hw.
  rewrite (range_app _ (width * Z.of_nat r + width - 1)) by lia.
  replace (range (width * Z.of_nat r + width - 1) (width * Z.of_nat r + width))
    with [width * Z.of_nat r + width - 1]
    by (rewrite <- range_single; f_equal; lia).
  rewrite map_app, list_sum_app.
  rewrite (list_sum_const _ 1%nat).
  - rewrite range_length. simpl. unfold right_count.
    replace (width * Z.of_nat r + width - 1) with (width - 1 + Z.of_nat r * width) by lia.
    rewrite Z.mod_add by lia. rewrite Z.mod_small by lia.
    rewrite Z.eqb_refl. simpl. lia.
  - intros i Hi. apply range_In in Hi. unfold right_count.
    replace i with (i - width * Z.of_nat r + Z.of_nat r * width) by lia.
    rewrite Z.mod_add by lia. rewrite Z.mod_small by lia.
    destruct (Z.eqb_spec (i - width * Z.of_nat r) (width - 1)); [lia|reflexivity].
Qed.

Lemma rows_right_count width (rows_done : nat) :
  1 <= width ->
  list_sum (map (right_count width) (range 0 (width * Z.of_nat rows_done)))
  = (rows_done * Z.to_nat (width - 1))%nat.
Proof.
  intros Hw. induction rows_done as [|r IH].
  - rewrite Z.mul_0_r. reflexivity.
  - rewrite (range_app 0 (width * Z.of_nat r)) by nia.
    replace (width * Z.of_nat (S r)) with (width * Z.of_nat r + width) by lia.
    rewrite map_app, list_sum_app, IH, row_right_count by exact Hw. lia.
Qed.

Lemma below_count_sum width height :
  1 <= width -> 1 <= height ->
  list_sum (map (below_count width height) (range 0 (width * height)))
  = Z.to_nat (width * (height - 1)).
Proof.
  intros Hw Hh.
  rewrite (range_app 0 (width * (height - 1))) by nia.
  rewrite map_app, list_sum_app.
  rewrite (list_sum_const _ 1%nat), (list_sum_const _ 0%nat).
  - rewrite range_length. lia.
  - intros i Hi. apply range_In in Hi. unfold below_count.
    destruct (Z.ltb_spec (i + width) (width * height)); [nia|reflexivity].
  - intros i Hi. apply range_In in Hi. unfold below_count.
    destruct (Z.ltb_spec (i + width) (width * height)); [reflexivity|nia].
Qed.

Lemma draw_weights_eq k :
  forall weights (h : host R),
    draw_weights k weights h
    = (weights ++ map (py_uniform h) (seq (py_pos h) k), py_skip k h).
Proof.
  induction k as [|k IH]; intros weights h; simpl.
  - rewrite app_nil_r. unfold py_skip. rewrite Nat.add_0_r. destruct h; reflexivity.
  - rewrite IH. unfold py_skip. cbn. rewrite <- app_assoc. simpl.
    rewrite Nat.add_1_r, Nat.add_succ_r. reflexivity.
Qed.

(** X16: for [width >= 1] and [height >= 1] the graph has
    [2 width height - width - height] edges, none listed twice, and as
    many edge costs as edges. *)
Theorem grid_edge_count width height rand_weight (h : host R) :
  1 <= width -> 1 <= height ->
  let r := fst (simu_grid_graph width height rand_weight h) in
  Z.of_nat (length (fst r)) = 2 * width * height - width - height
  /\ NoDup (fst r)
  /\ length (snd r) = length (fst r).
Proof.
  intros Hw Hh r.
  assert ((width <? 0) && (height <? 0) = false) as Hg
    by (destruct (Z.ltb_spec width 0); [lia|reflexivity]).
  assert (fst r = flat_map (cell_edges width height) (range 0 (width * height))) as E.
  { unfold r. rewrite simu_grid_graph_edges by exact Hg. rewrite grid_size by lia.
    reflexivity. }
  split; [|split].
  - rewrite E, length_flat_map.
    rewrite (map_ext _ (fun i => (right_count width i + below_count width height i)%nat)).
    2:{ intros i. unfold cell_edges, right_count, below_count. rewrite length_app.
        destruct (negb (i mod width =? width - 1));
          destruct (i + width <? width * height); reflexivity. }
    rewrite list_sum_map_add, below_count_sum by assumption.
    replace (width * height) with (width * Z.of_nat (Z.to_nat height)) at 1 by lia.
    rewrite rows_right_count by exact Hw. nia.
  - rewrite E. apply NoDup_flat_map_fst.
    + apply range_NoDup.
    + intros i _. apply cell_edges_NoDup. exact Hw.
    + intros i [u v] Hin. apply In_cell_edges in Hin. simpl. tauto.
  - unfold r, simu_grid_graph. rewrite Hg. destruct rand_weight; cbn [fst snd].
    + rewrite draw_weights_eq. cbn [fst snd app].
      rewrite length_map, length_seq. reflexivity.
    + apply repeat_length.
Qed.

(** X17: the edge costs are all [1.], and Python's generator is left alone,
    when [rand_weight] is off; when it is on they are the next
    [len(edges)] values of [random.uniform(1., 2.0)] in order, and the
    generator has moved by as many draws.  numpy's generator is reseeded
    in both cases and nothing is printed (unless both dimensions are
    negative). *)
Theorem grid_edge_costs width height (h : host R) :
  (width <? 0) && (height <? 0) = false ->
  let off := simu_grid_graph width height false h in
  let on := simu_grid_graph width height true h in
  fst (fst on) = fst (fst off)
  /\ snd (fst off) = repeat one (length (fst (fst off)))
  /\ snd off = np_reseed h
  /\ snd (fst on) = map (py_uniform h) (seq (py_pos h) (length (fst (fst on))))
  /\ snd on = py_skip (length (fst (fst on))) (np_reseed h).
Proof.
  intros Hg off on. unfold off, on, simu_grid_graph. rewrite Hg. cbn [fst snd].
  rewrite draw_weights_eq. cbn [fst snd].
  repeat split; reflexivity.
Qed.

(** X18: when a dimension is not positive there is no edge and no cost:
    the call returns two empty sequences.  The message is printed only
    when both dimensions are negative; a zero dimension, or a single
    negative one, gives the empty graph silently. *)
Theorem grid_without_vertices width height rand_weight (h : host R) :
  width <= 0 \/ height <= 0 ->
  let r := simu_grid_graph width height rand_weight h in
  fst r = ([], [])
  /\ np_world (snd r) = reseeded (np_world h)
  /\ py_pos (snd r) = py_pos h
  /\ console (snd r) =
     console h ++
       (if (width <? 0) && (height <? 0)
        then ["Error: width and height should be positive."%string]
        else []).
Proof.
  intros Hd r. unfold r, simu_grid_graph.
  destruct ((width <? 0) && (height <? 0)) eqn:Hg.
  - cbn. repeat split; reflexivity.
  - assert (fst (repeat_for (Z.to_nat height)
                   (repeat_for (Z.to_nat width) (grid_cell width height)) ([], 0))
            = []) as E.
    { rewrite grid_edges_eq.
      replace (Z.to_nat height * Z.to_nat width)%nat with 0%nat by nia. reflexivity. }
    rewrite E. destruct rand_weight; cbn; rewrite ?app_nil_r, ?Nat.add_0_r;
      repeat split; reflexivity.
Qed.

End GridFacts.

(** ** Properties of the random walk *)

Section WalkFacts.
Context {R : Type} {SC : Scalar R} {ON : Ones R} {LT : Less R} {HO : HashOrder}.

(** *** Sets and the adjacency structure *)

Lemma set_add_length {A} (dec : forall a b : A, {a = b} + {a <> b}) a l :
  length (set_add dec a l) = if set_mem dec a l then length l else S (length l).
Proof.
  induction l as [|b l IH]; simpl; [reflexivity|].
  destruct (dec a b); simpl; [reflexivity|].
  rewrite IH. destruct (set_mem dec a l); reflexivity.
Qed.

Lemma set_add_length_le {A} (dec : forall a b : A, {a = b} + {a <> b}) a l :
  (length l <= length (set_add dec a l) <= S (length l))%nat.
Proof. rewrite set_add_length. destruct (set_mem dec a l); lia. Qed.

Lemma adj_get_cons k nbrs rest u :
  adj_get ((k, nbrs) :: rest) u = if k =? u then Some nbrs else adj_get rest u.
Proof. unfold adj_get. simpl. destruct (k =? u); reflexivity. Qed.

Lemma adj_get_add adj u v k :
  adj_get (adj_add adj u v) k =
  if k =? u
  then Some (set_add Z.eq_dec v (match adj_get adj u with Some nbrs => nbrs | None => [] end))
  else adj_get adj k.
Proof.
  induction adj as [|[k0 nbrs] rest IH]; simpl.
  - rewrite adj_get_cons. rewrite (Z.eqb_sym u k). destruct (k =? u); reflexivity.
  - rewrite (adj_get_cons k0 nbrs rest u).
    destruct (Z.eqb_spec k0 u) as [->|Hne].
    + rewrite adj_get_cons. rewrite (Z.eqb_sym u k).
      destruct (k =? u) eqn:E; [reflexivity|].
      rewrite adj_get_cons. rewrite (Z.eqb_sym u k), E. reflexivity.
    + rewrite adj_get_cons, IH. rewrite adj_get_cons.
      destruct (Z.eqb_spec k0 k) as [->|Hne'].
      * destruct (Z.eqb_spec k u); [congruence|reflexivity].
      * reflexivity.
Qed.

Lemma adj_add_keys adj u v :
  map fst (adj_add adj u v) = set_add Z.eq_dec u (map fst adj).
Proof.
  induction adj as [|[k nbrs] rest IH]; simpl; [reflexivity|].
  destruct (Z.eqb_spec k u) as [Hk|Hne]; destruct (Z.eq_dec u k) as [E|E]; simpl;
    congruence.
Qed.

Lemma adj_get_none adj u : adj_get adj u = None <-> ~ In u (map fst adj).
Proof.
  induction adj as [|[k nbrs] rest IH]; simpl.
  - unfold adj_get. simpl. tauto.
  - rewrite adj_get_cons. destruct (Z.eqb_spec k u) as [->|Hne].
    + split; [discriminate|]. intros H. exfalso. apply H. left. reflexivity.
    + rewrite IH. tauto.
Qed.

Lemma endpoint_app seen e x :
  endpoint (seen ++ [e]) x <-> endpoint seen x \/ x = fst e \/ x = snd e.
Proof.
  unfold endpoint. split.
  - intros (e' & Hin & Hx). apply in_app_or in Hin. destruct Hin as [Hin|[<-|[]]].
    + left. exists e'. tauto.
    + right. exact Hx.
  - intros [(e' & Hin & Hx)|Hx].
    + exists e'. split; [apply in_or_app; left; exact Hin|exact Hx].
    + exists e. split; [apply in_or_app; right; left; reflexivity|exact Hx].
Qed.

Lemma add_edge_graph_of seen adj nodes e :
  graph_of seen adj nodes ->
  graph_of (seen ++ [e]) (fst (add_edge (adj, nodes) e)) (snd (add_edge (adj, nodes) e)).
Proof.
  intros (Hnd & Hnodes & Hkd & Hkeys & Hadj).
  destruct e as [uu vv]. unfold add_edge. cbn [fst snd].
  split; [|split; [|split; [|split]]].
  - apply set_add_nodup, set_add_nodup, Hnd.
  - intros x. rewrite !set_add_iff, endpoint_app, Hnodes. cbn [fst snd]. tauto.
  - rewrite !adj_add_keys. apply set_add_nodup, set_add_nodup, Hkd.
  - intros x. rewrite !adj_add_keys, !set_add_iff, Hkeys. tauto.
  - intros u nbrs. rewrite !adj_get_add.
    assert (forall k l, (match adj_get adj k with Some n => n | None => [] end) = l ->
              NoDup l /\ forall v, In v l <-> In (k, v) seen \/ In (v, k) seen) as Hold.
    { intros k l E. destruct (adj_get adj k) as [n|] eqn:G.
      - subst l. apply Hadj. exact G.
      - subst l. split; [constructor|]. intros v. split; [intros []|].
        apply adj_get_none in G. rewrite Hkeys, Hnodes in G.
        intros [Hin|Hin]; exfalso; apply G.
        + exists (k, v). split; [exact Hin|left; reflexivity].
        + exists (v, k). split; [exact Hin|right; reflexivity]. }
    destruct (Z.eqb_spec u vv) as [->|Hv].
    + intros E. inversion E; subst nbrs. clear E.
      destruct (Z.eqb_spec vv uu) as [->|Hu].
      * destruct (Hold uu _ eq_refl) as [N I]. split.
        -- apply set_add_nodup, set_add_nodup, N.
        -- intros v. rewrite !set_add_iff, I, !in_app_iff. simpl.
           split; [intros [->|[->|[?|?]]]; auto|].
           intros [[?|[E|[]]]|[?|[E|[]]]]; auto; inversion E; auto.
      * destruct (Hold vv _ eq_refl) as [N I]. split.
        -- apply set_add_nodup, N.
        -- intros v. rewrite !set_add_iff, I, !in_app_iff. simpl.
           split; [intros [->|[?|?]]; auto|].
           intros [[?|[E|[]]]|[?|[E|[]]]]; auto; inversion E; subst; auto; congruence.
    + destruct (Z.eqb_spec u uu) as [->|Hu].
      * intros E. inversion E; subst nbrs. clear E.
        destruct (Hold uu _ eq_refl) as [N I]. split.
        -- apply set_add_nodup, N.
        -- intros v. rewrite !set_add_iff, I, !in_app_iff. simpl.
           split; [intros [->|[?|?]]; auto|].
           intros [[?|[E|[]]]|[?|[E|[]]]]; auto; inversion E; subst; auto; congruence.
      * intros G. destruct (Hadj u nbrs G) as [N I]. split; [exact N|].
        intros v. rewrite I, !in_app_iff. simpl.
        split; [intros [?|?]; auto|].
        intros [[?|[E|[]]]|[?|[E|[]]]]; auto; inversion E; subst; congruence.
Qed.

Lemma fold_add_edge_graph_of edges :
  forall seen st,
    graph_of seen (fst st) (snd st) ->
    graph_of (seen ++ edges) (fst (fold_left add_edge edges st))
      (snd (fold_left add_edge edges st)).
Proof.
  induction edges as [|e edges IH]; intros seen st H; simpl.
  - rewrite app_nil_r. exact H.
  - replace (seen ++ e :: edges) with ((seen ++ [e]) ++ edges)
      by (rewrite <- app_assoc; reflexivity).
    apply IH. destruct st as [adj nodes]. apply add_edge_graph_of. exact H.
Qed.

Lemma build_graph_spec edges :
  graph_of edges (fst (build_graph edges)) (snd (build_graph edges)).
Proof.
  unfold build_graph. apply (fold_add_edge_graph_of edges [] ([], [])).
  split; [constructor|]. split.
  - intros x. split; [intros []|]. intros (e & [] & _).
  - split; [constructor|]. split; [tauto|].
    intros u nbrs E. discriminate.
Qed.

Lemma graph_neighbours edges adj nodes u :
  graph_of edges adj nodes -> In u nodes ->
  exists nbrs,
    adj_get adj u = Some nbrs /\ nbrs <> []
    /\ forall v, In v nbrs <-> In (u, v) edges \/ In (v, u) edges.
Proof.
  intros (_ & Hnodes & _ & Hkeys & Hadj) Hu.
  destruct (adj_get adj u) as [nbrs|] eqn:G.
  - exists nbrs. destruct (Hadj u nbrs G) as [_ I]. split; [reflexivity|]. split; [|exact I].
    apply Hnodes in Hu. destruct Hu as ([a b] & Hin & [E|E]); simpl in E; subst u.
    + intros ->. apply (I b). left. exact Hin.
    + intros ->. apply (I a). right. exact Hin.
  - apply adj_get_none in G. rewrite Hkeys in G. contradiction.
Qed.

Lemma graph_vertices edges adj nodes :
  graph_of edges adj nodes ->
  length nodes = length (vertices edges) /\ length (map fst adj) = length nodes.
Proof.
  intros (Hnd & Hnodes & Hkd & Hkeys & _). split.
  - apply Permutation_length. apply NoDup_Permutation.
    + exact Hnd.
    + apply NoDup_nodup.
    + intros x. unfold vertices. rewrite nodup_In, Hnodes, in_flat_map. unfold endpoint.
      split; intros (e & Hin & Hx); exists e; (split; [exact Hin|]); simpl in *.
      * destruct Hx; auto.
      * destruct Hx as [?|[?|[]]]; auto.
  - apply Permutation_length. apply NoDup_Permutation; assumption.
Qed.

Lemma endpoint_vertices edges x : endpoint edges x <-> In x (vertices edges).
Proof.
  unfold vertices. rewrite nodup_In, in_flat_map. unfold endpoint.
  split; intros (e & Hin & Hx); exists e; (split; [exact Hin|]); simpl in *.
  - destruct Hx; auto.
  - destruct Hx as [?|[?|[]]]; auto.
Qed.

(** *** Python's generator *)

Lemma py_skip_skip (a b : nat) (h : host R) : py_skip a (py_skip b h) = py_skip (b + a) h.
Proof. unfold py_skip. cbn. rewrite Nat.add_assoc. reflexivity. Qed.

Lemma py_skip_0 (h : host R) : py_skip 0 h = h.
Proof. unfold py_skip. rewrite Nat.add_0_r. destruct h; reflexivity. Qed.

Lemma py_choose_some {A} (seq : list A) (h : host R) :
  seq <> [] -> exists a, In a seq /\ py_choose seq h = Some (a, py_skip 1 h).
Proof.
  intros Hne. unfold py_choose.
  assert (py_choice h (py_pos h) mod length seq < length seq)%nat as Hlt.
  { apply Nat.mod_upper_bound. destruct seq; [congruence|simpl; lia]. }
  destruct (nth_error seq (py_choice h (py_pos h) mod length seq)) as [a|] eqn:E.
  - exists a. split; [eapply nth_error_In; exact E|reflexivity].
  - apply nth_error_None in E. lia.
Qed.

Lemma py_choose_nil {A} (h : host R) : py_choose (@nil A) h = None.
Proof. unfold py_choose. simpl. destruct (py_choice h (py_pos h)); reflexivity. Qed.

(** *** One step of the walk *)

Lemma walked_mono (E E' : list (Z * Z)) a x :
  (forall e, In e E -> In e E') -> walked E a x -> walked E' a x.
Proof.
  intros Hsub H. induction H as [|u v _ IH Hin]; [constructor|].
  eapply walked_step; [exact IH|apply Hsub; exact Hin].
Qed.

Lemma walk_step_inv edges adj nodes init restart ns es next (h : host R) :
  graph_of edges adj nodes -> walk_of edges init ns es -> In next ns ->
  exists r next',
    walk_step adj init restart (ns, es, next) h
    = Returns ((set_add Z.eq_dec r ns,
                set_add pair_eq_dec (r, next) (set_add pair_eq_dec (next, r) es),
                next'),
               py_skip 2 h)
    /\ (In (next, r) edges \/ In (r, next) edges)
    /\ walk_of edges init (set_add Z.eq_dec r ns)
         (set_add pair_eq_dec (r, next) (set_add pair_eq_dec (next, r) es))
    /\ In next' (set_add Z.eq_dec r ns).
Proof.
  intros HG (Hnd & Hed & Hinit & Hns & Hes) Hnext.
  assert (In next nodes) as Hn.
  { destruct HG as (_ & Hnodes & _). apply Hnodes. apply Hns. exact Hnext. }
  destruct (graph_neighbours edges adj nodes next HG Hn) as (nbrs & G & Hne & I).
  assert (set_list nbrs <> []) as Hne'.
  { intros E. apply Hne. apply Permutation_nil. rewrite <- E.
    apply set_list_perm. }
  destruct (py_choose_some (set_list nbrs) h Hne') as (r & Hr & Hc).
  assert (In (next, r) edges \/ In (r, next) edges) as Hedge.
  { apply I. eapply Permutation_in; [apply set_list_perm|exact Hr]. }
  exists r, (if less (py_random (py_skip 1 h) (py_pos (py_skip 1 h))) restart
             then init else r).
  split; [|split; [exact Hedge|split]].
  - unfold walk_step. cbn [fst snd]. rewrite G, Hc. cbn [fst snd].
    rewrite py_skip_skip. reflexivity.
  - split; [apply set_add_nodup, Hnd|].
    split; [apply set_add_nodup, set_add_nodup, Hed|].
    split; [apply set_add_iff; right; exact Hinit|]. split.
    + intros x Hx. apply set_add_iff in Hx. destruct Hx as [->|Hx].
      * split.
        -- destruct Hedge as [H|H]; [exists (next, r)|exists (r, next)];
             (split; [exact H|simpl; auto]).
        -- apply walked_step with (u := next).
           ++ eapply walked_mono; [|apply Hns; exact Hnext].
              intros e He. apply set_add_iff. right. apply set_add_iff. right. exact He.
           ++ apply set_add_iff. right. apply set_add_iff. left. reflexivity.
      * split; [apply Hns; exact Hx|].
        eapply walked_mono; [|apply Hns; exact Hx].
        intros e He. apply set_add_iff. right. apply set_add_iff. right. exact He.
    + intros u v Huv. rewrite !set_add_iff in *.
      destruct Huv as [E|[E|Huv]].
      * inversion E; subst u v. repeat split; auto. tauto.
      * inversion E; subst u v. repeat split; auto.
      * destruct (Hes u v Huv) as (A & B & C & D). repeat split; auto.
  - apply set_add_iff.
    destruct (less _ restart); [right; exact Hinit|left; reflexivity].
Qed.

(** *** The loop *)

Lemma walk_fuel_mono adj init restart s fuel :
  forall st (h : host R) r,
    walk fuel adj init restart s st h = Returns r ->
    forall fuel', (fuel <= fuel')%nat -> walk fuel' adj init restart s st h = Returns r.
Proof.
  induction fuel as [|fuel IH]; intros st h r H fuel' Hle.
  - simpl in H. destruct fuel'; simpl.
    + exact H.
    + destruct (Z.of_nat (length (fst (fst st))) <? s); [discriminate|exact H].
  - destruct fuel' as [|fuel']; [lia|]. simpl in *.
    destruct (Z.of_nat (length (fst (fst st))) <? s); [|exact H].
    destruct (walk_step adj init restart st h) as [[st' h']|e|]; try discriminate.
    apply IH; [exact H|lia].
Qed.

Lemma walk_cases edges adj nodes init restart s fuel :
  graph_of edges adj nodes ->
  forall ns es next (h : host R),
    walk_of edges init ns es -> In next ns -> Z.of_nat (length ns) <= s ->
    walk fuel adj init restart s (ns, es, next) h = OutOfFuel
    \/ exists ns' es' next' k,
         walk fuel adj init restart s (ns, es, next) h
         = Returns ((ns', es', next'), py_skip (2 * k) h)
         /\ walk_of edges init ns' es'
         /\ Z.of_nat (length ns') = s
         /\ (length ns' <= length ns + k)%nat.
Proof.
  intros HG. induction fuel as [|fuel IH]; intros ns es next h Hw Hnext Hlen.
  - cbn [walk fst snd].
    destruct (Z.ltb_spec (Z.of_nat (length ns)) s); [left; reflexivity|].
    right. exists ns, es, next, 0%nat. rewrite py_skip_0.
    split; [reflexivity|]. split; [exact Hw|]. split; lia.
  - cbn [walk fst snd]. destruct (Z.ltb_spec (Z.of_nat (length ns)) s) as [Hlt|Hge].
    + destruct (walk_step_inv edges adj nodes init restart ns es next h HG Hw Hnext)
        as (r & next' & E & _ & Hw' & Hnext').
      rewrite E. cbv beta iota.
      pose proof (set_add_length_le Z.eq_dec r ns) as Hl.
      destruct (IH _ _ next' (py_skip 2 h) Hw' Hnext' ltac:(lia))
        as [O|(ns' & es' & nx & k & E' & W & L & K)].
      * left. exact O.
      * right. exists ns', es', nx, (S k).
        replace (py_skip (2 * S k) h) with (py_skip (2 * k) (py_skip 2 h))
          by (rewrite py_skip_skip; f_equal; lia).
        split; [exact E'|]. split; [exact W|]. split; lia.
    + right. exists ns, es, next, 0%nat. rewrite py_skip_0.
      split; [reflexivity|]. split; [exact Hw|]. split; lia.
Qed.

Lemma walk_stuck edges adj nodes init restart s (C : list Z) fuel :
  graph_of edges adj nodes ->
  (forall u v, In u C -> In (u, v) edges \/ In (v, u) edges -> In v C) ->
  Z.of_nat (length C) < s ->
  forall ns es next (h : host R),
    walk_of edges init ns es -> In next ns -> incl ns C ->
    walk fuel adj init restart s (ns, es, next) h = OutOfFuel.
Proof.
  intros HG Hclosed HC. induction fuel as [|fuel IH]; intros ns es next h Hw Hnext Hincl.
  all: assert (length ns <= length C)%nat as Hle
      by (apply NoDup_incl_length; [apply Hw|exact Hincl]).
  all: cbn [walk fst snd]; destruct (Z.ltb_spec (Z.of_nat (length ns)) s); [|lia].
  - reflexivity.
  - destruct (walk_step_inv edges adj nodes init restart ns es next h HG Hw Hnext)
      as (r & next' & E & Hedge & Hw' & Hnext').
    rewrite E. cbv beta iota. apply IH; [exact Hw'|exact Hnext'|].
    intros x Hx. apply set_add_iff in Hx. destruct Hx as [->|Hx].
    + apply (Hclosed next r); [apply Hincl; exact Hnext|exact Hedge].
    + apply Hincl. exact Hx.
Qed.

Lemma walk_of_perm edges start ns es ns' es' :
  Permutation ns' ns -> Permutation es' es ->
  walk_of edges start ns es -> walk_of edges start ns' es'.
Proof.
  intros Pn Pe (Hnd & Hed & Hinit & Hns & Hes).
  assert (forall x, In x ns' <-> In x ns) as In_n.
  { intros x. split; apply Permutation_in; [exact Pn|symmetry; exact Pn]. }
  assert (forall e, In e es' <-> In e es) as In_e.
  { intros e. split; apply Permutation_in; [exact Pe|symmetry; exact Pe]. }
  split; [eapply Permutation_NoDup; [symmetry; exact Pn|exact Hnd]|].
  split; [eapply Permutation_NoDup; [symmetry; exact Pe|exact Hed]|].
  split; [apply In_n; exact Hinit|]. split.
  - intros x Hx. apply In_n in Hx. destruct (Hns x Hx) as [A B]. split; [exact A|].
    eapply walked_mono; [|exact B]. intros e He. apply In_e. exact He.
  - intros u v Huv. apply In_e in Huv. destruct (Hes u v Huv) as (A & B & C & D).
    rewrite In_e, !In_n. auto.
Qed.

(** *** The whole call *)

Lemma start_node_cases edges (init_node : option Z) (h : host R) :
  let adj := fst (build_graph edges) in
  let nodes := snd (build_graph edges) in
  match start_node adj nodes init_node h with
  | Returns (i, h') =>
      (forall i0, init_node = Some i0 -> i = i0 /\ h' = h)
      /\ (init_node = None -> In i nodes /\ h' = py_skip 1 h)
  | Raises e => init_node = None /\ e = WalkIndexError
  | OutOfFuel => False
  end.
Proof.
  intros adj nodes. pose proof (build_graph_spec edges) as HG. fold adj nodes in HG.
  destruct init_node as [i0|]; simpl.
  - split; [intros i1 E; inversion E; auto|discriminate].
  - destruct (py_choose (set_list nodes) h) as [[p h1]|] eqn:Hc; [|auto].
    destruct (norm_index (length (keys_list (map fst adj))) p) as [j|e] eqn:Hj; [|auto].
    split; [discriminate|]. intros _. split.
    + apply norm_index_bound in Hj. destruct HG as (_ & _ & _ & Hkeys & _).
      apply Hkeys. eapply Permutation_in; [apply keys_list_perm|].
      apply nth_In. exact Hj.
    + unfold py_choose in Hc. destruct (nth_error _ _); inversion Hc. reflexivity.
Qed.


Lemma set_mem_endpoint edges i :
  set_mem Z.eq_dec i (snd (build_graph edges)) = true <-> endpoint edges i.
Proof.
  destruct (build_graph_spec edges) as (_ & Hnodes & _). rewrite <- Hnodes. split.
  - apply set_mem_correct1.
  - apply set_mem_correct2.
Qed.

Lemma random_walk_fuel_mono fuel edges s init_node restart (h : host R) r :
  random_walk fuel edges s init_node restart h = Returns r ->
  forall fuel', (fuel <= fuel')%nat ->
    random_walk fuel' edges s init_node restart h = Returns r.
Proof.
  unfold random_walk. intros H fuel' Hle.
  destruct (start_node _ _ init_node (np_reseed h)) as [[i h1]|e|]; try discriminate.
  destruct (negb (set_mem Z.eq_dec i (snd (build_graph edges)))); [exact H|].
  destruct (negb (leb zero restart && less restart one)); [exact H|].
  destruct (negb ((0 <=? s) && (s <=? Z.of_nat (length (snd (build_graph edges))))));
    [exact H|].
  destruct (s <=? 1); [exact H|].
  destruct (walk fuel _ i restart s ([i], [], i) h1) as [[st h2]|e|] eqn:E;
    try discriminate.
  rewrite (walk_fuel_mono _ _ _ _ _ _ _ _ E fuel' Hle). exact H.
Qed.

Lemma walk_of_start edges i : endpoint edges i -> walk_of edges i [i] [].
Proof.
  intros Hi. split; [repeat constructor; intros []|]. split; [constructor|].
  split; [left; reflexivity|]. split.
  - intros x [<-|[]]. split; [exact Hi|constructor].
  - intros u v [].
Qed.

(** X19: whatever a call returns besides the empty answer of a rejected
    request is a connected piece of the graph: exactly [max(1, s)]
    distinct vertices of the graph, the start among them (the given
    [init_node], if there is one), each reached from the start along the
    returned pairs; the pairs come in both directions, join returned
    vertices only, and each is an edge of the graph in one direction or
    the other.  numpy's generator has been reseeded, nothing has been
    printed, and more iterations granted to the loop change nothing. *)
Theorem random_walk_connected_subgraph fuel edges s init_node restart (h : host R)
    ns es h' :
  random_walk fuel edges s init_node restart h = Returns ((ns, es), h') ->
  ns <> [] ->
  (exists start,
     (forall i, init_node = Some i -> start = i) /\ walk_of edges start ns es)
  /\ Z.of_nat (length ns) = Z.max 1 s
  /\ np_world h' = reseeded (np_world h)
  /\ console h' = console h
  /\ (forall fuel', (fuel <= fuel')%nat ->
        random_walk fuel' edges s init_node restart h = Returns ((ns, es), h')).
Proof.
  intros H Hne.
  pose proof (random_walk_fuel_mono _ _ _ _ _ _ _ H) as Hmono.
  assert ((exists start,
             (forall i, init_node = Some i -> start = i) /\ walk_of edges start ns es)
          /\ Z.of_nat (length ns) = Z.max 1 s
          /\ np_world h' = reseeded (np_world h)
          /\ console h' = console h) as Hmain;
    [|destruct Hmain as (A & B & C & D); auto].
  clear Hmono. unfold random_walk in H.
  pose proof (build_graph_spec edges) as HG.
  pose proof (start_node_cases edges init_node (np_reseed h)) as Hs. cbv zeta in Hs.
  destruct (start_node _ _ init_node (np_reseed h)) as [[i h1]|e|]; try discriminate.
  destruct Hs as [Hsome Hnone].
  assert (np_world h1 = reseeded (np_world h) /\ console h1 = console h) as [Hnp Hco].
  { destruct init_node as [i0|].
    - destruct (Hsome i0 eq_refl) as [_ ->]. split; reflexivity.
    - destruct (Hnone eq_refl) as [_ ->]. split; reflexivity. }
  assert (forall i0, init_node = Some i0 -> i = i0) as Hst
    by (intros i0 E; apply (Hsome i0 E)).
  destruct (set_mem Z.eq_dec i (snd (build_graph edges))) eqn:Hm; cbn [negb] in H;
    [|inversion H; subst; congruence].
  apply set_mem_endpoint in Hm.
  destruct (leb zero restart && less restart one); cbn [negb] in H;
    [|inversion H; subst; congruence].
  destruct ((0 <=? s) && (s <=? Z.of_nat (length (snd (build_graph edges)))));
    cbn [negb] in H; [|inversion H; subst; congruence].
  destruct (Z.leb_spec s 1) as [Hs1|Hs1].
  - inversion H; subst ns es h'. split; [|split; [simpl; lia|split; assumption]].
    exists i. split; [exact Hst|apply walk_of_start; exact Hm].
  - destruct (walk_cases edges _ _ i restart s fuel HG [i] [] i h1
                (walk_of_start edges i Hm) (or_introl eq_refl) ltac:(simpl; lia))
      as [O|(ns' & es' & nx & k & E & W & L & _)].
    + rewrite O in H. discriminate.
    + rewrite E in H. cbn [fst snd] in H. inversion H; subst ns es h'.
      split; [|split; [|split; assumption]].
      * exists i. split; [exact Hst|].
        eapply walk_of_perm; [apply set_list_perm|apply pairs_list_perm|exact W].
      * rewrite (Permutation_length (set_list_perm ns')). lia.
Qed.

(** X20: a request is rejected with the empty answer and one printed line,
    whatever the walk could have done: when the given start is not an
    end of any edge; else when the restart probability is outside
    [[0, 1)]; else when [s] is negative or above the number of vertices.
    Python's generator is not read. *)
Theorem random_walk_rejects fuel edges s i restart (h : host R) :
  let r := random_walk fuel edges s (Some i) restart h in
  let n := length (vertices edges) in
  (~ endpoint edges i ->
   r = Returns (([], []),
                say "Error: the initial_node is not in the graph!" (np_reseed h)))
  /\ (endpoint edges i -> leb zero restart && less restart one = false ->
      r = Returns (([], []),
                   say "Error: the restart probability not in (0.0,1.0)" (np_reseed h)))
  /\ (endpoint edges i -> leb zero restart && less restart one = true ->
      s < 0 \/ Z.of_nat n < s ->
      r = Returns (([], []),
                   say (String.append "Error: the number of nodes not in [0,"
                          (String.append (decimal n) "]")) (np_reseed h))).
Proof.
  intros r n. unfold r, n, random_walk. cbn [start_node].
  destruct (graph_vertices edges _ _ (build_graph_spec edges)) as [Hlen _].
  split; [|split].
  - intros Hi. rewrite <- set_mem_endpoint in Hi.
    destruct (set_mem Z.eq_dec i (snd (build_graph edges))); [congruence|reflexivity].
  - intros Hi Hr. apply set_mem_endpoint in Hi. rewrite Hi, Hr. reflexivity.
  - intros Hi Hr Hs. apply set_mem_endpoint in Hi. rewrite Hi, Hr, Hlen. cbn [negb].
    destruct (Z.leb_spec 0 s); destruct (Z.leb_spec s (Z.of_nat (length (vertices edges))));
      try lia; reflexivity.
Qed.

(** X21: asked for no vertex or for one, on a start in the graph and with a
    restart probability in [[0, 1)], the call returns the start alone and
    no pair, also for [s = 0]; it reads no generator but numpy's seed and
    needs no iteration of the loop. *)
Theorem random_walk_single_vertex fuel edges s i restart (h : host R) :
  endpoint edges i -> leb zero restart && less restart one = true -> 0 <= s <= 1 ->
  random_walk fuel edges s (Some i) restart h = Returns (([i], []), np_reseed h).
Proof.
  intros Hi Hr Hs. unfold random_walk. cbn [start_node].
  pose proof (proj2 (set_mem_endpoint edges i) Hi) as Hm. rewrite Hm, Hr. cbn [negb].
  apply set_mem_correct1 in Hm.
  assert (1 <= length (snd (build_graph edges)))%nat as Hl
    by (destruct (snd (build_graph edges)); [destruct Hm|simpl; lia]).
  destruct (Z.leb_spec 0 s); [|lia].
  destruct (Z.leb_spec s (Z.of_nat (length (snd (build_graph edges))))); [|lia].
  cbn [andb negb]. destruct (Z.leb_spec s 1); [reflexivity|lia].
Qed.

(** X22: with a given start the call raises nothing: it returns or it walks
    on; without one it can raise [IndexError] only.  The lookup
    [adj[next_node]] never fails and a vertex of the walk always has a
    neighbour to choose from. *)
Theorem random_walk_raises_no_key_error fuel edges s init_node restart (h : host R) :
  (forall e, random_walk fuel edges s init_node restart h = Raises e ->
             init_node = None /\ e = WalkIndexError)
  /\ (forall i, exists r,
        random_walk fuel edges s (Some i) restart h = Returns r
        \/ random_walk fuel edges s (Some i) restart h = OutOfFuel).
Proof.
  assert (forall init e, random_walk fuel edges s init restart h = Raises e ->
                         init = None /\ e = WalkIndexError) as Hgen.
  { intros init e H. unfold random_walk in H.
    pose proof (build_graph_spec edges) as HG.
    pose proof (start_node_cases edges init (np_reseed h)) as Hs. cbv zeta in Hs.
    destruct (start_node _ _ init (np_reseed h)) as [[i h1]|e'|]; try discriminate.
    2:{ inversion H; subst. exact Hs. }
    destruct (set_mem Z.eq_dec i (snd (build_graph edges))) eqn:Hm; cbn [negb] in H;
      [|discriminate].
    apply set_mem_endpoint in Hm.
    destruct (negb (leb zero restart && less restart one)); [discriminate|].
    destruct (negb ((0 <=? s) && (s <=? Z.of_nat (length (snd (build_graph edges))))));
      [discriminate|].
    destruct (Z.leb_spec s 1) as [Hs1|Hs1]; [discriminate|].
    destruct (walk_cases edges _ _ i restart s fuel HG [i] [] i h1
                (walk_of_start edges i Hm) (or_introl eq_refl) ltac:(simpl; lia))
      as [O|(ns' & es' & nx & k & E & _)].
    - rewrite O in H. discriminate.
    - rewrite E in H. discriminate. }
  split; [apply Hgen|].
  intros i. destruct (random_walk fuel edges s (Some i) restart h) as [r|e|] eqn:E.
  - exists r. left. reflexivity.
  - apply Hgen in E. destruct E as [E _]. discriminate.
  - exists (([], []), h). right. reflexivity.
Qed.

(** X23: the loop has no way out of the connected component of the start:
    when fewer than [s] vertices can be reached from a valid start (and
    [2 <= s] is within the number of vertices of the graph, so that the
    request is accepted), the call never returns, whatever the generator
    yields and however many iterations it is granted. *)
Theorem random_walk_small_component fuel edges s i restart (h : host R) (C : list Z) :
  endpoint edges i -> leb zero restart && less restart one = true ->
  2 <= s <= Z.of_nat (length (vertices edges)) ->
  In i C ->
  (forall u v, In u C -> In (u, v) edges \/ In (v, u) edges -> In v C) ->
  Z.of_nat (length C) < s ->
  random_walk fuel edges s (Some i) restart h = OutOfFuel.
Proof.
  intros Hi Hr Hs HiC Hclosed HC. unfold random_walk. cbn [start_node].
  pose proof (build_graph_spec edges) as HG.
  destruct (graph_vertices edges _ _ HG) as [Hlen _].
  rewrite (proj2 (set_mem_endpoint edges i) Hi), Hr, Hlen. cbn [negb].
  destruct (Z.leb_spec 0 s); [|lia].
  destruct (Z.leb_spec s (Z.of_nat (length (vertices edges)))); [|lia].
  cbn [andb negb]. destruct (Z.leb_spec s 1); [lia|].
  rewrite (walk_stuck edges _ _ i restart s C fuel HG Hclosed HC [i] [] i (np_reseed h)
             (walk_of_start edges i Hi) (or_introl eq_refl)).
  - reflexivity.
  - intros x [<-|[]]. exact HiC.
Qed.

(** X24: without a given start the chosen vertex is used as a position in
    [list(adj.keys())], not as a key: when no vertex of the graph is a
    valid position there (each is at least the number of vertices, or
    below its negative), and in particular on a graph without edges, the
    call raises [IndexError]. *)
Theorem random_walk_start_is_a_position fuel edges s restart (h : host R) :
  (forall x, endpoint edges x ->
     x < - Z.of_nat (length (vertices edges)) \/ Z.of_nat (length (vertices edges)) <= x) ->
  random_walk fuel edges s None restart h = Raises WalkIndexError.
Proof.
  intros Hout. unfold random_walk, start_node.
  pose proof (build_graph_spec edges) as HG.
  destruct (graph_vertices edges _ _ HG) as [Hlen Hkeys].
  destruct HG as (_ & Hnodes & _).
  destruct (set_list (snd (build_graph edges))) as [|x0 l0] eqn:El.
  - rewrite py_choose_nil. reflexivity.
  - destruct (py_choose_some (x0 :: l0) (np_reseed h) ltac:(discriminate))
      as (p & Hp & ->).
    assert (endpoint edges p) as He.
    { apply Hnodes. eapply Permutation_in; [apply set_list_perm|]. rewrite El. exact Hp. }
    apply Hout in He.
    rewrite norm_index_cases, (Permutation_length (keys_list_perm _)), Hkeys, Hlen.
    destruct (Z.leb_spec (- Z.of_nat (length (vertices edges))) p);
      destruct (Z.ltb_spec p (Z.of_nat (length (vertices edges)))); try lia; reflexivity.
Qed.

End WalkFacts.

(** ** The further properties at concrete inputs *)

Lemma demo_params_well_shaped : well_shaped demo_params.
Proof. repeat split; repeat constructor. Qed.

Lemma empty_params_well_shaped : well_shaped empty_params.
Proof. repeat split; repeat constructor. Qed.

Lemma greedy_oracle_within_budget : oracle_within_budget (R := Z).
Proof.
  intros edges prizes costs g root s_low s_high it vb. cbn.
  apply firstn_le_length.
Qed.

Lemma zero_vector_sparse : sparse (Z.to_nat (t_high demo_params)) (x0 demo_params).
Proof.
  exists []. split; [simpl; lia|].
  intros i Hi _. destruct i as [|[|[|i]]]; try reflexivity. simpl in Hi. lia.
Qed.

Example svrg_run_demo :
  run SvrgIHT demo_params 2 1 demo_world
  = Ok (([(4, 2); (7, 2)], 2, 2), demo_world_at 1 6 [(1, 2, 4, 2); (2, 2, 0, 2)]).
Proof. reflexivity. Qed.

Example scsg_loop_demo :
  run_loop ScsgIHT demo_params 2 1 demo_world
  = Ok (mkState [8; 0; 0] 2 4 [(3, 2); (5, 6)],
        demo_world_at 0 6 [(1, 2, 0, 2); (2, 6, 8, 6)]).
Proof. reflexivity. Qed.

Example simu_grid_graph_demo :
  fst (simu_grid_graph 3 2 true demo_host)
  = ([(0, 1); (0, 3); (1, 2); (1, 4); (2, 5); (3, 4); (4, 5)], [1; 2; 1; 2; 1; 2; 1]).
Proof. reflexivity. Qed.

Example random_walk_demo :
  random_walk 5 path_edges 3 (Some 0) 0 demo_host
  = Returns (([0; 1; 2], [(0, 1); (1, 0); (1, 2); (2, 1)]),
             py_skip 4 (np_reseed demo_host)).
Proof. reflexivity. Qed.

Example random_walk_too_few_iterations :
  random_walk 1 path_edges 3 (Some 0) 0 demo_host = OutOfFuel.
Proof. reflexivity. Qed.

Lemma calc_grad_raises_index_error_witness :
  length [0; 0; 0] = ncols demo_matrix
  /\ (forall e, calc_grad demo_matrix [2; 0; 0] [0; 0; 0] [2; 3] = Raise e ->
                e = IndexError)
  /\ calc_grad demo_matrix [2; 0; 0] [0; 0; 0] [-1]
     = calc_grad demo_matrix [2; 0; 0] [0; 0; 0] [2].
Proof.
  assert (length [0; 0; 0] = ncols demo_matrix) as H by reflexivity.
  destruct (calc_grad_raises_index_error demo_matrix [2; 0; 0] [0; 0; 0] [2; 3] H)
    as (A & _ & C).
  split; [exact H|]. split; [exact A|].
  apply (C 2); [cbn; lia|reflexivity].
Defined.

Lemma get_batch_raises_witness :
  3 / 4 < 2 ^ 63 /\ get_batch 4 3 demo_world = Raise ValueError.
Proof.
  assert (3 / 4 < 2 ^ 63) as H by (vm_compute; reflexivity).
  destruct (get_batch_raises 4 3 demo_world H) as (_ & V & _).
  split; [exact H|]. apply V. split; [lia|vm_compute; discriminate].
Defined.

Lemma get_batch_reachable_indices_witness :
  1 <= 2 <= 5 /\ 5 < 2 ^ 63
  /\ (exists (w : world Z) block w', get_batch 2 5 w = Ok (block, w') /\ In 3 block)
  /\ 2 * (5 / 2) = 4.
Proof.
  assert (1 <= 2 <= 5) as H1 by lia.
  assert (5 < 2 ^ 63) as H2 by (vm_compute; reflexivity).
  split; [exact H1|]. split; [exact H2|]. split; [|reflexivity].
  apply (get_batch_reachable_indices (R := Z) 2 5 3 H1 H2).
  vm_compute. split; [discriminate|reflexivity].
Defined.

Lemma projections_compose_witness :
  algo_head_tail_bisearch [(0, 1); (1, 2)] [3; 0; -4] [1; 1] 1 (-1) 1 5 50 0
  = Ok ([0%nat; 2%nat], [3; 0; -4])
  /\ algo_head_tail_bisearch [(0, 1); (1, 2)] [3; 0; -4] [1; 1] 1 (-1) 1 1 50 0
     = Ok ([0%nat], [3; 0; 0])
  /\ length [3; 0; 0] = length [3; 0; -4]
  /\ nth 2 [3; 0; 0] zero = zero.
Proof.
  assert (algo_head_tail_bisearch [(0, 1); (1, 2)] [3; 0; -4] [1; 1] 1 (-1) 1 5 50 0
          = Ok ([0%nat; 2%nat], [3; 0; -4])) as H1 by reflexivity.
  assert (algo_head_tail_bisearch [(0, 1); (1, 2)] [3; 0; -4] [1; 1] 1 (-1) 1 1 50 0
          = Ok ([0%nat], [3; 0; 0])) as H2 by reflexivity.
  destruct (projections_compose _ _ _ _ _ _ _ _ _ _ _ _ _ _ _ _ _ _ _ _ _ H1 H2)
    as (L & N & _).
  split; [exact H1|]. split; [exact H2|]. split; [exact L|].
  apply (N 2%nat); [simpl; lia|].
  intros [_ [E|[]]]. discriminate.
Defined.

Lemma iterate_keeps_dimension_witness :
  length (x0 demo_params) = ncols (x_mat demo_params)
  /\ run_loop ScsgIHT demo_params 2 1 demo_world
     = Ok (mkState [8; 0; 0] 2 4 [(3, 2); (5, 6)],
           demo_world_at 0 6 [(1, 2, 0, 2); (2, 6, 8, 6)])
  /\ length [8; 0; 0] = ncols (x_mat demo_params).
Proof.
  assert (length (x0 demo_params) = ncols (x_mat demo_params)) as H by reflexivity.
  split; [exact H|]. split; [exact scsg_loop_demo|].
  apply (iterate_keeps_dimension ScsgIHT demo_params 2 1 demo_world _ _ H scsg_loop_demo).
Defined.

Lemma iterate_stays_sparse_witness :
  oracle_within_budget (R := Z)
  /\ sparse (Z.to_nat (t_high demo_params)) (x0 demo_params)
  /\ Z.to_nat (t_high demo_params) = 1%nat
  /\ sparse (Z.to_nat (t_high demo_params)) [8; 0; 0].
Proof.
  split; [exact greedy_oracle_within_budget|]. split; [exact zero_vector_sparse|].
  split; [reflexivity|].
  apply (iterate_stays_sparse ScsgIHT demo_params 2 1 demo_world _ _
           greedy_oracle_within_budget zero_vector_sparse scsg_loop_demo).
Defined.

Lemma loss_record_length_witness :
  run SvrgIHT demo_params 2 1 demo_world
  = Ok (([(4, 2); (7, 2)], 2, 2), demo_world_at 1 6 [(1, 2, 4, 2); (2, 2, 0, 2)])
  /\ Z.of_nat (length [(4, 2); (7, 2)]) <= 2 <= Z.of_nat (length [(4, 2); (7, 2)]) + 1
  /\ 0 <= 2 <= Z.max 0 (max_epochs demo_params).
Proof.
  destruct (loss_record_length SvrgIHT demo_params 2 1 demo_world _ _ _ _ svrg_run_demo)
    as (A & B & _).
  split; [exact svrg_run_demo|]. split; [exact A|exact B].
Defined.

Lemma recorded_residuals_above_tolerance_witness :
  run SvrgIHT demo_params 2 1 demo_world
  = Ok (([(4, 2); (7, 2)], 2, 2), demo_world_at 1 6 [(1, 2, 4, 2); (2, 2, 0, 2)])
  /\ Forall (fun entry => leb (snd entry) (tol_algo demo_params) = false)
       [(4, 2); (7, 2)].
Proof.
  split; [exact svrg_run_demo|].
  apply (recorded_residuals_above_tolerance SvrgIHT demo_params 2 1 demo_world
           _ _ _ _ svrg_run_demo).
Defined.

Lemma generator_reads_witness :
  run SvrgIHT demo_params 2 1 demo_world
  = Ok (([(4, 2); (7, 2)], 2, 2), demo_world_at 1 6 [(1, 2, 4, 2); (2, 2, 0, 2)])
  /\ reseeds (demo_world_at 1 6 [(1, 2, 4, 2); (2, 2, 0, 2)]) = S (reseeds demo_world)
  /\ Z.of_nat (rng_pos (demo_world_at 1 6 [(1, 2, 4, 2); (2, 2, 0, 2)]))
     = Z.of_nat (reads_per_epoch SvrgIHT demo_params 2 1) * 2.
Proof.
  destruct (generator_reads SvrgIHT demo_params 2 1 demo_world _ _ _ _ svrg_run_demo)
    as (_ & A & B).
  split; [exact svrg_run_demo|]. split; [exact A|exact B].
Defined.

Lemma progress_lines_witness :
  run StoIHT threshold_params 1 1 demo_world = Ok (([], 100000, 1), demo_world_at 1 1 [])
  /\ exists L,
       stdout (demo_world_at 1 1 []) = stdout demo_world ++ L
       /\ map line_epoch L = range 1 (Z.of_nat (length L) + 1)
       /\ Z.of_nat (length L) = 0.
Proof.
  assert (run StoIHT threshold_params 1 1 demo_world
          = Ok (([], 100000, 1), demo_world_at 1 1 [])) as H by reflexivity.
  split; [exact H|].
  destruct (progress_lines StoIHT threshold_params 1 1 demo_world _ _ _ _ H)
    as (L & A & B & C).
  exists L. split; [exact A|]. split; [exact B|exact C].
Defined.

Lemma no_budget_no_epoch_witness :
  well_shaped (with_max_epochs demo_params 0)
  /\ bounds_defined (with_max_epochs demo_params 0)
  /\ max_epochs (with_max_epochs demo_params 0) <= 0
  /\ run ScsgIHT (with_max_epochs demo_params 0) 2 1 demo_world
     = Ok (([], norm (vsub (x0 demo_params) (x_star demo_params)), 0),
           reseeded demo_world).
Proof.
  assert (well_shaped (with_max_epochs demo_params 0)) as H1
    by (repeat split; repeat constructor).
  assert (bounds_defined (with_max_epochs demo_params 0)) as Hb
    by (split; reflexivity).
  assert (max_epochs (with_max_epochs demo_params 0) <= 0) as H2 by (cbn; lia).
  split; [exact H1|]. split; [exact Hb|]. split; [exact H2|].
  apply (no_budget_no_epoch ScsgIHT (with_max_epochs demo_params 0) 2 1 demo_world
           H1 Hb H2).
Defined.

Lemma empty_data_set_witness :
  well_shaped empty_params /\ bounds_defined empty_params
  /\ n_samples empty_params = 0
  /\ run StoIHT empty_params 1 1 demo_world = Raise ZeroDivisionError
  /\ run ScsgIHT empty_params 1 1 demo_world = Raise ZeroDivisionError
  /\ run SvrgIHT empty_params 1 1 demo_world
     = Ok (([], 0, 1), after_first_line empty_params (reseeded demo_world) 0 [0; 0]).
Proof.
  assert (n_samples empty_params = 0) as H1 by reflexivity.
  assert (1 <= 1) as H2 by lia.
  assert (1 <= max_epochs empty_params) as H3 by (cbn; lia).
  assert (bounds_defined empty_params) as Hb by (split; reflexivity).
  destruct (empty_data_set empty_params 1 1 demo_world empty_params_well_shaped Hb
              H1 H2 H3) as (A & B & C).
  split; [exact empty_params_well_shaped|]. split; [exact Hb|]. split; [exact H1|].
  split; [exact A|]. split; [exact B|exact C].
Defined.

Lemma scsg_mini_batch_above_block_witness :
  well_shaped demo_params /\ bounds_defined demo_params
  /\ block_size demo_params 2 < 3
  /\ run ScsgIHT demo_params 2 3 demo_world = Raise ZeroDivisionError.
Proof.
  assert (1 <= 2) as H1 by lia.
  assert (1 <= n_samples demo_params) as H2 by (vm_compute; discriminate).
  assert (block_size demo_params 2 < 3) as H3 by (vm_compute; reflexivity).
  assert (1 <= max_epochs demo_params) as H4 by (vm_compute; discriminate).
  assert (bounds_defined demo_params) as Hb by (split; reflexivity).
  split; [exact demo_params_well_shaped|]. split; [exact Hb|]. split; [exact H3|].
  exact (scsg_mini_batch_above_block demo_params 2 3 demo_world
           demo_params_well_shaped Hb H1 H2 H3 H4).
Defined.

Lemma grid_edges_are_adjacency_witness :
  1 <= 3 /\ 1 <= 2
  /\ In (1, 4) (fst (fst (simu_grid_graph 3 2 true demo_host)))
  /\ (In (2, 3) (fst (fst (simu_grid_graph 3 2 true demo_host)))
      <-> 0 <= 2 /\ 3 < 3 * 2 /\ ((3 = 2 + 1 /\ 2 mod 3 <> 3 - 1) \/ 3 = 2 + 3)).
Proof.
  assert (1 <= 3) as H1 by lia.
  assert (1 <= 2) as H2 by lia.
  split; [exact H1|]. split; [exact H2|]. split.
  - apply (grid_edges_are_adjacency 3 2 true demo_host 1 4 H1 H2). lia.
  - apply (grid_edges_are_adjacency 3 2 true demo_host 2 3 H1 H2).
Defined.

Lemma grid_edge_count_witness :
  1 <= 3 /\ 1 <= 2
  /\ Z.of_nat (length (fst (fst (simu_grid_graph 3 2 true demo_host))))
     = 2 * 3 * 2 - 3 - 2
  /\ NoDup (fst (fst (simu_grid_graph 3 2 true demo_host))).
Proof.
  assert (1 <= 3) as H1 by lia.
  assert (1 <= 2) as H2 by lia.
  destruct (grid_edge_count 3 2 true demo_host H1 H2) as (A & B & _).
  split; [exact H1|]. split; [exact H2|]. split; [exact A|exact B].
Defined.

Lemma grid_edge_costs_witness :
  (3 <? 0) && (2 <? 0) = false
  /\ snd (fst (simu_grid_graph 3 2 false demo_host))
     = repeat one (length (fst (fst (simu_grid_graph 3 2 false demo_host))))
  /\ snd (simu_grid_graph 3 2 true demo_host)
     = py_skip (length (fst (fst (simu_grid_graph 3 2 true demo_host))))
         (np_reseed demo_host).
Proof.
  assert ((3 <? 0) && (2 <? 0) = false) as H by reflexivity.
  destruct (grid_edge_costs 3 2 demo_host H) as (_ & A & _ & _ & B).
  split; [exact H|]. split; [exact A|exact B].
Defined.

Lemma grid_without_vertices_witness :
  (0 <= 0 \/ 2 <= 0)
  /\ fst (simu_grid_graph 0 2 true demo_host) = ([], [])
  /\ console (snd (simu_grid_graph 0 2 true demo_host)) = console demo_host ++ [].
Proof.
  assert (0 <= 0 \/ 2 <= 0) as H by (left; lia).
  destruct (grid_without_vertices 0 2 true demo_host H) as (A & _ & _ & B).
  split; [exact H|]. split; [exact A|exact B].
Defined.

Lemma random_walk_connected_subgraph_witness :
  random_walk 5 path_edges 3 (Some 0) 0 demo_host
  = Returns (([0; 1; 2], [(0, 1); (1, 0); (1, 2); (2, 1)]),
             py_skip 4 (np_reseed demo_host))
  /\ (exists start,
        (forall i, Some 0 = Some i -> start = i)
        /\ walk_of path_edges start [0; 1; 2] [(0, 1); (1, 0); (1, 2); (2, 1)])
  /\ Z.of_nat (length [0; 1; 2]) = Z.max 1 3.
Proof.
  assert ([0; 1; 2] <> []) as H by discriminate.
  destruct (random_walk_connected_subgraph 5 path_edges 3 (Some 0) 0 demo_host
              _ _ _ random_walk_demo H) as (A & B & _).
  split; [exact random_walk_demo|]. split; [exact A|exact B].
Defined.

Lemma path_endpoint_1 : endpoint path_edges 1.
Proof. exists (0, 1). split; [left; reflexivity|right; reflexivity]. Qed.

Lemma split_endpoint_0 : endpoint split_edges 0.
Proof. exists (0, 1). split; [left; reflexivity|left; reflexivity]. Qed.

Lemma random_walk_single_vertex_witness :
  endpoint path_edges 1 /\ leb zero 0 && less 0 one = true /\ 0 <= 0 <= 1
  /\ random_walk 5 path_edges 0 (Some 1) 0 demo_host
     = Returns (([1], []), np_reseed demo_host).
Proof.
  assert (leb zero 0 && less 0 one = true) as H1 by reflexivity.
  assert (0 <= 0 <= 1) as H2 by lia.
  split; [exact path_endpoint_1|]. split; [exact H1|]. split; [exact H2|].
  apply (random_walk_single_vertex 5 path_edges 0 1 0 demo_host path_endpoint_1 H1 H2).
Defined.

Lemma random_walk_small_component_witness :
  endpoint split_edges 0 /\ 2 <= 3 <= Z.of_nat (length (vertices split_edges))
  /\ Z.of_nat (length [0; 1]) < 3
  /\ random_walk 50 split_edges 3 (Some 0) 0 demo_host = OutOfFuel.
Proof.
  assert (leb zero 0 && less 0 one = true) as H1 by reflexivity.
  assert (2 <= 3 <= Z.of_nat (length (vertices split_edges))) as H2
    by (vm_compute; split; discriminate).
  assert (In 0 [0; 1]) as H3 by (left; reflexivity).
  assert (forall u v, In u [0; 1] ->
            In (u, v) split_edges \/ In (v, u) split_edges -> In v [0; 1]) as H4.
  { intros u v [<-|[<-|[]]] [[E|[E|[]]]|[E|[E|[]]]]; inversion E; simpl; auto. }
  assert (Z.of_nat (length [0; 1]) < 3) as H5 by (simpl; lia).
  split; [exact split_endpoint_0|]. split; [exact H2|]. split; [exact H5|].
  apply (random_walk_small_component 50 split_edges 3 0 0 demo_host [0; 1]
           split_endpoint_0 H1 H2 H3 H4 H5).
Defined.

Lemma random_walk_start_is_a_position_witness :
  length (vertices [(5, 6)]) = 2%nat
  /\ random_walk 5 [(5, 6)] 1 None 0 demo_host = Raises WalkIndexError.
Proof.
  split; [reflexivity|].
  apply (random_walk_start_is_a_position 5 [(5, 6)] 1 0 demo_host).
  intros x [e [[He|[]] [Hx|Hx]]]; subst e x; right; vm_compute; discriminate.
Defined.
